(** * Byzantine broadcast demo (byzantine_gui.py): model and properties

    A shallow embedding of the simulation logic of [byzantine_gui.py]:
    the [Node] class with its path-keyed message log, the helper
    [get_majority], and the handlers of [ByzantineGUI] that drive the
    OM(F) rounds.  Drawing code is left out; what it reads is all kept. *)

From Stdlib Require Import ZArith List Bool Arith Lia.
From Stdlib Require Import Ascii DecimalString DecimalNat.
From stdpp Require Import base list strings.
Import ListNotations.

Set Default Proof Using "Type".

(** ** Values and the message log *)

(** The two order strings, ['Attack'] and ['Retreat']. *)
Inductive Value := Attack | Retreat.

Definition Value_eqb (a b : Value) : bool :=
  match a, b with
  | Attack, Attack | Retreat, Retreat => true
  | _, _ => false
  end.

(** A path is the list of node ids a value travelled through. *)
Definition Path := list nat.

(** The source keys the log by the text ['-'.join(map(str, path))] and
    reads a key back with [list(map(int, path_str.split('-')))].  [str]
    writes a number in decimal, [int] reads a decimal numeral ([None] for
    [ValueError]; Python's [int] also takes signs, blanks and underscores,
    which no key written by the program contains), [split] cuts a text at
    every separator. *)
Definition str (i : nat) : string := NilZero.string_of_uint (Nat.to_uint i).

Definition int (x : string) : option nat :=
  option_map Nat.of_uint (NilZero.uint_of_string x).

Fixpoint split (sep : ascii) (s : string) : list string :=
  match s with
  | EmptyString => [EmptyString]
  | String c s' =>
      if Ascii.eqb c sep then EmptyString :: split sep s'
      else match split sep s' with
           | x :: xs => String c x :: xs
           | [] => [String c EmptyString]
           end
  end.

Fixpoint ints (l : list string) : option (list nat) :=
  match l with
  | [] => Some []
  | x :: l' =>
      match int x, ints l' with
      | Some i, Some p => Some (i :: p)
      | _, _ => None
      end
  end.

(** ['-'.join(map(str, path))] *)
Definition join_ids (path : Path) : string := String.concat "-" (map str path).

(** [list(map(int, path_str.split('-')))] *)
Definition parse_ids (path_str : string) : option Path :=
  ints (split "-"%char path_str).

(** [message_log] is a Python dict with the joined paths as keys: lookups
    by key, iteration in insertion order, assignment in place for a key
    already there and at the end for a new one. *)
Definition Log := list (string * Value).

Fixpoint dict_get (d : Log) (key : string) : option Value :=
  match d with
  | [] => None
  | (k, v) :: d' => if String.eqb k key then Some v else dict_get d' key
  end.

Definition dict_mem (d : Log) (key : string) : bool :=
  match dict_get d key with Some _ => true | None => false end.

Fixpoint dict_set (d : Log) (key : string) (v : Value) : Log :=
  match d with
  | [] => [(key, v)]
  | (k, v') :: d' =>
      if String.eqb k key then (k, v) :: d' else (k, v') :: dict_set d' key v
  end.

(** ** class Node *)

Record Node := mkNode {
  id : nat;
  is_sender : bool;
  is_faulty : bool;
  message_log : Log;
  final_decision : option Value
}.

(** [Node(node_id, x, y)]; the coordinates only serve the drawing. *)
Definition new_Node (node_id : nat) : Node :=
  mkNode node_id false false [] None.

Definition set_is_sender (b : bool) (n : Node) : Node :=
  mkNode (id n) b (is_faulty n) (message_log n) (final_decision n).
Definition set_is_faulty (b : bool) (n : Node) : Node :=
  mkNode (id n) (is_sender n) b (message_log n) (final_decision n).
Definition set_message_log (l : Log) (n : Node) : Node :=
  mkNode (id n) (is_sender n) (is_faulty n) l (final_decision n).
Definition set_final_decision (d : option Value) (n : Node) : Node :=
  mkNode (id n) (is_sender n) (is_faulty n) (message_log n) d.

(** [Node.get_faulty_value] *)
Definition get_faulty_value (self : Node) (original_value : Value)
    (target_node_id : nat) : Value :=
  if negb (is_faulty self) then original_value
  else if target_node_id mod 2 =? 0 then Attack else Retreat.

(** ** get_majority

    The entries are what [resolve_decision] collects: a value, or [None]
    when [message_log.get] found nothing. *)
Definition count_votes (values : list (option Value)) : nat * nat :=
  fold_left
    (fun counts v =>
       match v with
       | Some Attack => (S (fst counts), snd counts)
       | Some Retreat => (fst counts, S (snd counts))
       | None => counts
       end)
    values (0, 0).

(** [counts['Attack'] > len(values) / 2] compares an integer with the exact
    half, so it holds when twice the count exceeds the length. *)
Definition get_majority (values : list (option Value)) : Value :=
  if length values <? 2 * fst (count_votes values) then Attack else Retreat.

(** [Node.resolve_decision]; [global_nodes] is [app.nodes]. *)
Fixpoint resolve_decision (global_nodes : list Node) (self : Node)
    (path : Path) (f : nat) : option Value :=
  let path_str := join_ids path in
  let v := dict_get (message_log self) path_str in
  match f with
  | 0 => v
  | S f' =>
      let values :=
        fold_left
          (fun values node =>
             if negb (id node =? id self)
                && negb (existsb (Nat.eqb (id node)) path)
             then
               let child_path := path ++ [id node] in
               let child_path_str := join_ids child_path in
               if dict_mem (message_log self) child_path_str
               then values ++ [resolve_decision global_nodes self child_path f']
               else values
             else values)
          global_nodes [v] in
      Some (get_majority values)
  end.

(** [Node.run_decision] *)
Definition run_decision (global_nodes : list Node) (self : Node) (F : nat)
    (sender_node_id : nat) : Node :=
  let initial_path := [sender_node_id] in
  set_final_decision (resolve_decision global_nodes self initial_path F) self.

(** [Node.draw]: the colour [fill] of the node's disc, light green
    (['#90EE90']) for the sender, light red (['#F08080']) for a faulty
    node, light blue (['#ADD8E6']) otherwise. *)
Inductive Colour := LightGreen | LightRed | LightBlue.

Definition draw_fill (self : Node) : Colour :=
  if is_sender self then LightGreen
  else if is_faulty self then LightRed
  else LightBlue.

(** ** class Message

    [from_node] and [to_node] are references to node objects of
    [self.nodes]; a reference is the object's position in that list. *)
Record Message := mkMessage {
  from_node : nat;
  to_node : nat;
  value : Value;
  path : Path
}.

(** ** class ByzantineGUI *)

Inductive Phase := setup | ready | running | finished.

(** Text of [sim_state_label]: ["State: <phase>"], or one of the two error
    texts of [setup_simulation]. *)
Inductive Label :=
| LState (p : Phase)
| LErrorMin (min_n : Z)
| LErrorNumber.

(** ["Error" in self.sim_state_label.cget("text")] *)
Definition is_error (l : Label) : bool :=
  match l with LState _ => false | _ => true end.

(** The widget variables [f_var], [n_var] and [sender_value_var] hold the
    user's input.  [n_var] is kept as the outcome of [int(self.n_var.get())]:
    [None] stands for a text on which [int] raises [ValueError]. *)
Record GUI := mkGUI {
  f_var : nat;
  n_var : option Z;
  sender_value_var : Value;
  nodes : list Node;
  messages : list Message;
  max_faulty : nat;
  total_nodes : Z;
  current_faulty : Z;
  sender_id : nat;
  current_round : nat;
  simulation_state : Phase;
  sender_value : Value;
  sim_state_label : Label
}.

Definition with_n_var (x : option Z) (s : GUI) : GUI :=
  mkGUI (f_var s) x (sender_value_var s) (nodes s) (messages s) (max_faulty s)
    (total_nodes s) (current_faulty s) (sender_id s) (current_round s)
    (simulation_state s) (sender_value s) (sim_state_label s).
Definition with_f_var (x : nat) (s : GUI) : GUI :=
  mkGUI x (n_var s) (sender_value_var s) (nodes s) (messages s) (max_faulty s)
    (total_nodes s) (current_faulty s) (sender_id s) (current_round s)
    (simulation_state s) (sender_value s) (sim_state_label s).
Definition with_sender_value_var (x : Value) (s : GUI) : GUI :=
  mkGUI (f_var s) (n_var s) x (nodes s) (messages s) (max_faulty s)
    (total_nodes s) (current_faulty s) (sender_id s) (current_round s)
    (simulation_state s) (sender_value s) (sim_state_label s).
Definition with_nodes (x : list Node) (s : GUI) : GUI :=
  mkGUI (f_var s) (n_var s) (sender_value_var s) x (messages s) (max_faulty s)
    (total_nodes s) (current_faulty s) (sender_id s) (current_round s)
    (simulation_state s) (sender_value s) (sim_state_label s).
Definition with_messages (x : list Message) (s : GUI) : GUI :=
  mkGUI (f_var s) (n_var s) (sender_value_var s) (nodes s) x (max_faulty s)
    (total_nodes s) (current_faulty s) (sender_id s) (current_round s)
    (simulation_state s) (sender_value s) (sim_state_label s).
Definition with_max_faulty (x : nat) (s : GUI) : GUI :=
  mkGUI (f_var s) (n_var s) (sender_value_var s) (nodes s) (messages s) x
    (total_nodes s) (current_faulty s) (sender_id s) (current_round s)
    (simulation_state s) (sender_value s) (sim_state_label s).
Definition with_total_nodes (x : Z) (s : GUI) : GUI :=
  mkGUI (f_var s) (n_var s) (sender_value_var s) (nodes s) (messages s)
    (max_faulty s) x (current_faulty s) (sender_id s) (current_round s)
    (simulation_state s) (sender_value s) (sim_state_label s).
Definition with_current_faulty (x : Z) (s : GUI) : GUI :=
  mkGUI (f_var s) (n_var s) (sender_value_var s) (nodes s) (messages s)
    (max_faulty s) (total_nodes s) x (sender_id s) (current_round s)
    (simulation_state s) (sender_value s) (sim_state_label s).
Definition with_current_round (x : nat) (s : GUI) : GUI :=
  mkGUI (f_var s) (n_var s) (sender_value_var s) (nodes s) (messages s)
    (max_faulty s) (total_nodes s) (current_faulty s) (sender_id s) x
    (simulation_state s) (sender_value s) (sim_state_label s).
Definition with_simulation_state (x : Phase) (s : GUI) : GUI :=
  mkGUI (f_var s) (n_var s) (sender_value_var s) (nodes s) (messages s)
    (max_faulty s) (total_nodes s) (current_faulty s) (sender_id s)
    (current_round s) x (sender_value s) (sim_state_label s).
Definition with_sender_value (x : Value) (s : GUI) : GUI :=
  mkGUI (f_var s) (n_var s) (sender_value_var s) (nodes s) (messages s)
    (max_faulty s) (total_nodes s) (current_faulty s) (sender_id s)
    (current_round s) (simulation_state s) x (sim_state_label s).
Definition with_sim_state_label (x : Label) (s : GUI) : GUI :=
  mkGUI (f_var s) (n_var s) (sender_value_var s) (nodes s) (messages s)
    (max_faulty s) (total_nodes s) (current_faulty s) (sender_id s)
    (current_round s) (simulation_state s) (sender_value s) x.

(** A handler either returns, or an exception ([IndexError], [ValueError])
    escapes from it; Tk's main loop reports the exception and goes on with
    the object as the handler left it. *)
Inductive outcome :=
| Returned (s : GUI)
| Raised (s : GUI).

Definition state_of (o : outcome) : GUI :=
  match o with Returned s | Raised s => s end.

(** [enumerate(l)]: every object of the list with its position. *)
Definition enumerate {A} (l : list A) : list (nat * A) :=
  combine (seq 0 (length l)) l.

(** [update_ui_state]: of the widgets it configures, only the text of
    [sim_state_label] is read again by the program. *)
Definition update_ui_state (s : GUI) : GUI :=
  if is_error (sim_state_label s) then s
  else with_sim_state_label (LState (simulation_state s)) s.

(** [setup_simulation] *)
Definition setup_simulation (s : GUI) : outcome :=
  let s := with_max_faulty (f_var s) s in
  let min_n := Z.of_nat (3 * max_faulty s + 1) in
  match n_var s with
  | Some n_input =>
      if (n_input <? min_n)%Z then
        Returned (with_messages [] (with_nodes []
                   (with_sim_state_label (LErrorMin min_n) s)))
      else
        let s := with_total_nodes n_input s in
        let s := with_sender_value (sender_value_var s) s in
        let s := with_nodes [] s in
        let s := with_messages [] s in
        let s := with_current_round 0 s in
        let s := with_current_faulty 0%Z s in
        let s := with_simulation_state ready s in
        let s := with_nodes
                   (map new_Node (seq 0 (Z.to_nat (total_nodes s)))) s in
        match nodes s !! sender_id s with
        | None => Raised s
        | Some sender =>
            let s := with_nodes
                       (<[sender_id s := set_is_sender true sender]> (nodes s))
                       s in
            Returned (update_ui_state s)
        end
  | None =>
      Returned (with_messages [] (with_nodes []
                 (with_sim_state_label LErrorNumber s)))
  end.

(** [on_f_changed] *)
Definition on_f_changed (s : GUI) : outcome :=
  let s := with_max_faulty (f_var s) s in
  let min_n := 3 * max_faulty s + 1 in
  let s := with_n_var (Some (Z.of_nat min_n)) s in
  setup_simulation s.

(** [deliver_messages] *)
Definition deliver_messages (s : GUI) : GUI :=
  fold_left
    (fun s msg =>
       let path_string := join_ids (path msg) in
       with_nodes
         (alter (fun n => set_message_log
                            (dict_set (message_log n) path_string (value msg)) n)
                (to_node msg) (nodes s))
         s)
    (messages s) s.

(** Round 1 of [run_next_round]: the sender's messages. *)
Definition round1_messages (s : GUI) (sender : Node) : list Message :=
  let path := [id sender] in
  flat_map
    (fun '(i, node) =>
       if id node =? id sender then []
       else
         let value_to_send := get_faulty_value sender (sender_value s) (id node) in
         [mkMessage (sender_id s) i value_to_send path])
    (enumerate (nodes s)).

(** Rounds 2 to F+1 of [run_next_round]: the relays, as loops over
    [self.nodes] at the round [self.current_round].  The innermost loop
    gives the messages that relay one logged value. *)
Definition relay_value (nodes : list Node) (si : nat) (sender_node : Node)
    (path : Path) (value : Value) : list Message :=
  flat_map
    (fun '(ri, receiver_node) =>
       if negb (id receiver_node =? id sender_node)
          && negb (existsb (Nat.eqb (id receiver_node)) path)
       then
         let value_to_send :=
           get_faulty_value sender_node value (id receiver_node) in
         let new_path := path ++ [id sender_node] in
         [mkMessage si ri value_to_send new_path]
       else [])
    (enumerate nodes).

(** The loop over the items of one node's log, appending to [messages];
    the flag is [false] when a key cannot be read back and [ValueError]
    ends the loops. *)
Fixpoint relay_items (nodes : list Node) (current_round : nat) (si : nat)
    (sender_node : Node) (items : Log) (messages : list Message)
    : list Message * bool :=
  match items with
  | [] => (messages, true)
  | (path_str, value) :: items' =>
      match parse_ids path_str with
      | None => (messages, false)
      | Some path =>
          relay_items nodes current_round si sender_node items'
            (if length path =? current_round - 1
             then messages ++ relay_value nodes si sender_node path value
             else messages)
      end
  end.

(** The loop over the nodes. *)
Fixpoint relay_nodes (nodes : list Node) (current_round : nat)
    (senders : list (nat * Node)) (messages : list Message)
    : list Message * bool :=
  match senders with
  | [] => (messages, true)
  | (si, sender_node) :: senders' =>
      match relay_items nodes current_round si sender_node
              (message_log sender_node) messages with
      | (messages, true) => relay_nodes nodes current_round senders' messages
      | (messages, false) => (messages, false)
      end
  end.

Definition relay_messages (s : GUI) : list Message * bool :=
  relay_nodes (nodes s) (current_round s) (enumerate (nodes s)) [].

(** The closing loop of [run_next_round]: every node that is not faulty
    decides, each call reading [app.nodes] as the calls before left it. *)
Definition decide_all (s : GUI) : GUI :=
  fold_left
    (fun s i =>
       match nodes s !! i with
       | Some node =>
           if negb (is_faulty node) then
             with_nodes
               (<[i := run_decision (nodes s) node (max_faulty s) (sender_id s)]>
                  (nodes s))
               s
           else s
       | None => s
       end)
    (seq 0 (length (nodes s))) s.

Definition finish_round (s : GUI) : outcome :=
  let s := deliver_messages s in
  let s :=
    if max_faulty s <? current_round s then
      decide_all (with_simulation_state finished s)
    else s in
  Returned (update_ui_state s).

(** [run_next_round], from [self.current_round += 1] on. *)
Definition run_round (s : GUI) : outcome :=
  let s := with_current_round (current_round s + 1) s in
  let s := with_messages [] s in
  if current_round s =? 1 then
    match nodes s !! sender_id s with
    | None => Raised s
    | Some sender =>
        finish_round (with_messages (round1_messages s sender) s)
    end
  else if current_round s <=? max_faulty s + 1 then
    match relay_messages s with
    | (messages, true) => finish_round (with_messages messages s)
    | (messages, false) => Raised (with_messages messages s)
    end
  else finish_round s.

(** [run_next_round] *)
Definition run_next_round (s : GUI) : outcome :=
  match simulation_state s with
  | running => run_round s
  | ready => run_round (with_simulation_state running s)
  | _ => Returned s
  end.

(** [on_canvas_click].  The event's coordinates are only compared with the
    discs of the nodes; [hit] tells, by node id, which discs contain the
    clicked point. *)
Definition on_canvas_click (hit : nat -> bool) (s : GUI) : GUI :=
  match simulation_state s with
  | ready =>
      match find (fun '(_, node) => hit (id node)) (enumerate (nodes s)) with
      | None => s
      | Some (i, node) =>
          if is_sender node then s
          else if is_faulty node then
            update_ui_state
              (with_current_faulty (current_faulty s - 1)
                 (with_nodes (<[i := set_is_faulty false node]> (nodes s)) s))
          else if (current_faulty s <? Z.of_nat (max_faulty s))%Z then
            update_ui_state
              (with_current_faulty (current_faulty s + 1)
                 (with_nodes (<[i := set_is_faulty true node]> (nodes s)) s))
          else update_ui_state s
      end
  | _ => s
  end.

(** [ByzantineGUI.__init__]: the attribute values assigned before the
    closing call of [on_f_changed].  [sender_value] does not exist yet at
    that point; [setup_simulation] assigns it before anything reads it. *)
Definition init_fields : GUI :=
  mkGUI 1 (Some 4%Z) Attack [] [] 1 4%Z 0%Z 0 0 setup Attack (LState setup).

Definition initial : GUI := state_of (on_f_changed init_fields).

(** ** User events

    What the user can do to the window: pick F in the combobox (its values
    are 1 and 2, and the box is read-only), type into the N entry, pick the
    sender's value, press the two buttons, click on the canvas. *)
Inductive event :=
| SelectF (f : nat)
| TypeN (n : option Z)
| ChooseValue (v : Value)
| ClickSetup
| ClickNext
| ClickCanvas (hit : nat -> bool).

Definition f_combo_values : list nat := [1; 2].

(** The handlers are taken for every press, also of a button that
    [update_ui_state] has disabled at the time: a disabled button only
    takes runs away. *)
Definition enabled (e : event) : Prop :=
  match e with
  | SelectF f => In f f_combo_values
  | _ => True
  end.

Definition handle (s : GUI) (e : event) : outcome :=
  match e with
  | SelectF f => on_f_changed (with_f_var f s)
  | TypeN n => Returned (with_n_var n s)
  | ChooseValue v => Returned (with_sender_value_var v s)
  | ClickSetup => setup_simulation s
  | ClickNext => run_next_round s
  | ClickCanvas hit => Returned (on_canvas_click hit s)
  end.

Definition step (s : GUI) (e : event) : GUI := state_of (handle s e).

Inductive reachable : GUI -> Prop :=
| reachable_initial : reachable initial
| reachable_step s e : reachable s -> enabled e -> reachable (step s e).

(** [k] presses of "Next Round", none of which raises. *)
Fixpoint advance (k : nat) (s : GUI) : option GUI :=
  match k with
  | 0 => Some s
  | S k' =>
      match run_next_round s with
      | Returned s' => advance k' s'
      | Raised _ => None
      end
  end.

(** * Vocabulary of the properties *)

(** The log read and written by path, through the joined keys. *)
Definition log_get (l : Log) (p : Path) : option Value :=
  dict_get l (join_ids p).

Definition log_mem (l : Log) (p : Path) : bool := dict_mem l (join_ids p).

Definition log_set (l : Log) (p : Path) (v : Value) : Log :=
  dict_set l (join_ids p) v.

Definition Path_eqb (p q : Path) : bool := bool_decide (p = q).

Arguments log_get : simpl never.
Arguments log_mem : simpl never.
Arguments log_set : simpl never.

(** The items of a log whose keys can be read back, with the paths read. *)
Definition entries (l : Log) : list (Path * Value) :=
  flat_map
    (fun '(path_str, v) =>
       match parse_ids path_str with
       | Some p => [(p, v)]
       | None => []
       end)
    l.

(** Every key of the log is the joined form of a path that is not empty. *)
Definition keys_ok (l : Log) : Prop :=
  forall path_str v,
    In (path_str, v) l -> exists p, p <> [] /\ path_str = join_ids p.

Definition keys_ok_nodes (ns : list Node) : Prop :=
  forall i node, ns !! i = Some node -> keys_ok (message_log node).

(** Whether the character [c] occurs in [s]. *)
Fixpoint occurs (c : ascii) (s : string) : bool :=
  match s with
  | EmptyString => false
  | String a s' => Ascii.eqb a c || occurs c s'
  end.

(** Number of entries of [values] that are the value [x]. *)
Definition occurrences (x : Value) (values : list (option Value)) : nat :=
  length (List.filter (fun v => match v with
                           | Some y => Value_eqb x y
                           | None => false
                           end) values).

(** The simulation proper: everything but the widget variables and the
    status label. *)
Definition simulation (s : GUI) :=
  (nodes s, messages s, max_faulty s, total_nodes s, current_faulty s,
   sender_id s, current_round s, simulation_state s, sender_value s).

(** The node the click lands on, as [on_canvas_click] finds it. *)
Definition clicked (hit : nat -> bool) (s : GUI) : option (nat * Node) :=
  find (fun '(_, node) => hit (id node)) (enumerate (nodes s)).

Definition deliver_to (ns : list Node) (msg : Message) : list Node :=
  alter (fun n => set_message_log
                    (log_set (message_log n) (path msg) (value msg)) n)
        (to_node msg) ns.

Definition deliver (msgs : list Message) (ns : list Node) : list Node :=
  fold_left deliver_to msgs ns.

Definition decide_step (F sid : nat) (ns : list Node) (i : nat) : list Node :=
  match ns !! i with
  | Some node =>
      if negb (is_faulty node) then <[i := run_decision ns node F sid]> ns
      else ns
  | None => ns
  end.

Definition decide_nodes (F sid : nat) (ns : list Node) : list Node :=
  fold_left (decide_step F sid) (seq 0 (length ns)) ns.

(** What the closing loop does to one node. *)
Definition decide_one (F sid : nat) (ns : list Node) (node : Node) : Node :=
  if is_faulty node then node else run_decision ns node F sid.

(** [resolve_decision] as a function of what it reads: the ids of
    [app.nodes], the id of the deciding node and its message log. *)
Definition eligible (self_id : nat) (path : Path) (j : nat) : bool :=
  negb (j =? self_id) && negb (existsb (Nat.eqb j) path).

Fixpoint resolve (ids : list nat) (self_id : nat) (log : Log) (path : Path)
    (f : nat) : option Value :=
  match f with
  | 0 => log_get log path
  | S f' =>
      Some (get_majority
              (log_get log path
               :: flat_map
                    (fun j =>
                       if eligible self_id path j && log_mem log (path ++ [j])
                       then [resolve ids self_id log (path ++ [j]) f']
                       else [])
                    ids))
  end.

(** The messages of the two kinds of round, as functions of what the
    loops read. *)
Definition round1_msgs (ns : list Node) (sid : nat) (sv : Value)
    (sender : Node) : list Message :=
  flat_map
    (fun '(i, node) =>
       if id node =? id sender then []
       else [mkMessage sid i (get_faulty_value sender sv (id node)) [id sender]])
    (enumerate ns).

Definition relay_msgs (ns : list Node) (r : nat) : list Message :=
  flat_map
    (fun '(si, sender_node) =>
       flat_map
         (fun '(path, value) =>
            if length path =? r - 1 then
              flat_map
                (fun '(ri, receiver_node) =>
                   if eligible (id sender_node) path (id receiver_node)
                   then [mkMessage si ri
                           (get_faulty_value sender_node value (id receiver_node))
                           (path ++ [id sender_node])]
                   else [])
                (enumerate ns)
            else [])
         (entries (message_log sender_node)))
    (enumerate ns).

(** The messages a round sends, in the state it starts from, when the keys
    of the logs can be read back; [None] when the sender cannot be looked
    up. *)
Definition round_messages (s : GUI) : option (list Message) :=
  if current_round s + 1 =? 1 then
    match nodes s !! sender_id s with
    | None => None
    | Some sender =>
        Some (round1_msgs (nodes s) (sender_id s) (sender_value s) sender)
    end
  else if current_round s + 1 <=? max_faulty s + 1
       then Some (relay_msgs (nodes s) (current_round s + 1))
       else Some [].

(** The nodes after a round that sent [msgs]. *)
Definition round_nodes (s : GUI) (msgs : list Message) : list Node :=
  let ns := deliver msgs (nodes s) in
  if max_faulty s <? current_round s + 1
  then map (decide_one (max_faulty s) (sender_id s) ns) ns
  else ns.

Definition round_phase (s : GUI) : Phase :=
  if max_faulty s <? current_round s + 1 then finished else running.

(** A path in the log of, or in a message to, the node at position
    [owner]: no id twice, the owner not on it, the sender's id first. *)
Definition path_ok (sid owner : nat) (p : Path) : Prop :=
  List.NoDup p /\ ~ In owner p /\ hd_error p = Some sid.

Definition message_ok (sid r : nat) (m : Message) : Prop :=
  length (path m) = r /\ path_ok sid (to_node m) (path m).

Record Inv (s : GUI) : Prop := {
  inv_ids : forall i node, nodes s !! i = Some node -> id node = i;
  inv_logs : forall i node p v,
    nodes s !! i = Some node ->
    In (p, v) (entries (message_log node)) ->
    path_ok (sender_id s) i p /\ length p <= current_round s;
  inv_messages : forall m,
    In m (messages s) -> message_ok (sender_id s) (current_round s) m;
  inv_sender_id : sender_id s = 0;
  inv_is_sender : forall i node,
    nodes s !! i = Some node -> is_sender node = (i =? 0);
  inv_sender_honest : forall node,
    nodes s !! 0 = Some node -> is_faulty node = false;
  inv_max_faulty : max_faulty s = f_var s /\ In (f_var s) f_combo_values;
  inv_round_bound : forall m,
    In m (messages s) -> current_round s <= max_faulty s + 1;
  inv_ready :
    simulation_state s = ready ->
    current_round s = 0
    /\ messages s = []
    /\ forall i node,
         nodes s !! i = Some node ->
         message_log node = [] /\ final_decision node = None;
  inv_finished :
    simulation_state s = finished ->
    forall node,
      In node (nodes s) ->
      is_faulty node = false ->
      final_decision node
      = resolve_decision (nodes s) node [sender_id s] (max_faulty s);
  inv_delivered : forall m,
    In m (messages s) ->
    exists recipient,
      nodes s !! to_node m = Some recipient
      /\ log_mem (message_log recipient) (path m) = true;
  inv_keys : keys_ok_nodes (nodes s)
}.

(** The nodes [setup_simulation] creates. *)
Definition fresh_nodes (n sid : nat) : list Node :=
  <[sid := set_is_sender true (new_Node sid)]> (map new_Node (seq 0 n)).

(** The object when [setup_simulation] has passed the validation and
    created the nodes. *)
Definition configured (s : GUI) (n_input : Z) : GUI :=
  with_nodes (map new_Node (seq 0 (Z.to_nat n_input)))
    (with_simulation_state ready
       (with_current_faulty 0%Z
          (with_current_round 0
             (with_messages []
                (with_nodes []
                   (with_sender_value (sender_value_var s)
                      (with_total_nodes n_input
                         (with_max_faulty (f_var s) s)))))))).

(** [k] presses of "Next Round", whatever becomes of them. *)
Definition presses (k : nat) (s : GUI) : GUI :=
  Nat.iter k (fun s => step s ClickNext) s.

(** The ids of the faulty nodes, in the order of the list of nodes. *)
Definition faulty_ids (s : GUI) : list nat :=
  map id (List.filter is_faulty (nodes s)).

(** Two objects with the same simulation data, apart from the widgets,
    the label and the two counters kept for display. *)
Definition agree (s1 s2 : GUI) : Prop :=
  nodes s1 = nodes s2
  /\ messages s1 = messages s2
  /\ max_faulty s1 = max_faulty s2
  /\ sender_id s1 = sender_id s2
  /\ sender_value s1 = sender_value s2
  /\ current_round s1 = current_round s2
  /\ simulation_state s1 = simulation_state s2.

(** The messages of [msgs] that go to the node at position [q] with the
    path [p]. *)
Definition addressed (q : nat) (p : Path) (m : Message) : bool :=
  (to_node m =? q) && Path_eqb (path m) p.

(** The value a node with the faulty flag [fl j] passes on to [q]. *)
Definition transmit (fl : nat -> bool) (j : nat) (v : Value) (q : nat) : Value :=
  if fl j then (if q mod 2 =? 0 then Attack else Retreat) else v.

(** The value that reaches [q] along a path, given last relayer first:
    the sender's value handed from node to node. *)
Fixpoint held (fl : nat -> bool) (sv : Value) (rp : list nat) (q : nat) : Value :=
  match rp with
  | [] => sv
  | j :: rp' => transmit fl j (held fl sv rp' j) q
  end.

(** The paths a node [q] of [n] nodes can receive. *)
Definition valid (n sid q : nat) (p : Path) : Prop :=
  path_ok sid q p /\ Forall (fun x => x < n) p.

(** The logs after [r] rounds: every node holds, for every path of length
    up to [r] it can receive, the value handed along that path, and
    nothing else. *)
Record Logs (n sid : nat) (sv : Value) (fl : nat -> bool) (r : nat)
    (ns : list Node) : Prop := {
  logs_length : length ns = n;
  logs_ids : forall i node,
    ns !! i = Some node -> id node = i /\ is_faulty node = fl i;
  logs_keys : forall i node,
    ns !! i = Some node -> List.NoDup (map fst (message_log node));
  logs_sound : forall i node p v,
    ns !! i = Some node ->
    In (p, v) (entries (message_log node)) ->
    valid n sid i p /\ length p <= r;
  logs_complete : forall i node p,
    ns !! i = Some node ->
    valid n sid i p ->
    length p <= r ->
    log_get (message_log node) p = Some (held fl sv (rev p) i);
  logs_canon : keys_ok_nodes ns
}.

(** The faulty flag of the node at a position. *)
Definition faulty_at (ns : list Node) (i : nat) : bool :=
  match ns !! i with Some node => is_faulty node | None => false end.

(** What the window keeps of an accepted configuration: there are at
    least 3F+1 nodes, and while the phase is [ready] the counter
    [current_faulty] is the number of faulty nodes, at most F. *)
Definition Quota (s : GUI) : Prop :=
  (nodes s = [] \/ 3 * max_faulty s + 1 <= length (nodes s))
  /\ (simulation_state s = ready ->
      nodes s = []
      \/ (current_faulty s
          = Z.of_nat (length (List.filter is_faulty (nodes s)))
          /\ length (List.filter is_faulty (nodes s)) <= max_faulty s)).

(** * Properties *)

(** ** The textual keys of the log *)

Lemma split_without sep x : occurs sep x = false -> split sep x = [x].
Proof.
  induction x as [|a x IH]; cbn [occurs split]; [reflexivity|].
  intros H. apply orb_false_iff in H as [Ha Hx].
  now rewrite Ha, (IH Hx).
Qed.

Lemma split_append sep x y :
  occurs sep x = false ->
  split sep (String.append x (String sep y)) = x :: split sep y.
Proof.
  induction x as [|a x IH]; simpl.
  - intros _. now rewrite Ascii.eqb_refl.
  - intros H. apply orb_false_iff in H as [Ha Hx].
    now rewrite Ha, (IH Hx).
Qed.

Lemma split_concat sep l :
  l <> [] ->
  Forall (fun x => occurs sep x = false) l ->
  split sep (String.concat (String sep EmptyString) l) = l.
Proof.
  induction l as [|x l IH]; [easy|]. intros _ Hall.
  inversion Hall as [|? ? Hx Hl]; subst.
  destruct l as [|y l].
  - simpl. now apply split_without.
  - change (String.concat (String sep EmptyString) (x :: y :: l))
      with (String.append x
              (String sep (String.concat (String sep EmptyString) (y :: l)))).
    rewrite split_append by exact Hx.
    f_equal. now apply IH.
Qed.

Lemma str_no_dash i : occurs "-"%char (str i) = false.
Proof.
  unfold str. generalize (Nat.to_uint i) as d. intros d.
  assert (H : occurs "-"%char (NilEmpty.string_of_uint d) = false).
  { induction d; cbn; auto. }
  destruct d; exact H.
Qed.

Lemma int_str i : int (str i) = Some i.
Proof.
  unfold int, str. pose proof (Unsigned.of_to i) as Hi.
  destruct (Nat.to_uint i) eqn:E.
  1: cbn in *; now rewrite <- Hi.
  all: rewrite NilZero.usu by discriminate; cbn [option_map]; now rewrite Hi.
Qed.

Lemma ints_map_str p : ints (map str p) = Some p.
Proof.
  induction p as [|i p IH]; [reflexivity|].
  cbn [map ints]. now rewrite int_str, IH.
Qed.

(** Reading back the key written for a path gives the path: the keys of
    the log and the id lists correspond one to one. *)
Lemma parse_ids_join_ids p : p <> [] -> parse_ids (join_ids p) = Some p.
Proof.
  intros Hp. unfold parse_ids, join_ids.
  rewrite split_concat.
  - apply ints_map_str.
  - now destruct p.
  - apply List.Forall_forall. intros x Hx.
    apply in_map_iff in Hx as (i & <- & _). apply str_no_dash.
Qed.

Lemma str_not_empty i : str i <> EmptyString.
Proof. unfold str. now destruct (Nat.to_uint i). Qed.

Lemma join_ids_not_empty p : p <> [] -> join_ids p <> EmptyString.
Proof.
  destruct p as [|i p]; [easy|]. intros _. unfold join_ids. cbn [map].
  pose proof (str_not_empty i) as Hi.
  destruct (map str p); cbn [String.concat]; [exact Hi|].
  destruct (str i); [easy|discriminate].
Qed.

Lemma join_ids_inj p q : join_ids p = join_ids q -> p = q.
Proof.
  intros E.
  destruct (decide (p = [])) as [->|Hp]; destruct (decide (q = [])) as [->|Hq].
  - reflexivity.
  - exfalso. now apply (join_ids_not_empty q Hq).
  - exfalso. now apply (join_ids_not_empty p Hp).
  - apply parse_ids_join_ids in Hp, Hq. rewrite E in Hp. congruence.
Qed.

Lemma join_ids_eqb p q : String.eqb (join_ids p) (join_ids q) = Path_eqb p q.
Proof.
  unfold Path_eqb. destruct (String.eqb_spec (join_ids p) (join_ids q)) as [E|E].
  - apply join_ids_inj in E. symmetry. now apply bool_decide_eq_true.
  - symmetry. apply bool_decide_eq_false. intros ->. now apply E.
Qed.

(** ** Lists with positions *)

Lemma in_combine_seq {A} (l : list A) a i x :
  In (i, x) (combine (seq a (length l)) l) <-> a <= i /\ l !! (i - a) = Some x.
Proof.
  revert a. induction l as [|y l IH]; intros a; cbn [length seq combine In].
  - split; [easy|]. intros [_ H]. discriminate.
  - rewrite IH. split.
    + intros [E|[Hle Hl]].
      * injection E as <- <-. split; [lia|]. now rewrite Nat.sub_diag.
      * split; [lia|]. replace (i - a) with (S (i - S a)) by lia. exact Hl.
    + intros [Hle Hl]. destruct (Nat.eq_dec a i) as [<-|Hne].
      * left. rewrite Nat.sub_diag in Hl. cbn in Hl. congruence.
      * right. split; [lia|].
        replace (i - a) with (S (i - S a)) in Hl by lia. exact Hl.
Qed.

Lemma in_enumerate {A} (l : list A) i x :
  In (i, x) (enumerate l) <-> l !! i = Some x.
Proof.
  unfold enumerate. rewrite in_combine_seq, Nat.sub_0_r.
  split; [now intros [_ H]|]. intros H. split; [lia|exact H].
Qed.

Lemma find_enumerate {A} (c : nat * A -> bool) (l : list A) i x :
  find c (enumerate l) = Some (i, x) -> l !! i = Some x /\ c (i, x) = true.
Proof.
  intros H. apply find_some in H as [Hin Hc]. now apply in_enumerate in Hin.
Qed.

Lemma lookup_map {A B} (f : A -> B) (l : list A) i :
  map f l !! i = f <$> l !! i.
Proof. exact (list_lookup_fmap f l i). Qed.

(** ** get_majority *)

Lemma count_votes_acc values a r :
  fold_left
    (fun counts v =>
       match v with
       | Some Attack => (S (fst counts), snd counts)
       | Some Retreat => (fst counts, S (snd counts))
       | None => counts
       end)
    values (a, r)
  = (a + occurrences Attack values, r + occurrences Retreat values).
Proof.
  revert a r. induction values as [|[[|]|] values IH]; intros a r; simpl.
  - unfold occurrences. simpl. f_equal; lia.
  - rewrite IH. unfold occurrences. simpl. f_equal; lia.
  - rewrite IH. unfold occurrences. simpl. f_equal; lia.
  - rewrite IH. reflexivity.
Qed.

Lemma count_votes_occurrences values :
  count_votes values = (occurrences Attack values, occurrences Retreat values).
Proof. unfold count_votes. now rewrite count_votes_acc. Qed.

Lemma occurrences_total values :
  occurrences Attack values + occurrences Retreat values <= length values.
Proof.
  unfold occurrences.
  induction values as [|[[|]|] values IH]; simpl in *; lia.
Qed.

Lemma get_majority_Attack values :
  get_majority values = Attack <-> length values < 2 * occurrences Attack values.
Proof.
  unfold get_majority. rewrite count_votes_occurrences. simpl fst.
  destruct (Nat.ltb_spec (length values) (2 * occurrences Attack values));
    split; intros; try easy; lia.
Qed.

Lemma get_majority_Retreat values :
  get_majority values = Retreat <-> 2 * occurrences Attack values <= length values.
Proof.
  unfold get_majority. rewrite count_votes_occurrences. simpl fst.
  destruct (Nat.ltb_spec (length values) (2 * occurrences Attack values));
    split; intros; try easy; lia.
Qed.

(** C3.  [get_majority] returns the value whose number of occurrences is
    more than half of the length of the sequence, and ['Retreat'] when
    neither value has such a strict majority: on a tie, on entries that are
    no value, and on the empty sequence.  The three sample calls of the
    specification come out as stated. *)
Theorem C3_get_majority_contract :
  (forall values x,
      length values < 2 * occurrences x values -> get_majority values = x)
  /\ (forall values,
         2 * occurrences Attack values <= length values ->
         2 * occurrences Retreat values <= length values ->
         get_majority values = Retreat)
  /\ get_majority [] = Retreat
  /\ get_majority [Some Attack; Some Attack; Some Retreat] = Attack
  /\ get_majority [Some Attack; Some Retreat] = Retreat.
Proof.
  split; [|split; [|repeat split]].
  - intros values [|] H.
    + now apply get_majority_Attack.
    + apply get_majority_Retreat.
      pose proof (occurrences_total values). lia.
  - intros values HA _. now apply get_majority_Retreat.
Qed.

(** ** get_faulty_value *)

(** C6.  A node that is not faulty hands on the value it was given.  A
    faulty node sends a value fixed by the recipient's id alone: ['Attack']
    to even ids and ['Retreat'] to odd ids, whatever the value it was
    given, so consecutive recipients get opposite values. *)
Theorem C6_get_faulty_value_contract :
  forall (self : Node) (original_value : Value) (target_node_id : nat),
    get_faulty_value self original_value target_node_id
    = (if is_faulty self
       then if Nat.even target_node_id then Attack else Retreat
       else original_value)
    /\ (is_faulty self = true ->
        forall other_value,
          get_faulty_value self other_value target_node_id
          = get_faulty_value self original_value target_node_id)
    /\ (is_faulty self = true ->
        get_faulty_value self original_value (S target_node_id)
        <> get_faulty_value self original_value target_node_id).
Proof.
  intros self v t. unfold get_faulty_value.
  assert (Hpar : forall k, (k mod 2 =? 0) = Nat.even k).
  { intros k.
    destruct (Nat.even k) eqn:E.
    - apply Nat.even_spec in E. destruct E as [m ->].
      apply Nat.eqb_eq. rewrite Nat.mul_comm. apply Nat.Div0.mod_mul.
    - apply Nat.eqb_neq. intros Hm.
      assert (Nat.even k = true); [|congruence].
      apply Nat.even_spec. exists (k / 2).
      pose proof (Nat.div_mod_eq k 2). lia. }
  rewrite !Hpar, Nat.even_succ, <- Nat.negb_even.
  destruct (is_faulty self); cbn [negb].
  - split; [reflexivity|]. split; [reflexivity|].
    intros _. destruct (Nat.even t); discriminate.
  - split; [reflexivity|]. split; discriminate.
Qed.

(** ** setup_simulation *)

Lemma setup_simulation_too_small s n_input :
  n_var s = Some n_input ->
  (n_input < Z.of_nat (3 * f_var s + 1))%Z ->
  setup_simulation s
  = Returned
      (with_messages [] (with_nodes []
         (with_sim_state_label (LErrorMin (Z.of_nat (3 * f_var s + 1)))
            (with_max_faulty (f_var s) s)))).
Proof.
  intros Hn Hlt. unfold setup_simulation. cbn [n_var with_max_faulty max_faulty].
  rewrite Hn. apply Z.ltb_lt in Hlt. now rewrite Hlt.
Qed.

Lemma setup_simulation_not_a_number s :
  n_var s = None ->
  setup_simulation s
  = Returned
      (with_messages [] (with_nodes []
         (with_sim_state_label LErrorNumber (with_max_faulty (f_var s) s)))).
Proof.
  intros Hn. unfold setup_simulation. cbn [n_var with_max_faulty]. now rewrite Hn.
Qed.

(** ** Operations that are turned down *)

Lemma update_ui_state_simulation s :
  simulation (update_ui_state s) = simulation s.
Proof. unfold update_ui_state. now destruct (is_error (sim_state_label s)). Qed.

(** Counterexample to C7 as stated: in the window as it opens, typing 3
    into the N entry and pressing "Setup / Reset" is turned down with the
    error text for the minimum 4, and the four nodes are gone. *)
Lemma C7_rejected_setup_discards_nodes :
  let s := step initial (TypeN (Some 3%Z)) in
  exists s',
    setup_simulation s = Returned s'
    /\ sim_state_label s' = LErrorMin 4
    /\ length (nodes s) = 4
    /\ nodes s' = []
    /\ simulation s' <> simulation s.
Proof.
  eexists. split; [reflexivity|]. repeat split. discriminate.
Qed.

(** C7, amended.  A click on the canvas outside the ready phase, a click on
    the sender, and a press of "Next Round" in a phase other than ready and
    running leave the whole object as it was; a click on a node that would
    exceed the quota of faulty nodes leaves the simulation as it was.  A
    configuration that fails the validation leaves the phase, the round
    counter and the count of faulty nodes as they were, but it empties the
    list of nodes (and with it every message log) and the list of
    messages. *)
Theorem C7_rejected_operations :
  (forall hit s, simulation_state s <> ready -> on_canvas_click hit s = s)
  /\ (forall hit s i node,
         simulation_state s = ready ->
         clicked hit s = Some (i, node) ->
         is_sender node = true ->
         on_canvas_click hit s = s)
  /\ (forall hit s i node,
         simulation_state s = ready ->
         clicked hit s = Some (i, node) ->
         is_sender node = false ->
         is_faulty node = false ->
         (Z.of_nat (max_faulty s) <= current_faulty s)%Z ->
         simulation (on_canvas_click hit s) = simulation s)
  /\ (forall s,
         simulation_state s = finished \/ simulation_state s = setup ->
         run_next_round s = Returned s)
  /\ (forall s,
         (n_var s = None
          \/ exists n_input,
               n_var s = Some n_input
               /\ (n_input < Z.of_nat (3 * f_var s + 1))%Z) ->
         exists s',
           setup_simulation s = Returned s'
           /\ is_error (sim_state_label s') = true
           /\ simulation_state s' = simulation_state s
           /\ current_round s' = current_round s
           /\ current_faulty s' = current_faulty s
           /\ nodes s' = []
           /\ messages s' = []).
Proof.
  split; [|split; [|split; [|split]]].
  - intros hit s Hph. unfold on_canvas_click.
    now destruct (simulation_state s).
  - intros hit s i node Hph Hc Hs. unfold on_canvas_click.
    rewrite Hph. fold (clicked hit s). now rewrite Hc, Hs.
  - intros hit s i node Hph Hc Hs Hf Hq. unfold on_canvas_click.
    rewrite Hph. fold (clicked hit s). rewrite Hc, Hs, Hf.
    apply Z.ltb_ge in Hq. rewrite Hq. apply update_ui_state_simulation.
  - intros s [Hph|Hph]; unfold run_next_round; now rewrite Hph.
  - intros s [Hn|[n_input [Hn Hlt]]]; eexists.
    + split; [now apply setup_simulation_not_a_number|]. now repeat split.
    + split; [now apply setup_simulation_too_small with (n_input := n_input)|].
      now repeat split.
Qed.

Lemma C7_rejected_operations_witness :
  on_canvas_click (Nat.eqb 1) (step (step initial ClickNext) ClickNext)
  = step (step initial ClickNext) ClickNext
  /\ on_canvas_click (Nat.eqb 0) initial = initial
  /\ simulation
       (on_canvas_click (Nat.eqb 2) (step initial (ClickCanvas (Nat.eqb 1))))
     = simulation (step initial (ClickCanvas (Nat.eqb 1)))
  /\ run_next_round (step (step initial ClickNext) ClickNext)
     = Returned (step (step initial ClickNext) ClickNext)
  /\ exists s',
       setup_simulation (step initial (TypeN None)) = Returned s'
       /\ is_error (sim_state_label s') = true
       /\ simulation_state s' = ready
       /\ nodes s' = [].
Proof.
  destruct C7_rejected_operations as (Hphase & Hsender & Hquota & Hnext & Hsetup).
  split; [|split; [|split; [|split]]].
  - apply Hphase. vm_compute. discriminate.
  - apply (Hsender _ _ 0 (mkNode 0 true false [] None)); reflexivity.
  - apply (Hquota _ _ 2 (mkNode 2 false false [] None)); try reflexivity;
      vm_compute; discriminate.
  - apply Hnext. left. vm_compute. reflexivity.
  - destruct (Hsetup (step initial (TypeN None)) (or_introl eq_refl))
      as (s' & E & Hl & Hp & _ & _ & Hn & _).
    exists s'. repeat split; assumption.
Defined.

(** ** The loops of run_next_round, on the list of nodes alone *)

Lemma with_nodes_same s : with_nodes (nodes s) s = s.
Proof. now destruct s. Qed.

Lemma deliver_messages_nodes s :
  deliver_messages s = with_nodes (deliver (messages s) (nodes s)) s.
Proof.
  unfold deliver_messages, deliver. generalize (messages s) as msgs.
  intros msgs. revert s.
  induction msgs as [|m msgs IH]; intros s; simpl.
  - now rewrite with_nodes_same.
  - rewrite IH. reflexivity.
Qed.

Lemma decide_all_nodes s :
  decide_all s
  = with_nodes (decide_nodes (max_faulty s) (sender_id s) (nodes s)) s.
Proof.
  unfold decide_all, decide_nodes. generalize (seq 0 (length (nodes s))) as l.
  intros l. revert s.
  induction l as [|i l IH]; intros s; simpl.
  - now rewrite with_nodes_same.
  - unfold decide_step at 2.
    destruct (nodes s !! i) as [node|]; [|apply IH].
    destruct (negb (is_faulty node)); [|apply IH].
    rewrite IH. reflexivity.
Qed.

Lemma fold_left_pointwise {A B} (f g : A -> B -> A) l a :
  (forall a x, f a x = g a x) -> fold_left f l a = fold_left g l a.
Proof.
  intros E. revert a. induction l as [|x l IH]; intros a; simpl; [reflexivity|].
  now rewrite E, IH.
Qed.

Lemma fold_left_collect {A B} (c : A -> bool) (g : A -> B) l acc :
  fold_left (fun acc x => if c x then acc ++ [g x] else acc) l acc
  = acc ++ flat_map (fun x => if c x then [g x] else []) l.
Proof.
  revert acc. induction l as [|x l IH]; intros acc; simpl.
  - now rewrite app_nil_r.
  - rewrite IH. destruct (c x); simpl; [now rewrite <- app_assoc|reflexivity].
Qed.

Lemma flat_map_through_map {A B C} (f : B -> list C) (h : A -> B) l :
  flat_map f (map h l) = flat_map (fun x => f (h x)) l.
Proof. induction l as [|x l IH]; simpl; [reflexivity|now rewrite IH]. Qed.

Lemma resolve_decision_resolve ns self p f :
  resolve_decision ns self p f
  = resolve (map id ns) (id self) (message_log self) p f.
Proof.
  revert p. induction f as [|f IH]; intros p; [reflexivity|].
  cbn [resolve_decision resolve]. do 2 f_equal.
  rewrite flat_map_through_map.
  rewrite (fold_left_pointwise _
             (fun acc node =>
                if eligible (id self) p (id node)
                   && log_mem (message_log self) (p ++ [id node])
                then acc ++ [resolve (map id ns) (id self) (message_log self)
                               (p ++ [id node]) f]
                else acc)).
  - now rewrite fold_left_collect.
  - intros acc node. unfold eligible.
    destruct (negb (id node =? id self)
              && negb (existsb (Nat.eqb (id node)) p)); simpl; [|reflexivity].
    now rewrite IH.
Qed.

Lemma deliver_to_ids ns msg : map id (deliver_to ns msg) = map id ns.
Proof.
  unfold deliver_to. revert ns. generalize (to_node msg) as i.
  induction i as [|i IH]; intros [|n ns]; cbn; try reflexivity.
  f_equal. apply IH.
Qed.

Lemma deliver_ids msgs ns : map id (deliver msgs ns) = map id ns.
Proof.
  unfold deliver. revert ns.
  induction msgs as [|m msgs IH]; intros ns; simpl; [reflexivity|].
  now rewrite IH, deliver_to_ids.
Qed.

Lemma deliver_length msgs ns : length (deliver msgs ns) = length ns.
Proof. now rewrite <- (length_map id), deliver_ids, length_map. Qed.

Lemma resolve_decision_ids ns ns' self p f :
  map id ns = map id ns' ->
  resolve_decision ns self p f = resolve_decision ns' self p f.
Proof. intros E. now rewrite !resolve_decision_resolve, E. Qed.

Lemma decide_one_id F sid ns node : id (decide_one F sid ns node) = id node.
Proof. unfold decide_one. now destruct (is_faulty node). Qed.

Lemma decide_one_message_log F sid ns node :
  message_log (decide_one F sid ns node) = message_log node.
Proof. unfold decide_one. now destruct (is_faulty node). Qed.

Lemma decide_one_is_faulty F sid ns node :
  is_faulty (decide_one F sid ns node) = is_faulty node.
Proof. unfold decide_one. now destruct (is_faulty node) eqn:E. Qed.

Lemma decide_one_is_sender F sid ns node :
  is_sender (decide_one F sid ns node) = is_sender node.
Proof. unfold decide_one. now destruct (is_faulty node). Qed.

Lemma map_decide_one_ids F sid ns l :
  map id (map (decide_one F sid ns) l) = map id l.
Proof.
  rewrite map_map. apply map_ext. intros node. apply decide_one_id.
Qed.

Lemma decide_nodes_prefix F sid ns n :
  n <= length ns ->
  fold_left (decide_step F sid) (seq 0 n) ns
  = map (decide_one F sid ns) (take n ns) ++ drop n ns.
Proof.
  induction n as [|n IH]; intros Hn; [reflexivity|].
  rewrite seq_S, fold_left_app, IH by lia. cbn [fold_left Nat.add].
  destruct (lookup_lt_is_Some_2 ns n) as [node Hnode]; [lia|].
  rewrite (take_S_r _ _ _ Hnode), (drop_S _ _ _ Hnode), map_app.
  rewrite <- app_assoc. cbn [map app].
  set (pre := map (decide_one F sid ns) (take n ns)).
  assert (Hpre : length pre = n).
  { unfold pre. rewrite length_map, length_take. lia. }
  unfold decide_step.
  rewrite list_lookup_middle by (symmetry; exact Hpre).
  assert (Hids : map id (pre ++ node :: drop (S n) ns) = map id ns).
  { unfold pre. rewrite map_app, map_decide_one_ids, <- map_app.
    now rewrite <- (drop_S _ _ _ Hnode), take_drop. }
  unfold decide_one, run_decision.
  destruct (is_faulty node); cbn [negb]; [reflexivity|].
  rewrite insert_app_r_alt by lia. rewrite Hpre, Nat.sub_diag. cbn.
  now rewrite (resolve_decision_ids _ ns) by exact Hids.
Qed.

Lemma decide_nodes_map F sid ns :
  decide_nodes F sid ns = map (decide_one F sid ns) ns.
Proof.
  unfold decide_nodes. rewrite decide_nodes_prefix by lia.
  rewrite take_ge, drop_ge by lia. apply app_nil_r.
Qed.

(** ** One press of "Next Round" *)

Lemma finish_round_eq s :
  finish_round s
  = Returned
      (update_ui_state
         (let ns := deliver (messages s) (nodes s) in
          if max_faulty s <? current_round s
          then with_nodes (map (decide_one (max_faulty s) (sender_id s) ns) ns)
                 (with_simulation_state finished (with_nodes ns s))
          else with_nodes ns s)).
Proof.
  unfold finish_round. rewrite deliver_messages_nodes.
  cbn [with_nodes max_faulty current_round].
  destruct (max_faulty s <? current_round s); [|reflexivity].
  rewrite decide_all_nodes.
  cbn [with_simulation_state with_nodes max_faulty sender_id nodes].
  now rewrite decide_nodes_map.
Qed.

Lemma finish_round_fields s :
  exists s',
    finish_round s = Returned s'
    /\ nodes s'
       = (let ns := deliver (messages s) (nodes s) in
          if max_faulty s <? current_round s
          then map (decide_one (max_faulty s) (sender_id s) ns) ns
          else ns)
    /\ simulation_state s'
       = (if max_faulty s <? current_round s then finished
          else simulation_state s)
    /\ messages s' = messages s
    /\ current_round s' = current_round s
    /\ max_faulty s' = max_faulty s
    /\ sender_id s' = sender_id s
    /\ sender_value s' = sender_value s
    /\ current_faulty s' = current_faulty s
    /\ total_nodes s' = total_nodes s
    /\ f_var s' = f_var s
    /\ n_var s' = n_var s
    /\ sender_value_var s' = sender_value_var s
    /\ is_error (sim_state_label s') = is_error (sim_state_label s).
Proof.
  rewrite finish_round_eq. eexists. split; [reflexivity|].
  cbv zeta. unfold update_ui_state.
  destruct (max_faulty s <? current_round s);
    cbn [with_nodes with_simulation_state sim_state_label];
    destruct (is_error (sim_state_label s)) eqn:E; cbn; now rewrite ?E.
Qed.

Lemma keys_ok_parse l path_str v :
  keys_ok l -> In (path_str, v) l ->
  exists p, p <> [] /\ path_str = join_ids p /\ parse_ids path_str = Some p.
Proof.
  intros Hk Hin. destruct (Hk path_str v Hin) as (p & Hp & ->).
  exists p. repeat split; [exact Hp|now apply parse_ids_join_ids].
Qed.

Lemma relay_items_parsed ns r si sender_node items acc :
  keys_ok items ->
  relay_items ns r si sender_node items acc
  = (acc ++ flat_map
              (fun '(path, value) =>
                 if length path =? r - 1
                 then relay_value ns si sender_node path value
                 else [])
              (entries items),
     true).
Proof.
  revert acc. induction items as [|[path_str v] items IH]; intros acc Hk.
  - cbn. now rewrite app_nil_r.
  - destruct (keys_ok_parse _ path_str v Hk (or_introl eq_refl))
      as (p & _ & _ & Hparse).
    cbn [relay_items entries flat_map]. rewrite Hparse.
    rewrite IH by (intros k x Hin; apply (Hk k x); now right).
    cbn [app flat_map].
    destruct (length p =? r - 1); [now rewrite <- app_assoc|reflexivity].
Qed.

Lemma relay_nodes_parsed ns r senders acc :
  (forall si sender_node,
      In (si, sender_node) senders -> keys_ok (message_log sender_node)) ->
  relay_nodes ns r senders acc
  = (acc ++ flat_map
              (fun '(si, sender_node) =>
                 flat_map
                   (fun '(path, value) =>
                      if length path =? r - 1
                      then relay_value ns si sender_node path value
                      else [])
                   (entries (message_log sender_node)))
              senders,
     true).
Proof.
  revert acc. induction senders as [|[si sender_node] senders IH];
    intros acc Hk.
  - cbn. now rewrite app_nil_r.
  - cbn [relay_nodes flat_map].
    rewrite relay_items_parsed by (apply (Hk si); now left).
    rewrite IH by (intros si' node' Hin; apply (Hk si'); now right).
    now rewrite <- app_assoc.
Qed.

Lemma relay_messages_parsed s :
  keys_ok_nodes (nodes s) ->
  relay_messages s = (relay_msgs (nodes s) (current_round s), true).
Proof.
  intros Hk. unfold relay_messages.
  rewrite relay_nodes_parsed; [reflexivity|].
  intros si sender_node Hin. apply in_enumerate in Hin. now apply (Hk si).
Qed.

Lemma run_round_eq s :
  keys_ok_nodes (nodes s) ->
  run_round s
  = match round_messages s with
    | Some msgs =>
        finish_round
          (with_messages msgs
             (with_messages [] (with_current_round (current_round s + 1) s)))
    | None =>
        Raised (with_messages [] (with_current_round (current_round s + 1) s))
    end.
Proof.
  intros Hk. unfold run_round, round_messages.
  cbn [with_messages with_current_round current_round nodes sender_id
       max_faulty].
  destruct (current_round s + 1 =? 1).
  - destruct (nodes s !! sender_id s); reflexivity.
  - destruct (current_round s + 1 <=? max_faulty s + 1).
    + now rewrite relay_messages_parsed.
    + now destruct s.
Qed.

Lemma run_next_round_fields s msgs :
  keys_ok_nodes (nodes s) ->
  simulation_state s = ready \/ simulation_state s = running ->
  round_messages s = Some msgs ->
  exists s',
    run_next_round s = Returned s'
    /\ nodes s' = round_nodes s msgs
    /\ simulation_state s' = round_phase s
    /\ messages s' = msgs
    /\ current_round s' = current_round s + 1
    /\ max_faulty s' = max_faulty s
    /\ sender_id s' = sender_id s
    /\ sender_value s' = sender_value s
    /\ current_faulty s' = current_faulty s
    /\ total_nodes s' = total_nodes s
    /\ f_var s' = f_var s
    /\ n_var s' = n_var s
    /\ sender_value_var s' = sender_value_var s
    /\ is_error (sim_state_label s') = is_error (sim_state_label s).
Proof.
  intros Hk Hph Hmsgs.
  assert (E : run_next_round s = run_round (with_simulation_state running s)).
  { unfold run_next_round. destruct Hph as [-> | Hr]; [reflexivity|].
    rewrite Hr. f_equal. destruct s. cbn in Hr. now subst. }
  rewrite E, run_round_eq by exact Hk.
  change (round_messages (with_simulation_state running s))
    with (round_messages s).
  rewrite Hmsgs.
  destruct (finish_round_fields
              (with_messages msgs
                 (with_messages []
                    (with_current_round
                       (current_round (with_simulation_state running s) + 1)
                       (with_simulation_state running s)))))
    as (s' & -> & Hn & Hp & Hm & Hr & Hf & Hs & Hv & Hc & Ht & H1 & H2 & H3 & H4).
  exists s'. split; [reflexivity|].
  cbn in Hn, Hp, Hm, Hr, Hf, Hs, Hv, Hc, Ht, H1, H2, H3, H4.
  unfold round_nodes, round_phase. now repeat split.
Qed.

Lemma run_next_round_raises s :
  keys_ok_nodes (nodes s) ->
  simulation_state s = ready \/ simulation_state s = running ->
  round_messages s = None ->
  run_next_round s
  = Raised (with_messages []
              (with_current_round (current_round s + 1)
                 (with_simulation_state running s))).
Proof.
  intros Hk Hph Hmsgs.
  assert (E : run_next_round s = run_round (with_simulation_state running s)).
  { unfold run_next_round. destruct Hph as [-> | Hr]; [reflexivity|].
    rewrite Hr. f_equal. destruct s. cbn in Hr. now subst. }
  rewrite E, run_round_eq by exact Hk.
  change (round_messages (with_simulation_state running s))
    with (round_messages s).
  now rewrite Hmsgs.
Qed.

(** ** The dict of a log *)

Lemma dict_get_dict_set d k v key :
  dict_get (dict_set d k v) key
  = if String.eqb k key then Some v else dict_get d key.
Proof.
  induction d as [|[k' v'] d IH]; cbn [dict_set dict_get]; [reflexivity|].
  destruct (String.eqb_spec k' k) as [->|Hk]; cbn [dict_get].
  - now destruct (String.eqb k key).
  - destruct (String.eqb_spec k' key) as [->|Hkey]; [|exact IH].
    destruct (String.eqb_spec k key) as [->|_]; [easy|reflexivity].
Qed.

Lemma in_dict_set d k v key x :
  In (key, x) (dict_set d k v) -> In (key, x) d \/ (key = k /\ x = v).
Proof.
  induction d as [|[k' v'] d IH]; cbn [dict_set In].
  - intros [E|[]]. right. now injection E as <- <-.
  - destruct (String.eqb_spec k' k) as [->|Hk]; cbn [In].
    + intros [E|H]; [right; now injection E as <- <-|left; now right].
    + intros [E|H]; [left; now left|].
      destruct (IH H) as [H'|H']; [left; now right|now right].
Qed.

Lemma dict_get_In d key v : dict_get d key = Some v -> In (key, v) d.
Proof.
  induction d as [|[k' v'] d IH]; cbn [dict_get]; [discriminate|].
  destruct (String.eqb_spec k' key) as [->|Hk].
  - intros [= ->]. now left.
  - intros H. right. now apply IH.
Qed.

Lemma In_dict_get d key v :
  List.NoDup (map fst d) -> In (key, v) d -> dict_get d key = Some v.
Proof.
  induction d as [|[k' v'] d IH]; cbn [map fst dict_get]; [easy|].
  intros Hnd [E|Hin].
  - injection E as -> ->. now rewrite String.eqb_refl.
  - inversion Hnd as [|? ? Hnot Hnd']; subst.
    destruct (String.eqb_spec k' key) as [->|Hk]; [|now apply IH].
    exfalso. apply Hnot. apply in_map_iff. now exists (key, v).
Qed.

Lemma NoDup_snoc {A} (p : list A) x :
  List.NoDup p -> ~ In x p -> List.NoDup (p ++ [x]).
Proof.
  induction 1 as [|y p Hy Hp IH]; intros Hx; cbn.
  - constructor; [easy|constructor].
  - constructor.
    + rewrite in_app_iff. intros [H|[H|[]]]; [easy|]. apply Hx. now left.
    + apply IH. intros H. apply Hx. now right.
Qed.

Lemma dict_set_keys d k v :
  List.NoDup (map fst d) -> List.NoDup (map fst (dict_set d k v)).
Proof.
  intros Hnd.
  assert (H : map fst (dict_set d k v) = map fst d
              \/ (~ In k (map fst d)
                  /\ map fst (dict_set d k v) = map fst d ++ [k])).
  { clear Hnd. induction d as [|[k' v'] d IH]; cbn [dict_set map fst].
    - right. split; [easy|reflexivity].
    - destruct (String.eqb_spec k' k) as [->|Hk]; cbn [map fst].
      + now left.
      + destruct IH as [->|[Hnot ->]]; [now left|].
        right. split; [|reflexivity].
        intros [->|H]; easy. }
  destruct H as [->|[Hnot ->]]; [exact Hnd|now apply NoDup_snoc].
Qed.

(** ** The log by path *)

Lemma Path_eqb_eq p q : Path_eqb p q = true <-> p = q.
Proof. unfold Path_eqb. apply bool_decide_eq_true. Qed.

Lemma Path_eqb_refl p : Path_eqb p p = true.
Proof. now apply Path_eqb_eq. Qed.

Lemma log_get_log_set l k v p :
  log_get (log_set l k v) p = if Path_eqb k p then Some v else log_get l p.
Proof.
  unfold log_get, log_set. now rewrite dict_get_dict_set, join_ids_eqb.
Qed.

Lemma log_mem_log_set l k v p :
  log_mem (log_set l k v) p = Path_eqb k p || log_mem l p.
Proof.
  change (log_mem (log_set l k v) p)
    with (match log_get (log_set l k v) p with Some _ => true | None => false end).
  rewrite log_get_log_set. now destruct (Path_eqb k p).
Qed.

Lemma in_entries l p v :
  In (p, v) (entries l)
  <-> exists path_str, In (path_str, v) l /\ parse_ids path_str = Some p.
Proof.
  unfold entries. rewrite in_flat_map. split.
  - intros ([path_str x] & Hin & H).
    destruct (parse_ids path_str) as [q|] eqn:E; [|destruct H].
    destruct H as [[= -> ->]|[]]. now exists path_str.
  - intros (path_str & Hin & E). exists (path_str, v).
    split; [exact Hin|]. rewrite E. now left.
Qed.

Lemma in_log_set l k v p x :
  In (p, x) (entries (log_set l k v)) ->
  In (p, x) (entries l) \/ (p = k /\ x = v).
Proof.
  intros H. apply in_entries in H as (path_str & Hin & E).
  apply in_dict_set in Hin as [Hin|[-> ->]].
  - left. apply in_entries. now exists path_str.
  - right. split; [|reflexivity].
    destruct (decide (k = [])) as [->|Hk]; [discriminate|].
    rewrite parse_ids_join_ids in E by exact Hk. congruence.
Qed.

Lemma log_get_In l p v :
  p <> [] -> log_get l p = Some v -> In (p, v) (entries l).
Proof.
  intros Hp H. apply dict_get_In in H. apply in_entries.
  exists (join_ids p). split; [exact H|now apply parse_ids_join_ids].
Qed.

Lemma In_log_get l p v :
  keys_ok l ->
  List.NoDup (map fst l) ->
  In (p, v) (entries l) ->
  log_get l p = Some v.
Proof.
  intros Hk Hnd H. apply in_entries in H as (path_str & Hin & E).
  destruct (Hk path_str v Hin) as (q & Hq & ->).
  rewrite parse_ids_join_ids in E by exact Hq. injection E as ->.
  now apply In_dict_get.
Qed.

Lemma log_set_keys l k v :
  List.NoDup (map fst l) -> List.NoDup (map fst (log_set l k v)).
Proof. apply dict_set_keys. Qed.

Lemma log_set_keys_ok l k v :
  k <> [] -> keys_ok l -> keys_ok (log_set l k v).
Proof.
  intros Hk Hl path_str x Hin.
  apply in_dict_set in Hin as [Hin|[-> ->]]; [now apply (Hl path_str x)|].
  now exists k.
Qed.

(** ** The log under delivery *)

Lemma deliver_to_lookup ns msg i :
  deliver_to ns msg !! i
  = if decide (to_node msg = i)
    then (fun n => set_message_log
                     (log_set (message_log n) (path msg) (value msg)) n)
           <$> ns !! i
    else ns !! i.
Proof.
  unfold deliver_to. rewrite list_lookup_alter.
  destruct (decide (to_node msg = i)) as [->|]; reflexivity.
Qed.

(** A node after a delivery is the node before it with a longer log, and
    every new entry is one of the messages addressed to it. *)
Lemma deliver_lookup msgs ns i node' :
  deliver msgs ns !! i = Some node' ->
  exists node,
    ns !! i = Some node
    /\ id node' = id node
    /\ is_sender node' = is_sender node
    /\ is_faulty node' = is_faulty node
    /\ final_decision node' = final_decision node
    /\ forall p v,
         In (p, v) (entries (message_log node')) ->
         In (p, v) (entries (message_log node))
         \/ exists m, In m msgs /\ to_node m = i /\ path m = p /\ value m = v.
Proof.
  unfold deliver. revert ns node'.
  induction msgs as [|m msgs IH]; intros ns node' H; cbn [fold_left] in H.
  - exists node'. repeat split; auto.
  - apply IH in H as (node1 & H1 & Hid & Hs & Hf & Hd & Hlog).
    rewrite deliver_to_lookup in H1.
    destruct (decide (to_node m = i)) as [Hto|Hto].
    + destruct (ns !! i) as [node|] eqn:E; [|discriminate].
      injection H1 as <-. exists node. repeat split; auto.
      intros p v Hin. destruct (Hlog p v Hin) as [Hin1|(m' & Hm' & H')].
      * cbn in Hin1. apply in_log_set in Hin1 as [Hin0|[-> ->]]; [now left|].
        right. exists m. repeat split; auto. now left.
      * right. exists m'. split; [now right|exact H'].
    + exists node1. repeat split; auto.
      intros p v Hin. destruct (Hlog p v Hin) as [Hin1|(m' & Hm' & H')].
      * now left.
      * right. exists m'. split; [now right|exact H'].
Qed.

Lemma deliver_log_get msgs ns q node node' p v :
  ns !! q = Some node ->
  deliver msgs ns !! q = Some node' ->
  (forall m, In m msgs -> addressed q p m = true -> value m = v) ->
  log_get (message_log node') p
  = if existsb (addressed q p) msgs then Some v
    else log_get (message_log node) p.
Proof.
  unfold deliver. revert ns node.
  induction msgs as [|m msgs IH]; intros ns node Hq Hq' Hv;
    cbn [fold_left existsb] in *.
  - congruence.
  - assert (Hstep : exists node1,
               deliver_to ns m !! q = Some node1
               /\ log_get (message_log node1) p
                  = if addressed q p m then Some v
                    else log_get (message_log node) p).
    { rewrite deliver_to_lookup, Hq. unfold addressed.
      destruct (decide (to_node m = q)) as [Hto|Hto].
      - eexists. split; [reflexivity|]. cbn.
        rewrite log_get_log_set. apply Nat.eqb_eq in Hto as Hb. rewrite Hb.
        cbn [andb]. destruct (Path_eqb (path m) p) eqn:E; [|reflexivity].
        f_equal. apply Hv; [now left|]. unfold addressed. now rewrite Hb, E.
      - eexists. split; [reflexivity|].
        apply Nat.eqb_neq in Hto. now rewrite Hto. }
    destruct Hstep as (node1 & H1 & Hlog1).
    rewrite (IH _ node1 H1 Hq') by (intros m' Hin; apply Hv; now right).
    rewrite Hlog1.
    destruct (addressed q p m); cbn [orb]; [|reflexivity].
    now destruct (existsb (addressed q p) msgs).
Qed.

Lemma deliver_keys msgs ns :
  (forall i node, ns !! i = Some node ->
                  List.NoDup (map fst (message_log node))) ->
  forall i node, deliver msgs ns !! i = Some node ->
                 List.NoDup (map fst (message_log node)).
Proof.
  unfold deliver. revert ns.
  induction msgs as [|m msgs IH]; intros ns Hns; cbn [fold_left]; [exact Hns|].
  apply IH. intros i node. rewrite deliver_to_lookup.
  destruct (decide (to_node m = i)) as [Hto|Hto]; [|apply Hns].
  destruct (ns !! i) as [node0|] eqn:E; [|discriminate].
  cbn. intros [= <-]. cbn. apply log_set_keys. now apply (Hns i).
Qed.

Lemma deliver_keys_ok msgs ns :
  (forall m, In m msgs -> path m <> []) ->
  keys_ok_nodes ns ->
  keys_ok_nodes (deliver msgs ns).
Proof.
  unfold deliver. revert ns.
  induction msgs as [|m msgs IH]; intros ns Hp Hns; cbn [fold_left];
    [exact Hns|].
  apply IH; [intros m' Hin; apply Hp; now right|].
  intros i node. rewrite deliver_to_lookup.
  destruct (decide (to_node m = i)) as [Hto|Hto]; [|apply Hns].
  destruct (ns !! i) as [node0|] eqn:E; [|discriminate].
  cbn. intros [= <-]. cbn. apply log_set_keys_ok.
  - apply Hp. now left.
  - now apply (Hns i).
Qed.

(** ** Paths of the messages of a round *)

Lemma existsb_eqb_In j p : existsb (Nat.eqb j) p = true <-> In j p.
Proof.
  rewrite existsb_exists. split.
  - intros (x & Hin & E). apply Nat.eqb_eq in E. now subst.
  - intros Hin. exists j. split; [exact Hin|apply Nat.eqb_refl].
Qed.

Lemma eligible_spec self p j :
  eligible self p j = true <-> j <> self /\ ~ In j p.
Proof.
  unfold eligible. rewrite andb_true_iff, !negb_true_iff, Nat.eqb_neq.
  rewrite <- existsb_eqb_In. now destruct (existsb (Nat.eqb j) p).
Qed.

Lemma path_ok_snoc sid owner relayer p :
  path_ok sid relayer p ->
  owner <> relayer ->
  ~ In owner p ->
  path_ok sid owner (p ++ [relayer]).
Proof.
  intros (Hnd & Hrel & Hhd) Hne Hown. repeat split.
  - now apply NoDup_snoc.
  - rewrite in_app_iff. intros [H|[H|[]]]; [easy|]. now apply Hne.
  - destruct p; [discriminate|exact Hhd].
Qed.

Lemma round1_msgs_ok ns sid sv sender m :
  (forall i node, ns !! i = Some node -> id node = i) ->
  ns !! sid = Some sender ->
  In m (round1_msgs ns sid sv sender) ->
  message_ok sid 1 m.
Proof.
  intros Hids Hsender Hin. unfold round1_msgs in Hin.
  apply in_flat_map in Hin as ([i node] & Hnode & Hm).
  apply in_enumerate in Hnode.
  rewrite (Hids _ _ Hnode), (Hids _ _ Hsender) in Hm.
  destruct (Nat.eqb_spec i sid) as [E|E]; [destruct Hm|].
  destruct Hm as [<-|[]]. cbn. repeat split.
  - constructor; [easy|constructor].
  - intros [H|[]]. now apply E.
Qed.

Lemma relay_msgs_shape ns r m :
  In m (relay_msgs ns r) ->
  exists si sender_node p v ri receiver_node,
    ns !! si = Some sender_node
    /\ In (p, v) (entries (message_log sender_node))
    /\ length p = r - 1
    /\ ns !! ri = Some receiver_node
    /\ eligible (id sender_node) p (id receiver_node) = true
    /\ m = mkMessage si ri
             (get_faulty_value sender_node v (id receiver_node))
             (p ++ [id sender_node]).
Proof.
  intros Hin. unfold relay_msgs in Hin.
  apply in_flat_map in Hin as ([si sender_node] & Hsender & Hin).
  apply in_flat_map in Hin as ([p v] & Hentry & Hin).
  destruct (Nat.eqb_spec (length p) (r - 1)) as [Hlen|]; [|destruct Hin].
  apply in_flat_map in Hin as ([ri receiver_node] & Hreceiver & Hin).
  destruct (eligible (id sender_node) p (id receiver_node)) eqn:He;
    [|destruct Hin].
  destruct Hin as [<-|[]].
  apply in_enumerate in Hsender, Hreceiver.
  exists si, sender_node, p, v, ri, receiver_node. now repeat split.
Qed.

Lemma relay_msgs_ok ns r sid m :
  (forall i node, ns !! i = Some node -> id node = i) ->
  (forall i node p v,
      ns !! i = Some node -> In (p, v) (entries (message_log node)) -> path_ok sid i p) ->
  1 <= r ->
  In m (relay_msgs ns r) ->
  message_ok sid r m.
Proof.
  intros Hids Hlogs Hr Hin.
  apply relay_msgs_shape in Hin
    as (si & sender_node & p & v & ri & receiver_node
        & Hsender & Hentry & Hlen & Hreceiver & He & ->).
  rewrite (Hids _ _ Hsender), (Hids _ _ Hreceiver) in He.
  apply eligible_spec in He as [Hne Hnot].
  split; cbn.
  - rewrite length_app. cbn. lia.
  - rewrite (Hids _ _ Hsender). apply path_ok_snoc; eauto.
Qed.

Lemma round_messages_paths s msgs m :
  round_messages s = Some msgs -> In m msgs -> path m <> [].
Proof.
  unfold round_messages. intros Hmsgs Hin.
  destruct (current_round s + 1 =? 1).
  - destruct (nodes s !! sender_id s) as [sender|]; [|discriminate].
    injection Hmsgs as <-. unfold round1_msgs in Hin.
    apply in_flat_map in Hin as ([i node] & _ & Hm).
    destruct (id node =? id sender); [destruct Hm|].
    now destruct Hm as [<-|[]].
  - destruct (current_round s + 1 <=? max_faulty s + 1);
      injection Hmsgs as <-; [|destruct Hin].
    apply relay_msgs_shape in Hin
      as (si & sender_node & p & v & ri & receiver_node & _ & _ & _ & _ & _ & ->).
    cbn. now destruct p.
Qed.

Lemma round_nodes_keys_ok s msgs :
  keys_ok_nodes (nodes s) ->
  round_messages s = Some msgs ->
  keys_ok_nodes (round_nodes s msgs).
Proof.
  intros Hk Hmsgs.
  assert (Hd : keys_ok_nodes (deliver msgs (nodes s))).
  { apply deliver_keys_ok; [|exact Hk].
    intros m Hin. now apply (round_messages_paths s msgs). }
  unfold round_nodes. cbv zeta.
  destruct (max_faulty s <? current_round s + 1); [|exact Hd].
  intros i node'. rewrite lookup_map.
  destruct (deliver msgs (nodes s) !! i) as [node|] eqn:E; [|discriminate].
  cbn. intros [= <-]. rewrite decide_one_message_log. now apply (Hd i).
Qed.

(** ** The number of rounds *)

Lemma advance_add a b s :
  advance (a + b) s
  = match advance a s with Some s' => advance b s' | None => None end.
Proof.
  revert s. induction a as [|a IH]; intros s; [reflexivity|].
  cbn [advance Nat.add]. destruct (run_next_round s); [apply IH|reflexivity].
Qed.

Lemma advance_finished k s :
  simulation_state s = finished -> advance k s = Some s.
Proof.
  intros Hph. induction k as [|k IH]; [reflexivity|].
  cbn [advance]. unfold run_next_round. now rewrite Hph.
Qed.

Lemma round_messages_some s :
  (current_round s = 0 -> is_Some (nodes s !! sender_id s)) ->
  exists msgs, round_messages s = Some msgs.
Proof.
  intros Hs. unfold round_messages.
  destruct (Nat.eqb_spec (current_round s + 1) 1) as [E|E].
  - destruct Hs as [sender ->]; [lia|]. eauto.
  - destruct (current_round s + 1 <=? max_faulty s + 1); eauto.
Qed.

Lemma advance_running k s :
  keys_ok_nodes (nodes s) ->
  simulation_state s = ready \/ simulation_state s = running ->
  (current_round s = 0 -> is_Some (nodes s !! sender_id s)) ->
  current_round s + k <= max_faulty s ->
  exists s',
    advance k s = Some s'
    /\ keys_ok_nodes (nodes s')
    /\ current_round s' = current_round s + k
    /\ max_faulty s' = max_faulty s
    /\ sender_id s' = sender_id s
    /\ (k = 0 -> s' = s)
    /\ (1 <= k -> simulation_state s' = running).
Proof.
  revert s. induction k as [|k IH]; intros s Hkeys Hph Hs Hk.
  - exists s. split; [reflexivity|]. split; [exact Hkeys|]. repeat split; lia.
  - destruct (round_messages_some s Hs) as [msgs Hmsgs].
    destruct (run_next_round_fields s msgs Hkeys Hph Hmsgs)
      as (s1 & E1 & Hn1 & Hp1 & _ & Hr1 & Hf1 & Hs1 & _).
    assert (Hrun : simulation_state s1 = running).
    { rewrite Hp1. unfold round_phase.
      destruct (Nat.ltb_spec (max_faulty s) (current_round s + 1)); [lia|].
      reflexivity. }
    destruct (IH s1) as (s' & E & Hkeys' & Hr & Hf & Hsid & _ & Hp).
    + rewrite Hn1. now apply round_nodes_keys_ok.
    + now right.
    + intros H0. lia.
    + lia.
    + exists s'. cbn [advance]. rewrite E1. split; [exact E|].
      split; [exact Hkeys'|].
      repeat split; try lia; try congruence.
      intros _. destruct (Nat.eq_dec k 0) as [->|Hk0]; [|apply Hp; lia].
      cbn in E. congruence.
Qed.

Lemma round_nodes_decisions s msgs node :
  max_faulty s < current_round s + 1 ->
  In node (round_nodes s msgs) ->
  is_faulty node = false ->
  final_decision node
  = resolve_decision (round_nodes s msgs) node [sender_id s] (max_faulty s).
Proof.
  intros Hlt Hin Hf. unfold round_nodes in *. cbv zeta in *.
  apply Nat.ltb_lt in Hlt. rewrite Hlt in *.
  set (ns := deliver msgs (nodes s)) in *.
  apply in_map_iff in Hin as (node0 & <- & Hin0).
  rewrite decide_one_is_faulty in Hf.
  rewrite (resolve_decision_ids _ ns) by apply map_decide_one_ids.
  rewrite !resolve_decision_resolve, decide_one_id, decide_one_message_log.
  unfold decide_one. rewrite Hf. cbn.
  now rewrite resolve_decision_resolve.
Qed.

Lemma keys_ok_nodes_empty ns :
  (forall node, In node ns -> message_log node = []) -> keys_ok_nodes ns.
Proof.
  intros H i node Hi path_str v Hin.
  rewrite (H node) in Hin; [destruct Hin|].
  apply list_elem_of_In, list_elem_of_lookup. eauto.
Qed.

(** The number of rounds with the sender's node in place.  From a ready
    state as an accepted setup leaves it, with the round counter at 0,
    the sender in the list of nodes and the logs empty, the presses of
    "Next Round" return, and the phase after [k] of them is not
    [finished] as long as [k <= F] (it is [running] from the first press
    on); the press number F+1 ends in the phase [finished] with the round
    counter at F+1, and when it returns every node that is not faulty
    holds as its [final_decision] the result of [resolve_decision] on the
    sender's path with depth F.  Presses after that return with the
    object unchanged. *)
Theorem round_count_with_sender s :
  simulation_state s = ready ->
  current_round s = 0 ->
  is_Some (nodes s !! sender_id s) ->
  (forall node, In node (nodes s) -> message_log node = []) ->
  (forall k, k <= max_faulty s ->
     exists s',
       advance k s = Some s'
       /\ current_round s' = k
       /\ simulation_state s' = (if k =? 0 then ready else running)
       /\ simulation_state s' <> finished)
  /\ exists sF,
       advance (max_faulty s + 1) s = Some sF
       /\ simulation_state sF = finished
       /\ current_round sF = max_faulty s + 1
       /\ (forall node,
             In node (nodes sF) ->
             is_faulty node = false ->
             final_decision node
             = resolve_decision (nodes sF) node [sender_id s] (max_faulty s))
       /\ run_next_round sF = Returned sF
       /\ (forall k, advance (max_faulty s + 1 + k) s = Some sF).
Proof.
  intros Hph Hr Hs Hempty.
  assert (Hbefore : forall k, k <= max_faulty s ->
            exists s',
              advance k s = Some s'
              /\ keys_ok_nodes (nodes s')
              /\ current_round s' = k
              /\ max_faulty s' = max_faulty s
              /\ sender_id s' = sender_id s
              /\ simulation_state s' = (if k =? 0 then ready else running)).
  { intros k Hk.
    destruct (advance_running k s)
      as (s' & E & Hkeys & Hr' & Hf' & Hs' & H0 & H1);
      [now apply keys_ok_nodes_empty|now left|now intros _|lia|].
    exists s'. split; [exact E|]. split; [exact Hkeys|].
    repeat split; try congruence; try lia.
    destruct k as [|k]; cbn [Nat.eqb].
    - now rewrite (H0 eq_refl).
    - apply H1. lia. }
  split.
  - intros k Hk. destruct (Hbefore k Hk) as (s' & E & _ & Hr' & _ & _ & Hp).
    exists s'. repeat split; try assumption.
    rewrite Hp. now destruct (k =? 0).
  - destruct (Hbefore (max_faulty s) (le_n _))
      as (s1 & E1 & Hkeys1 & Hr1 & Hf1 & Hs1 & Hp1).
    assert (Hph1 : simulation_state s1 = ready \/ simulation_state s1 = running).
    { rewrite Hp1. destruct (max_faulty s =? 0); auto. }
    assert (Hsome : current_round s1 = 0 -> is_Some (nodes s1 !! sender_id s1)).
    { intros H0. assert (max_faulty s = 0) as Hz by lia.
      rewrite Hz in E1. cbn in E1. congruence. }
    destruct (round_messages_some s1 Hsome) as [msgs Hmsgs].
    destruct (run_next_round_fields s1 msgs Hkeys1 Hph1 Hmsgs)
      as (sF & EF & Hn & Hp & _ & Hr' & Hf' & Hs' & _).
    assert (HphF : simulation_state sF = finished).
    { rewrite Hp. unfold round_phase.
      destruct (Nat.ltb_spec (max_faulty s1) (current_round s1 + 1)); [easy|lia]. }
    assert (EadvF : advance (max_faulty s + 1) s = Some sF).
    { rewrite advance_add, E1. cbn [advance]. now rewrite EF. }
    exists sF. repeat split; try assumption; try lia.
    + intros node Hin Hfaulty. rewrite Hn in *. rewrite <- Hs1, <- Hf1.
      apply round_nodes_decisions; [lia|assumption|assumption].
    + unfold run_next_round. now rewrite HphF.
    + intros k. rewrite advance_add, EadvF. now apply advance_finished.
Qed.

Lemma round_count_with_sender_witness :
  let s := initial in
  exists sF,
    advance (max_faulty s + 1) s = Some sF
    /\ simulation_state sF = finished
    /\ current_round sF = 2.
Proof.
  destruct (round_count_with_sender initial) as [_ (sF & E & Hp & Hr & _)];
    [reflexivity|reflexivity|now exists (set_is_sender true (new_Node 0))| |].
  - intros node [<-|[<-|[<-|[<-|[]]]]]; reflexivity.
  - exists sF. now repeat split.
Defined.

(** ** An invariant of the window *)

Lemma lookup_new_nodes n i :
  map new_Node (seq 0 n) !! i = if i <? n then Some (new_Node i) else None.
Proof.
  rewrite lookup_map. destruct (Nat.ltb_spec i n) as [H|H].
  - now rewrite lookup_seq_lt.
  - now rewrite lookup_seq_ge.
Qed.

Lemma lookup_fresh_nodes n sid i :
  sid < n ->
  fresh_nodes n sid !! i
  = if i <? n then Some (mkNode i (i =? sid) false [] None) else None.
Proof.
  intros Hsid. unfold fresh_nodes. rewrite list_lookup_insert.
  rewrite length_map, length_seq.
  case_decide as Hd.
  - destruct Hd as [<- _].
    apply Nat.ltb_lt in Hsid. now rewrite Hsid, Nat.eqb_refl.
  - rewrite lookup_new_nodes. destruct (i <? n); [|reflexivity].
    destruct (Nat.eqb_spec i sid) as [->|]; [|reflexivity].
    exfalso. apply Hd. now split.
Qed.

Lemma setup_simulation_accepts s n_input :
  n_var s = Some n_input ->
  (Z.of_nat (3 * f_var s + 1) <= n_input)%Z ->
  sender_id s < Z.to_nat n_input ->
  setup_simulation s
  = Returned
      (update_ui_state
         (with_nodes (fresh_nodes (Z.to_nat n_input) (sender_id s))
            (configured s n_input))).
Proof.
  intros Hn Hle Hsid. unfold setup_simulation.
  cbn [n_var with_max_faulty max_faulty]. rewrite Hn.
  apply Z.ltb_ge in Hle. rewrite Hle.
  cbn [with_total_nodes with_sender_value with_nodes with_messages
       with_current_round with_current_faulty with_simulation_state
       nodes sender_id total_nodes sender_value_var].
  rewrite lookup_new_nodes.
  change (sender_id (with_max_faulty (f_var s) s)) with (sender_id s).
  apply Nat.ltb_lt in Hsid. rewrite Hsid. reflexivity.
Qed.

Lemma Inv_fields s s' :
  Inv s ->
  nodes s' = nodes s ->
  messages s' = messages s ->
  sender_id s' = sender_id s ->
  current_round s' = current_round s ->
  max_faulty s' = max_faulty s ->
  f_var s' = f_var s ->
  simulation_state s' = simulation_state s ->
  Inv s'.
Proof.
  intros [] En Em Es Er Ef Ev Ep.
  split; rewrite ?En, ?Em, ?Es, ?Er, ?Ef, ?Ev, ?Ep; assumption.
Qed.

Lemma Inv_update_ui_state s : Inv s -> Inv (update_ui_state s).
Proof.
  intros H. apply (Inv_fields s); try assumption;
    unfold update_ui_state; now destruct (is_error (sim_state_label s)).
Qed.

Lemma Inv_no_nodes s :
  nodes s = [] ->
  messages s = [] ->
  sender_id s = 0 ->
  max_faulty s = f_var s ->
  In (f_var s) f_combo_values ->
  (simulation_state s = ready -> current_round s = 0) ->
  Inv s.
Proof.
  intros En Em Es Ef Hv Hr. split; rewrite ?En, ?Em; try easy.
  intros Hph. now repeat split; [apply Hr|..].
Qed.

Lemma Inv_setup_simulation s :
  sender_id s = 0 ->
  In (f_var s) f_combo_values ->
  (simulation_state s = ready -> current_round s = 0) ->
  Inv (state_of (setup_simulation s)).
Proof.
  intros Hsid Hf Hready.
  destruct (n_var s) as [n_input|] eqn:Hn.
  - destruct (Z.ltb_spec n_input (Z.of_nat (3 * f_var s + 1))) as [Hlt|Hge].
    + rewrite (setup_simulation_too_small s n_input Hn Hlt).
      now apply Inv_no_nodes.
    + assert (Hn0 : 0 < Z.to_nat n_input) by lia.
      rewrite (setup_simulation_accepts s n_input Hn Hge) by lia.
      cbn [state_of]. apply Inv_update_ui_state.
      assert (Hlook : forall i node,
                 fresh_nodes (Z.to_nat n_input) 0 !! i = Some node ->
                 node = mkNode i (i =? 0) false [] None).
      { intros i node H. rewrite lookup_fresh_nodes in H by exact Hn0.
        destruct (i <? Z.to_nat n_input); congruence. }
      rewrite Hsid.
      split; cbn [nodes messages sender_id current_round max_faulty f_var
                  simulation_state with_nodes configured with_simulation_state
                  with_current_faulty with_current_round with_messages
                  with_sender_value with_total_nodes with_max_faulty];
        try easy.
      * intros i node H. now rewrite (Hlook i node H).
      * intros i node p v H. now rewrite (Hlook i node H).
      * intros i node H. now rewrite (Hlook i node H).
      * intros node H. now rewrite (Hlook 0 node H).
      * intros _. split; [reflexivity|]. split; [reflexivity|].
        intros i node H. now rewrite (Hlook i node H).
      * intros i node H. rewrite (Hlook i node H). now intros path_str v [].
  - rewrite (setup_simulation_not_a_number s Hn). now apply Inv_no_nodes.
Qed.

Lemma lookup_insert_cases {A} (l : list A) i x j y :
  <[i := x]> l !! j = Some y ->
  (j = i /\ y = x) \/ (j <> i /\ l !! j = Some y).
Proof.
  rewrite list_lookup_insert.
  case_decide as Hd.
  - intros E. left. destruct Hd as [-> _]. split; congruence.
  - intros E. destruct (Nat.eq_dec j i) as [->|Hji]; [|now right].
    exfalso. apply Hd. split; [reflexivity|].
    apply lookup_lt_is_Some. eauto.
Qed.

Lemma Inv_set_is_faulty s i node b :
  Inv s ->
  simulation_state s <> finished ->
  nodes s !! i = Some node ->
  is_sender node = false ->
  Inv (with_nodes (<[i := set_is_faulty b node]> (nodes s)) s).
Proof.
  intros HI Hph Hnode Hsender.
  assert (Hi : i <> 0).
  { intros ->. now rewrite (inv_is_sender s HI 0 node Hnode) in Hsender. }
  split; cbn [nodes messages sender_id current_round max_faulty f_var
              simulation_state with_nodes]; try apply HI; try easy.
  - intros j node' H. apply lookup_insert_cases in H as [[-> ->]|[_ H]].
    + cbn. now apply (inv_ids s HI).
    + now apply (inv_ids s HI).
  - intros j node' p v H. apply lookup_insert_cases in H as [[-> ->]|[_ H]].
    + cbn. now apply (inv_logs s HI).
    + now apply (inv_logs s HI).
  - intros j node' H. apply lookup_insert_cases in H as [[-> ->]|[_ H]].
    + cbn. now apply (inv_is_sender s HI).
    + now apply (inv_is_sender s HI).
  - intros node' H. apply lookup_insert_cases in H as [[E _]|[_ H]].
    + now symmetry in E.
    + now apply (inv_sender_honest s HI).
  - intros Hready. destruct (inv_ready s HI Hready) as (Hr & Hm & Hfresh).
    split; [exact Hr|]. split; [exact Hm|].
    intros j node' H. apply lookup_insert_cases in H as [[-> ->]|[_ H]].
    + cbn. now apply (Hfresh i).
    + now apply (Hfresh j).
  - intros m Hin.
    destruct (inv_delivered s HI m Hin) as (recipient & Hrec & Hmem).
    rewrite list_lookup_insert. case_decide as Hd.
    + destruct Hd as [Hd _]. eexists. split; [reflexivity|]. cbn.
      rewrite Hd in Hnode. congruence.
    + now exists recipient.
  - intros j node' H. apply lookup_insert_cases in H as [[-> ->]|[_ H]].
    + cbn. now apply (inv_keys s HI i).
    + now apply (inv_keys s HI j).
Qed.

Lemma Inv_on_canvas_click hit s : Inv s -> Inv (on_canvas_click hit s).
Proof.
  intros HI. unfold on_canvas_click.
  destruct (simulation_state s) eqn:Hph; try exact HI.
  destruct (find _ _) as [[i node]|] eqn:Hfind; [|exact HI].
  apply find_enumerate in Hfind as [Hnode _].
  destruct (is_sender node) eqn:Hsender; [exact HI|].
  assert (Hnf : simulation_state s <> finished) by now rewrite Hph.
  destruct (is_faulty node).
  - apply Inv_update_ui_state.
    now apply (Inv_fields
                 (with_nodes (<[i := set_is_faulty false node]> (nodes s)) s));
      [apply Inv_set_is_faulty|..].
  - destruct (current_faulty s <? Z.of_nat (max_faulty s))%Z.
    + apply Inv_update_ui_state.
      now apply (Inv_fields
                   (with_nodes (<[i := set_is_faulty true node]> (nodes s)) s));
        [apply Inv_set_is_faulty|..].
    + now apply Inv_update_ui_state.
Qed.

Lemma deliver_mem msgs ns i node p :
  ns !! i = Some node ->
  log_mem (message_log node) p = true ->
  exists node',
    deliver msgs ns !! i = Some node'
    /\ log_mem (message_log node') p = true.
Proof.
  unfold deliver. revert ns node.
  induction msgs as [|m msgs IH]; intros ns node Hi Hmem; cbn [fold_left].
  - now exists node.
  - assert (H : exists node1,
               deliver_to ns m !! i = Some node1
               /\ log_mem (message_log node1) p = true).
    { rewrite deliver_to_lookup, Hi.
      destruct (decide (to_node m = i)); eexists; (split; [reflexivity|]).
      - cbn. rewrite log_mem_log_set, Hmem. apply orb_true_r.
      - exact Hmem. }
    destruct H as (node1 & H1 & Hmem1). now apply (IH _ node1).
Qed.

Lemma deliver_delivered msgs ns m :
  In m msgs ->
  to_node m < length ns ->
  exists node',
    deliver msgs ns !! to_node m = Some node'
    /\ log_mem (message_log node') (path m) = true.
Proof.
  revert ns. induction msgs as [|m0 msgs IH]; intros ns Hin Hlt; [easy|].
  destruct Hin as [E|Hin].
  - subst m0. destruct (lookup_lt_is_Some_2 ns (to_node m) Hlt) as [node Hnode].
    change (deliver (m :: msgs) ns) with (deliver msgs (deliver_to ns m)).
    apply (deliver_mem msgs (deliver_to ns m) (to_node m)
             (set_message_log
                (log_set (message_log node) (path m) (value m)) node)).
    + rewrite deliver_to_lookup, Hnode.
      now destruct (decide (to_node m = to_node m)).
    + cbn. rewrite log_mem_log_set, Path_eqb_refl. reflexivity.
  - change (deliver (m0 :: msgs) ns) with (deliver msgs (deliver_to ns m0)).
    apply IH; [exact Hin|]. unfold deliver_to. now rewrite length_alter.
Qed.

Lemma round_messages_targets s msgs m :
  round_messages s = Some msgs ->
  In m msgs ->
  to_node m < length (nodes s).
Proof.
  unfold round_messages. intros Hmsgs Hin.
  destruct (current_round s + 1 =? 1).
  - destruct (nodes s !! sender_id s) as [sender|]; [|discriminate].
    injection Hmsgs as <-. unfold round1_msgs in Hin.
    apply in_flat_map in Hin as ([i node] & Hnode & Hm).
    apply in_enumerate in Hnode.
    destruct (id node =? id sender); [destruct Hm|].
    destruct Hm as [<-|[]]. cbn. apply lookup_lt_is_Some. eauto.
  - destruct (current_round s + 1 <=? max_faulty s + 1);
      injection Hmsgs as <-; [|destruct Hin].
    apply relay_msgs_shape in Hin
      as (si & sender_node & p & v & ri & receiver_node
          & _ & _ & _ & Hreceiver & _ & ->).
    cbn. apply lookup_lt_is_Some. eauto.
Qed.

Lemma round_nodes_delivered s msgs m :
  In m msgs ->
  to_node m < length (nodes s) ->
  exists recipient,
    round_nodes s msgs !! to_node m = Some recipient
    /\ log_mem (message_log recipient) (path m) = true.
Proof.
  intros Hin Hlt.
  destruct (deliver_delivered msgs (nodes s) m Hin Hlt) as (node' & H & Hmem).
  unfold round_nodes. cbv zeta.
  destruct (max_faulty s <? current_round s + 1); [|now exists node'].
  eexists. rewrite lookup_map, H. split; [reflexivity|].
  now rewrite decide_one_message_log.
Qed.

(** A node after a round is the node before it, with the entries of the
    round's messages added to its log and, in the last round, with its
    decision. *)
Lemma round_nodes_lookup s msgs i node' :
  round_nodes s msgs !! i = Some node' ->
  exists node,
    nodes s !! i = Some node
    /\ id node' = id node
    /\ is_sender node' = is_sender node
    /\ is_faulty node' = is_faulty node
    /\ forall p v,
         In (p, v) (entries (message_log node')) ->
         In (p, v) (entries (message_log node))
         \/ exists m, In m msgs /\ to_node m = i /\ path m = p /\ value m = v.
Proof.
  unfold round_nodes. cbv zeta.
  destruct (max_faulty s <? current_round s + 1).
  - rewrite lookup_map.
    destruct (deliver msgs (nodes s) !! i) as [node1|] eqn:E; [|discriminate].
    cbn. intros [= <-].
    apply deliver_lookup in E as (node & H & Hid & Hs & Hf & _ & Hlog).
    exists node.
    rewrite decide_one_id, decide_one_is_sender, decide_one_is_faulty,
      decide_one_message_log.
    now repeat split.
  - intros E.
    apply deliver_lookup in E as (node & H & Hid & Hs & Hf & _ & Hlog).
    exists node. now repeat split.
Qed.

Lemma round_messages_ok s msgs m :
  Inv s ->
  round_messages s = Some msgs ->
  In m msgs ->
  message_ok (sender_id s) (current_round s + 1) m.
Proof.
  intros HI Hmsgs Hin. unfold round_messages in Hmsgs.
  destruct (Nat.eqb_spec (current_round s + 1) 1) as [E|E].
  - destruct (nodes s !! sender_id s) as [sender|] eqn:Hs; [|discriminate].
    injection Hmsgs as <-. rewrite E.
    apply (round1_msgs_ok (nodes s) (sender_id s) (sender_value s) sender);
      [apply HI|exact Hs|exact Hin].
  - destruct (current_round s + 1 <=? max_faulty s + 1);
      injection Hmsgs as <-; [|destruct Hin].
    apply (relay_msgs_ok (nodes s)); [apply HI| |lia|exact Hin].
    intros i node p v Hnode Hentry. now apply (inv_logs s HI i node p v).
Qed.

Lemma round_messages_bound s msgs m :
  round_messages s = Some msgs ->
  In m msgs ->
  current_round s + 1 <= max_faulty s + 1.
Proof.
  unfold round_messages. intros Hmsgs Hin.
  destruct (Nat.eqb_spec (current_round s + 1) 1) as [E|E]; [lia|].
  destruct (Nat.leb_spec (current_round s + 1) (max_faulty s + 1)); [lia|].
  injection Hmsgs as <-. destruct Hin.
Qed.

Lemma Inv_round s msgs s' :
  Inv s ->
  round_messages s = Some msgs ->
  nodes s' = round_nodes s msgs ->
  simulation_state s' = round_phase s ->
  messages s' = msgs ->
  current_round s' = current_round s + 1 ->
  max_faulty s' = max_faulty s ->
  sender_id s' = sender_id s ->
  f_var s' = f_var s ->
  Inv s'.
Proof.
  intros HI Hmsgs Hn Hp Hm Hr Hf Hs Hv.
  split; rewrite ?Hn, ?Hm, ?Hr, ?Hf, ?Hs, ?Hv, ?Hp; try apply HI.
  - intros i node' H.
    apply round_nodes_lookup in H as (node & H & -> & _).
    now apply (inv_ids s HI).
  - intros i node' p v H Hentry.
    apply round_nodes_lookup in H as (node & H & _ & _ & _ & Hlog).
    destruct (Hlog p v Hentry) as [Hold|(m & Hm' & <- & <- & _)].
    + destruct (inv_logs s HI i node p v H Hold) as [Hok Hlen].
      split; [exact Hok|lia].
    + destruct (round_messages_ok s msgs m HI Hmsgs Hm') as [Hlen Hok].
      split; [exact Hok|lia].
  - intros m Hin. now apply (round_messages_ok s msgs).
  - intros i node' H.
    apply round_nodes_lookup in H as (node & H & _ & -> & _).
    now apply (inv_is_sender s HI).
  - intros node' H.
    apply round_nodes_lookup in H as (node & H & _ & _ & -> & _).
    now apply (inv_sender_honest s HI).
  - intros m Hin. now apply (round_messages_bound s msgs m).
  - unfold round_phase.
    now destruct (max_faulty s <? current_round s + 1).
  - unfold round_phase.
    destruct (Nat.ltb_spec (max_faulty s) (current_round s + 1)); [|easy].
    intros _ node Hin Hfaulty. now apply round_nodes_decisions.
  - intros m Hin. apply round_nodes_delivered; [exact Hin|].
    now apply (round_messages_targets s msgs).
  - apply round_nodes_keys_ok; [apply HI|exact Hmsgs].
Qed.

Lemma Inv_run_next_round s : Inv s -> Inv (state_of (run_next_round s)).
Proof.
  intros HI.
  assert (Hcases : simulation_state s = ready \/ simulation_state s = running
                   \/ run_next_round s = Returned s).
  { unfold run_next_round. destruct (simulation_state s); auto. }
  destruct Hcases as [Hph|[Hph| ->]]; [| |exact HI].
  all: assert (Hrr : simulation_state s = ready \/ simulation_state s = running)
         by auto.
  all: destruct (round_messages s) as [msgs|] eqn:Hmsgs.
  1, 3: destruct (run_next_round_fields s msgs (inv_keys s HI) Hrr Hmsgs)
         as (s' & -> & Hn & Hp & Hm & Hr & Hf & Hs & _ & _ & _ & Hv & _);
       now apply (Inv_round s msgs).
  all: rewrite (run_next_round_raises s (inv_keys s HI) Hrr Hmsgs);
    cbn [state_of];
    split; cbn; try apply HI; try easy;
    intros i node p v H Hentry;
    destruct (inv_logs s HI i node p v H Hentry); split; [assumption|lia].
Qed.

Lemma Inv_step s e : Inv s -> enabled e -> Inv (step s e).
Proof.
  intros HI He. unfold step. destruct e as [f|n|v| | |hit]; cbn [handle].
  - unfold on_f_changed. apply Inv_setup_simulation.
    + apply HI.
    + exact He.
    + intros Hph. now apply (inv_ready s HI).
  - cbn [state_of]. now apply (Inv_fields s).
  - cbn [state_of]. now apply (Inv_fields s).
  - apply Inv_setup_simulation;
      [apply HI|apply HI|intros Hph; now apply (inv_ready s HI)].
  - now apply Inv_run_next_round.
  - cbn [state_of]. now apply Inv_on_canvas_click.
Qed.

Lemma Inv_initial : Inv initial.
Proof.
  unfold initial, on_f_changed. apply Inv_setup_simulation.
  - reflexivity.
  - now left.
  - discriminate.
Qed.

Lemma Inv_reachable s : reachable s -> Inv s.
Proof.
  induction 1 as [|s e _ IH He]; [apply Inv_initial|now apply Inv_step].
Qed.

(** ** The path invariant *)

(** Every key of a log is the joined form of a path as the invariant
    describes it. *)
Lemma Inv_log_key s i node path_str v :
  Inv s ->
  nodes s !! i = Some node ->
  In (path_str, v) (message_log node) ->
  exists p,
    path_str = join_ids p
    /\ In (p, v) (entries (message_log node))
    /\ path_ok (sender_id s) i p
    /\ 1 <= length p <= current_round s.
Proof.
  intros HI Hi Hin.
  destruct (keys_ok_parse _ path_str v (inv_keys s HI i node Hi) Hin)
    as (p & Hp & -> & Hparse).
  assert (Hentry : In (p, v) (entries (message_log node))).
  { apply in_entries. now exists (join_ids p). }
  destruct (inv_logs s HI i node p v Hi Hentry) as [Hok Hlen].
  exists p. split; [reflexivity|]. split; [exact Hentry|].
  split; [exact Hok|]. split; [|exact Hlen].
  destruct p; [easy|cbn; lia].
Qed.

(** C5.  In every state the window can reach, each message of the list
    [messages] (the messages of the round that [current_round] counts) has
    been delivered, its path being a key of the log of the node it went
    to, and that path has the round number as its length, no id twice, and
    not the id of that node; the round number lies between 1 and F+1 when
    there is such a message.  The logs keep these paths: in the log of a
    node every key is the joined form of a path that has no id twice, does
    not contain the id of the node, and is as long as one of the rounds
    run so far. *)
Theorem C5_path_invariant :
  forall s, reachable s ->
    (forall m, In m (messages s) ->
       length (path m) = current_round s
       /\ 1 <= current_round s <= max_faulty s + 1
       /\ List.NoDup (path m)
       /\ exists recipient,
            nodes s !! to_node m = Some recipient
            /\ log_mem (message_log recipient) (path m) = true
            /\ ~ In (id recipient) (path m))
    /\ (forall node path_str v,
          In node (nodes s) ->
          In (path_str, v) (message_log node) ->
          exists p,
            path_str = join_ids p
            /\ 1 <= length p <= current_round s
            /\ List.NoDup p
            /\ ~ In (id node) p).
Proof.
  intros s Hs. apply Inv_reachable in Hs as HI. split.
  - intros m Hin.
    destruct (inv_messages s HI m Hin) as (Hlen & Hnd & Hto & Hhd).
    pose proof (inv_round_bound s HI m Hin) as Hbound.
    destruct (inv_delivered s HI m Hin) as (recipient & Hrec & Hmem).
    repeat split; try assumption.
    + rewrite <- Hlen. destruct (path m); [discriminate|cbn; lia].
    + exists recipient. repeat split; try assumption.
      now rewrite (inv_ids s HI _ _ Hrec).
  - intros node path_str v Hin Hentry.
    apply list_elem_of_In, list_elem_of_lookup in Hin as [i Hi].
    destruct (Inv_log_key s i node path_str v HI Hi Hentry)
      as (p & -> & _ & (Hnd & Hown & _) & Hlen).
    exists p. rewrite (inv_ids s HI _ _ Hi). now repeat split.
Qed.

Lemma C5_path_invariant_witness :
  reachable (step initial ClickNext)
  /\ length (messages (step initial ClickNext)) = 3
  /\ forall m, In m (messages (step initial ClickNext)) ->
       length (path m) = 1
       /\ 1 <= 1 <= 2
       /\ List.NoDup (path m)
       /\ exists recipient,
            nodes (step initial ClickNext) !! to_node m = Some recipient
            /\ log_mem (message_log recipient) (path m) = true
            /\ ~ In (id recipient) (path m).
Proof.
  assert (H : reachable (step initial ClickNext)).
  { apply reachable_step; [apply reachable_initial|exact I]. }
  split; [exact H|]. split; [reflexivity|].
  exact (proj1 (C5_path_invariant _ H)).
Defined.

(** ** The sender's own decision *)

Lemma flat_map_all_nil {A B} (f : A -> list B) l :
  (forall x, f x = []) -> flat_map f l = [].
Proof.
  intros H. induction l as [|x l IH]; [reflexivity|].
  cbn [flat_map]. now rewrite H, IH.
Qed.

Lemma resolve_empty_log ids self_id p f :
  resolve ids self_id [] p (S f) = Some Retreat.
Proof.
  cbn [resolve log_get]. rewrite flat_map_all_nil; [reflexivity|].
  intros j. unfold log_mem. cbn [log_get]. now rewrite andb_false_r.
Qed.

Lemma hd_error_In {A} (p : list A) x : hd_error p = Some x -> In x p.
Proof. destruct p; [discriminate|]. intros [= ->]. now left. Qed.

(** C10.  In every state the window can reach, every message of the round
    has the sender's id first on its path and none is addressed to the
    sender, the sender's log is empty and the sender is not faulty; so
    once the phase is [finished] the closing loop has given the sender a
    [final_decision], and that decision is ['Retreat'], whichever value the
    sender was configured to send. *)
Theorem C10_sender_decides_Retreat :
  forall s, reachable s ->
    (forall m, In m (messages s) -> hd_error (path m) = Some (sender_id s))
    /\ (forall m recipient,
          In m (messages s) ->
          nodes s !! to_node m = Some recipient ->
          is_sender recipient = false)
    /\ (forall node,
          In node (nodes s) ->
          is_sender node = true ->
          message_log node = []
          /\ is_faulty node = false
          /\ (simulation_state s = finished ->
              final_decision node = Some Retreat)).
Proof.
  intros s Hs. apply Inv_reachable in Hs as HI. split; [|split].
  - intros m Hin. now destruct (inv_messages s HI m Hin) as (_ & _ & _ & Hhd).
  - intros m recipient Hin Hrec.
    rewrite (inv_is_sender s HI _ _ Hrec). apply Nat.eqb_neq. intros E.
    destruct (inv_messages s HI m Hin) as (_ & _ & Hto & Hhd).
    apply Hto. rewrite E, <- (inv_sender_id s HI). now apply hd_error_In.
  - intros node Hin Hsender.
    pose proof Hin as Hi.
    apply list_elem_of_In, list_elem_of_lookup in Hi as [i Hi].
    assert (i = 0) as ->.
    { rewrite (inv_is_sender s HI _ _ Hi) in Hsender.
      now apply Nat.eqb_eq in Hsender. }
    assert (Hlog : message_log node = []).
    { destruct (message_log node) as [|[path_str v] l] eqn:E; [reflexivity|].
      destruct (Inv_log_key s 0 node path_str v HI Hi)
        as (p & _ & _ & (_ & Hown & Hhd) & _).
      - rewrite E. now left.
      - exfalso. apply Hown. rewrite (inv_sender_id s HI) in Hhd.
        now apply hd_error_In. }
    assert (Hhonest : is_faulty node = false)
      by now apply (inv_sender_honest s HI).
    repeat split; try assumption.
    intros Hph. rewrite (inv_finished s HI Hph node Hin Hhonest).
    rewrite resolve_decision_resolve, Hlog.
    destruct (inv_max_faulty s HI) as [-> Hf].
    destruct Hf as [<-|[<-|[]]]; apply resolve_empty_log.
Qed.

Lemma C10_sender_decides_Retreat_witness :
  let s := step (step (step initial (ChooseValue Attack)) ClickNext) ClickNext in
  reachable s
  /\ simulation_state s = finished
  /\ sender_value s = Attack
  /\ forall node,
       In node (nodes s) ->
       is_sender node = true ->
       final_decision node = Some Retreat.
Proof.
  set (s := step (step (step initial (ChooseValue Attack)) ClickNext) ClickNext).
  assert (H : reachable s).
  { repeat (apply reachable_step; [|exact I]). apply reachable_initial. }
  repeat split; [exact H|].
  intros node Hin Hsender.
  now apply (proj2 (proj2 (C10_sender_decides_Retreat s H)) node Hin Hsender).
Defined.

(** ** Determinism *)

Lemma round_messages_agree s1 s2 :
  agree s1 s2 -> round_messages s1 = round_messages s2.
Proof.
  intros (En & _ & Ef & Es & Ev & Er & _). unfold round_messages.
  now rewrite En, Ef, Es, Ev, Er.
Qed.

Lemma round_nodes_agree s1 s2 msgs :
  agree s1 s2 -> round_nodes s1 msgs = round_nodes s2 msgs.
Proof.
  intros (En & _ & Ef & Es & _ & Er & _). unfold round_nodes.
  now rewrite En, Ef, Es, Er.
Qed.

Lemma keys_ok_run_next_round s :
  keys_ok_nodes (nodes s) ->
  keys_ok_nodes (nodes (state_of (run_next_round s))).
Proof.
  intros Hk.
  assert (Hcases : simulation_state s = ready \/ simulation_state s = running
                   \/ run_next_round s = Returned s).
  { unfold run_next_round. destruct (simulation_state s); auto. }
  destruct Hcases as [Hph|[Hph| ->]]; [| |exact Hk].
  all: assert (Hrr : simulation_state s = ready \/ simulation_state s = running)
         by auto.
  all: destruct (round_messages s) as [msgs|] eqn:Hmsgs.
  1, 3: destruct (run_next_round_fields s msgs Hk Hrr Hmsgs)
         as (s' & -> & Hn & _);
       cbn [state_of]; rewrite Hn; now apply round_nodes_keys_ok.
  all: now rewrite (run_next_round_raises s Hk Hrr Hmsgs).
Qed.

Lemma agree_run_next_round s1 s2 :
  keys_ok_nodes (nodes s1) ->
  agree s1 s2 ->
  agree (state_of (run_next_round s1)) (state_of (run_next_round s2)).
Proof.
  intros Hk1 Ha. pose proof Ha as (En & Em & Ef & Es & Ev & Er & Ep).
  assert (Hk2 : keys_ok_nodes (nodes s2)) by now rewrite <- En.
  assert (Hcases :
            (simulation_state s1 = ready \/ simulation_state s1 = running)
            \/ (run_next_round s1 = Returned s1
                /\ run_next_round s2 = Returned s2)).
  { unfold run_next_round. rewrite <- Ep.
    destruct (simulation_state s1); auto. }
  destruct Hcases as [Hph1|[-> ->]]; [|exact Ha].
  assert (Hph2 : simulation_state s2 = ready \/ simulation_state s2 = running)
    by now rewrite <- Ep.
  pose proof (round_messages_agree s1 s2 Ha) as Emsgs.
  destruct (round_messages s1) as [msgs|] eqn:Hmsgs.
  - destruct (run_next_round_fields s1 msgs Hk1 Hph1 Hmsgs)
      as (s1' & -> & Hn1 & Hp1 & Hm1 & Hr1 & Hf1 & Hs1 & Hv1 & _).
    destruct (run_next_round_fields s2 msgs Hk2 Hph2 (eq_sym Emsgs))
      as (s2' & -> & Hn2 & Hp2 & Hm2 & Hr2 & Hf2 & Hs2 & Hv2 & _).
    cbn [state_of]. unfold agree, round_phase in *.
    rewrite Hn1, Hn2, Hp1, Hp2, Hm1, Hm2, Hr1, Hr2, Hf1, Hf2, Hs1, Hs2,
      Hv1, Hv2, (round_nodes_agree s1 s2 msgs Ha), Ef, Es, Ev, Er.
    now repeat split.
  - rewrite (run_next_round_raises s1 Hk1 Hph1 Hmsgs).
    rewrite (run_next_round_raises s2 Hk2 Hph2 (eq_sym Emsgs)).
    unfold agree. cbn. rewrite En, Ef, Es, Ev, Er. now repeat split.
Qed.

Lemma agree_presses k s1 s2 :
  keys_ok_nodes (nodes s1) ->
  agree s1 s2 ->
  agree (presses k s1) (presses k s2).
Proof.
  intros Hk Ha.
  assert (H : keys_ok_nodes (nodes (presses k s1))
              /\ agree (presses k s1) (presses k s2)); [|apply H].
  induction k as [|k [IHk IH]]; [now split|]. cbn. split.
  - now apply keys_ok_run_next_round.
  - now apply agree_run_next_round.
Qed.

Lemma ready_node s i node :
  Inv s ->
  simulation_state s = ready ->
  nodes s !! i = Some node ->
  node = mkNode i (i =? 0) (is_faulty node) [] None.
Proof.
  intros HI Hph Hi.
  destruct (inv_ready s HI Hph) as (_ & _ & Hfresh).
  destruct (Hfresh i node Hi) as [Hlog Hdec].
  pose proof (inv_ids s HI i node Hi) as Hid.
  pose proof (inv_is_sender s HI i node Hi) as Hsender.
  destruct node; cbn in *. now subst.
Qed.

Lemma faulty_ids_spec s i node :
  Inv s ->
  nodes s !! i = Some node ->
  is_faulty node = true <-> In i (faulty_ids s).
Proof.
  intros HI Hi. unfold faulty_ids. rewrite in_map_iff. split.
  - intros Hf. exists node. split; [now apply (inv_ids s HI)|].
    apply filter_In. split; [|exact Hf].
    apply list_elem_of_In, list_elem_of_lookup. eauto.
  - intros (node' & Hid & Hin). apply filter_In in Hin as [Hin Hf].
    apply list_elem_of_In, list_elem_of_lookup in Hin as [j Hj].
    rewrite (inv_ids s HI j node' Hj) in Hid. subst j. congruence.
Qed.

(** C9.  Two runs of the window that stand in the ready phase with the
    same number of nodes, the same F, the same sender id and value and the
    same faulty ids go through the same states under the presses of "Next
    Round": after any number of presses the nodes, with their message logs
    and final decisions, the messages of the round, the round counter and
    the phase coincide. *)
Theorem C9_determinism :
  forall s1 s2,
    reachable s1 -> reachable s2 ->
    simulation_state s1 = ready -> simulation_state s2 = ready ->
    length (nodes s1) = length (nodes s2) ->
    max_faulty s1 = max_faulty s2 ->
    sender_id s1 = sender_id s2 ->
    sender_value s1 = sender_value s2 ->
    faulty_ids s1 = faulty_ids s2 ->
    forall k,
      nodes (presses k s1) = nodes (presses k s2)
      /\ map message_log (nodes (presses k s1))
         = map message_log (nodes (presses k s2))
      /\ map final_decision (nodes (presses k s1))
         = map final_decision (nodes (presses k s2))
      /\ messages (presses k s1) = messages (presses k s2)
      /\ current_round (presses k s1) = current_round (presses k s2)
      /\ simulation_state (presses k s1) = simulation_state (presses k s2).
Proof.
  intros s1 s2 H1 H2 Hp1 Hp2 Hlen Ef Es Ev Eids k.
  apply Inv_reachable in H1 as HI1. apply Inv_reachable in H2 as HI2.
  assert (En : nodes s1 = nodes s2).
  { apply list_eq. intros i.
    destruct (nodes s1 !! i) as [n1|] eqn:E1.
    - destruct (lookup_lt_is_Some_2 (nodes s2) i) as [n2 E2].
      { rewrite <- Hlen. apply lookup_lt_is_Some. eauto. }
      rewrite E2, (ready_node s1 i n1 HI1 Hp1 E1),
        (ready_node s2 i n2 HI2 Hp2 E2).
      do 2 f_equal.
      pose proof (faulty_ids_spec s1 i n1 HI1 E1) as F1.
      pose proof (faulty_ids_spec s2 i n2 HI2 E2) as F2.
      rewrite Eids in F1.
      destruct (is_faulty n1), (is_faulty n2); try reflexivity.
      + symmetry. apply F2, F1. reflexivity.
      + apply F1, F2. reflexivity.
    - symmetry. apply lookup_ge_None. rewrite <- Hlen.
      now apply lookup_ge_None. }
  assert (Ha : agree s1 s2).
  { destruct (inv_ready s1 HI1 Hp1) as (Hr1 & Hm1 & _).
    destruct (inv_ready s2 HI2 Hp2) as (Hr2 & Hm2 & _).
    unfold agree. rewrite En, Ef, Es, Ev, Hr1, Hr2, Hm1, Hm2, Hp1, Hp2.
    now repeat split. }
  destruct (agree_presses k s1 s2 (inv_keys s1 HI1) Ha)
    as (En' & Em' & _ & _ & _ & Er' & Ep').
  rewrite En'. now repeat split.
Qed.

Lemma C9_determinism_witness :
  let s1 := step (step initial (ClickCanvas (Nat.eqb 2)))
              (ClickCanvas (Nat.eqb 0)) in
  let s2 := step (step (step (step initial (ClickCanvas (Nat.eqb 3)))
                          (ClickCanvas (Nat.eqb 3)))
                    (ClickCanvas (Nat.eqb 2)))
              (TypeN None) in
  s1 <> s2
  /\ faulty_ids s1 = [2]
  /\ nodes (presses 2 s1) = nodes (presses 2 s2).
Proof.
  cbv zeta. split; [discriminate|]. split; [reflexivity|].
  apply (C9_determinism
           (step (step initial (ClickCanvas (Nat.eqb 2)))
              (ClickCanvas (Nat.eqb 0)))
           (step (step (step (step initial (ClickCanvas (Nat.eqb 3)))
                          (ClickCanvas (Nat.eqb 3)))
                    (ClickCanvas (Nat.eqb 2)))
              (TypeN None))); try reflexivity.
  - repeat (apply reachable_step; [|exact I]). apply reachable_initial.
  - repeat (apply reachable_step; [|exact I]). apply reachable_initial.
Defined.

(** ** What the logs hold after the rounds *)

Section Rounds.
Variables (n sid : nat) (sv : Value) (fl : nat -> bool).

Lemma get_faulty_value_transmit node v q :
  is_faulty node = fl (id node) ->
  get_faulty_value node v q = transmit fl (id node) v q.
Proof.
  intros H. unfold get_faulty_value, transmit. rewrite <- H.
  now destruct (is_faulty node).
Qed.

Lemma addressed_spec q p m :
  addressed q p m = true <-> to_node m = q /\ path m = p.
Proof.
  unfold addressed. now rewrite andb_true_iff, Nat.eqb_eq, Path_eqb_eq.
Qed.

Lemma Logs_deliver r ns msgs :
  Logs n sid sv fl r ns ->
  (forall m, In m msgs ->
     valid n sid (to_node m) (path m)
     /\ length (path m) = r + 1
     /\ value m = held fl sv (rev (path m)) (to_node m)) ->
  (forall q p, q < n -> valid n sid q p -> length p = r + 1 ->
     exists m, In m msgs /\ to_node m = q /\ path m = p) ->
  Logs n sid sv fl (r + 1) (deliver msgs ns).
Proof.
  intros HL Hmsgs Hall. split.
  - rewrite deliver_length. apply HL.
  - intros i node' H.
    apply deliver_lookup in H as (node & H & -> & _ & -> & _).
    now apply (logs_ids _ _ _ _ _ _ HL).
  - apply deliver_keys. apply HL.
  - intros i node' p v H Hentry.
    apply deliver_lookup in H as (node & H & _ & _ & _ & _ & Hlog).
    destruct (Hlog p v Hentry) as [Hold|(m & Hm & <- & <- & _)].
    + destruct (logs_sound _ _ _ _ _ _ HL i node p v H Hold).
      split; [assumption|lia].
    + destruct (Hmsgs m Hm) as (Hv & Hlen & _). split; [assumption|lia].
  - intros i node' p H' Hv Hlen.
    destruct (deliver_lookup _ _ _ _ H') as (node & H & _).
    rewrite (deliver_log_get msgs ns i node node' p
               (held fl sv (rev p) i) H H').
    + destruct (existsb (addressed i p) msgs) eqn:E; [reflexivity|].
      apply (logs_complete _ _ _ _ _ _ HL); try assumption.
      destruct (Nat.eq_dec (length p) (r + 1)) as [Hr|Hr]; [|lia].
      exfalso.
      destruct (Hall i p) as (m & Hm & Hto & Hp); try assumption.
      { rewrite <- (logs_length _ _ _ _ _ _ HL).
        apply lookup_lt_is_Some. eauto. }
      assert (existsb (addressed i p) msgs = true); [|congruence].
      apply existsb_exists. exists m. split; [exact Hm|].
      now apply addressed_spec.
    + intros m Hm Ha. apply addressed_spec in Ha as [<- <-].
      now apply Hmsgs.
  - apply deliver_keys_ok; [|apply HL].
    intros m Hm E. destruct (Hmsgs m Hm) as (_ & Hlen & _).
    rewrite E in Hlen. cbn in Hlen. lia.
Qed.

Lemma Logs_round1 ns sender :
  Logs n sid sv fl 0 ns ->
  ns !! sid = Some sender ->
  Logs n sid sv fl 1 (deliver (round1_msgs ns sid sv sender) ns).
Proof.
  intros HL Hsender.
  destruct (logs_ids _ _ _ _ _ _ HL sid sender Hsender) as [Hsid Hsf].
  assert (Hlt : sid < n).
  { rewrite <- (logs_length _ _ _ _ _ _ HL). apply lookup_lt_is_Some. eauto. }
  apply (Logs_deliver 0); [exact HL| |].
  - intros m Hin. unfold round1_msgs in Hin.
    apply in_flat_map in Hin as ([i node] & Hnode & Hm).
    apply in_enumerate in Hnode.
    destruct (logs_ids _ _ _ _ _ _ HL i node Hnode) as [Hid _].
    rewrite Hid, Hsid in Hm.
    destruct (Nat.eqb_spec i sid) as [E|E]; [destruct Hm|].
    destruct Hm as [<-|[]]. cbn. repeat split.
    + constructor; [easy|constructor].
    + intros [H|[]]. now apply E.
    + constructor; [exact Hlt|constructor].
    + rewrite get_faulty_value_transmit by now rewrite Hsid.
      now rewrite Hsid.
  - intros q p Hq ((Hnd & Hown & Hhd) & Hall) Hlen.
    destruct p as [|x [|y p]]; try discriminate.
    injection Hhd as ->.
    destruct (lookup_lt_is_Some_2 ns q) as [node Hnode].
    { now rewrite (logs_length _ _ _ _ _ _ HL). }
    destruct (logs_ids _ _ _ _ _ _ HL q node Hnode) as [Hid _].
    exists (mkMessage sid q (get_faulty_value sender sv q) [sid]).
    repeat split. unfold round1_msgs. apply in_flat_map.
    exists (q, node). split; [now apply in_enumerate|].
    rewrite Hid, Hsid.
    destruct (Nat.eqb_spec q sid) as [->|_]; [|now left].
    exfalso. apply Hown. now left.
Qed.

Lemma relay_msgs_intro ns r si sender_node p v ri receiver_node :
  ns !! si = Some sender_node ->
  In (p, v) (entries (message_log sender_node)) ->
  length p = r - 1 ->
  ns !! ri = Some receiver_node ->
  eligible (id sender_node) p (id receiver_node) = true ->
  In (mkMessage si ri
        (get_faulty_value sender_node v (id receiver_node))
        (p ++ [id sender_node]))
     (relay_msgs ns r).
Proof.
  intros Hsender Hentry Hlen Hreceiver He. unfold relay_msgs.
  apply in_flat_map. exists (si, sender_node).
  split; [now apply in_enumerate|].
  apply in_flat_map. exists (p, v). split; [exact Hentry|].
  apply Nat.eqb_eq in Hlen. rewrite Hlen.
  apply in_flat_map. exists (ri, receiver_node).
  split; [now apply in_enumerate|]. rewrite He. now left.
Qed.

Lemma valid_snoc q p j :
  valid n sid j p -> j < n -> q <> j -> ~ In q p -> valid n sid q (p ++ [j]).
Proof.
  intros [Hok Hall] Hj Hne Hq. split.
  - now apply path_ok_snoc.
  - apply Forall_app. split; [exact Hall|]. now repeat constructor.
Qed.

Lemma valid_snoc_inv q p j :
  valid n sid q (p ++ [j]) -> p <> [] ->
  valid n sid j p /\ j < n /\ q <> j /\ ~ In q p.
Proof.
  intros [(Hnd & Hown & Hhd) Hall] Hp.
  apply Forall_app in Hall as [Hall Hj].
  apply List.NoDup_remove in Hnd as [Hnd Hnot].
  rewrite app_nil_r in Hnd, Hnot.
  rewrite in_app_iff in Hown.
  repeat split; try assumption.
  - destruct p; [easy|exact Hhd].
  - now inversion Hj.
  - intros ->. apply Hown. right. now left.
  - intros H. apply Hown. now left.
Qed.

Lemma Logs_relay r ns :
  Logs n sid sv fl r ns ->
  1 <= r ->
  Logs n sid sv fl (r + 1) (deliver (relay_msgs ns (r + 1)) ns).
Proof.
  intros HL Hr. apply Logs_deliver; [exact HL| |].
  - intros m Hin.
    apply relay_msgs_shape in Hin
      as (si & sender_node & p & v & ri & receiver_node
          & Hsender & Hentry & Hlen & Hreceiver & He & ->).
    destruct (logs_ids _ _ _ _ _ _ HL si sender_node Hsender) as [Hsi Hsf].
    destruct (logs_ids _ _ _ _ _ _ HL ri receiver_node Hreceiver) as [Hri _].
    destruct (logs_sound _ _ _ _ _ _ HL si sender_node p v Hsender Hentry)
      as [Hv Hle].
    rewrite Hsi, Hri in He. apply eligible_spec in He as [Hne Hnot].
    assert (Hsi_lt : si < n).
    { rewrite <- (logs_length _ _ _ _ _ _ HL).
      apply lookup_lt_is_Some. eauto. }
    cbn [to_node path value]. rewrite Hsi, Hri. split; [|split].
    + now apply valid_snoc.
    + rewrite length_app. cbn. lia.
    + rewrite rev_unit. cbn [held].
      rewrite get_faulty_value_transmit, Hsi by now rewrite Hsi.
      f_equal.
      pose proof (logs_complete _ _ _ _ _ _ HL si sender_node p
                    Hsender Hv Hle) as Hget.
      rewrite (In_log_get _ p v) in Hget; [congruence| | |exact Hentry].
      * now apply (logs_canon _ _ _ _ _ _ HL si).
      * now apply (logs_keys _ _ _ _ _ _ HL si).
  - intros q p Hq Hv Hlen.
    destruct (exists_last (l := p)) as (p' & j & ->).
    { intros ->. cbn in Hlen. lia. }
    rewrite length_app in Hlen. cbn in Hlen.
    apply valid_snoc_inv in Hv as (Hv' & Hj & Hne & Hnot).
    2: { intros ->. cbn in Hlen. lia. }
    destruct (lookup_lt_is_Some_2 ns j) as [node_j Hnode_j].
    { now rewrite (logs_length _ _ _ _ _ _ HL). }
    destruct (lookup_lt_is_Some_2 ns q) as [node_q Hnode_q].
    { now rewrite (logs_length _ _ _ _ _ _ HL). }
    destruct (logs_ids _ _ _ _ _ _ HL j node_j Hnode_j) as [Hidj _].
    destruct (logs_ids _ _ _ _ _ _ HL q node_q Hnode_q) as [Hidq _].
    pose proof (logs_complete _ _ _ _ _ _ HL j node_j p' Hnode_j Hv'
                  ltac:(lia)) as Hget.
    apply log_get_In in Hget; [|intros ->; cbn in Hlen; lia].
    exists (mkMessage j q
              (get_faulty_value node_j (held fl sv (rev p') j) (id node_q))
              (p' ++ [id node_j])).
    split; [|cbn; now rewrite Hidj].
    apply relay_msgs_intro; try assumption; [lia|].
    rewrite Hidj, Hidq. now apply eligible_spec.
Qed.

Lemma Logs_decide r ns F :
  Logs n sid sv fl r ns ->
  Logs n sid sv fl r (map (decide_one F sid ns) ns).
Proof.
  intros HL.
  assert (Hlook : forall i node',
             map (decide_one F sid ns) ns !! i = Some node' ->
             exists node,
               ns !! i = Some node
               /\ id node' = id node
               /\ is_faulty node' = is_faulty node
               /\ message_log node' = message_log node).
  { intros i node'. rewrite lookup_map.
    destruct (ns !! i) as [node|]; [|discriminate].
    cbn. intros [= <-]. exists node.
    now rewrite decide_one_id, decide_one_is_faulty, decide_one_message_log. }
  split.
  - rewrite length_map. apply HL.
  - intros i node' H. apply Hlook in H as (node & H & -> & -> & _).
    now apply (logs_ids _ _ _ _ _ _ HL).
  - intros i node' H. apply Hlook in H as (node & H & _ & _ & ->).
    now apply (logs_keys _ _ _ _ _ _ HL i).
  - intros i node' p v H. apply Hlook in H as (node & H & _ & _ & ->).
    now apply (logs_sound _ _ _ _ _ _ HL).
  - intros i node' p H. apply Hlook in H as (node & H & _ & _ & ->).
    now apply (logs_complete _ _ _ _ _ _ HL).
  - intros i node' H. apply Hlook in H as (node & H & _ & _ & ->).
    now apply (logs_canon _ _ _ _ _ _ HL i).
Qed.
End Rounds.

(** ** The majority over the relays of one value *)

Lemma occurrences_app x l1 l2 :
  occurrences x (l1 ++ l2) = occurrences x l1 + occurrences x l2.
Proof. unfold occurrences. now rewrite List.filter_app, length_app. Qed.

Lemma votes_few_bad v0 (g : nat -> list (option Value)) (elig bad : nat -> bool) l :
  (forall k, In k l -> elig k = true -> bad k = false -> g k = [Some v0]) ->
  (forall k, In k l -> elig k = true -> exists x, g k = [x]) ->
  (forall k, In k l -> elig k = false -> g k = []) ->
  length (flat_map g l) = length (List.filter elig l)
  /\ length (List.filter elig l)
     <= occurrences v0 (flat_map g l) + length (List.filter bad l).
Proof.
  intros Hgood Hone Hnone.
  induction l as [|k l IH]; [split; reflexivity|].
  destruct IH as [IHlen IHocc].
  { intros k' Hin. apply Hgood. now right. }
  { intros k' Hin. apply Hone. now right. }
  { intros k' Hin. apply Hnone. now right. }
  cbn [flat_map List.filter]. rewrite length_app, occurrences_app.
  destruct (elig k) eqn:Ek.
  - destruct (bad k) eqn:Bk.
    + destruct (Hone k (or_introl eq_refl) Ek) as [x ->]. cbn [length].
      split; [lia|]. lia.
    + rewrite (Hgood k (or_introl eq_refl) Ek Bk). cbn [length].
      split; [lia|].
      assert (occurrences v0 [Some v0] = 1) as ->; [|lia].
      unfold occurrences. cbn. now destruct v0.
  - rewrite (Hnone k (or_introl eq_refl) Ek). cbn [length].
    split; [lia|]. destruct (bad k); cbn [length]; lia.
Qed.

Lemma get_majority_few_bad v0 (g : nat -> list (option Value))
    (elig bad : nat -> bool) l :
  (forall k, In k l -> elig k = true -> bad k = false -> g k = [Some v0]) ->
  (forall k, In k l -> elig k = true -> exists x, g k = [x]) ->
  (forall k, In k l -> elig k = false -> g k = []) ->
  2 * length (List.filter bad l) < 1 + length (List.filter elig l) ->
  get_majority (Some v0 :: flat_map g l) = v0.
Proof.
  intros Hgood Hone Hnone Hcount.
  destruct (votes_few_bad v0 g elig bad l Hgood Hone Hnone) as [Hlen Hocc].
  pose proof (occurrences_total (flat_map g l)) as Htot.
  destruct v0.
  - apply get_majority_Attack.
    change (Some Attack :: flat_map g l) with ([Some Attack] ++ flat_map g l).
    rewrite occurrences_app, length_app.
    change (occurrences Attack [Some Attack]) with 1. cbn [length]. lia.
  - apply get_majority_Retreat.
    change (Some Retreat :: flat_map g l) with ([Some Retreat] ++ flat_map g l).
    rewrite occurrences_app, length_app.
    change (occurrences Attack [Some Retreat]) with 0. cbn [length]. lia.
Qed.

(** Of the ids below [n], all but [q] and those on [p] are eligible. *)
Lemma eligible_count n q p :
  n <= length (List.filter (eligible q p) (seq 0 n)) + 1 + length p.
Proof.
  pose proof (List.filter_length (eligible q p) (seq 0 n)) as Hsum.
  rewrite length_seq in Hsum.
  assert (H : length (List.filter (fun k => negb (eligible q p k)) (seq 0 n))
              <= length (q :: p)).
  { apply List.NoDup_incl_length.
    - apply List.NoDup_filter, List.seq_NoDup.
    - intros k Hk. apply List.filter_In in Hk as [_ Hk].
      apply negb_true_iff in Hk.
      destruct (Nat.eq_dec k q) as [->|Hne]; [now left|]. right.
      destruct (in_dec Nat.eq_dec k p) as [Hin|Hnot]; [exact Hin|].
      assert (eligible q p k = true) by now apply eligible_spec.
      congruence. }
  cbn [length] in H. lia.
Qed.

(** ** The lieutenants' decisions *)

Section Decisions.
Variables (n f sid : nat) (sv : Value) (fl : nat -> bool).
Hypothesis enough_nodes : 3 * f + 1 <= n.
Hypothesis few_faulty : length (List.filter fl (seq 0 n)) <= f.

Variable ns : list Node.
Hypothesis HL : Logs n sid sv fl (f + 1) ns.

Lemma Logs_ids_seq : map id ns = seq 0 n.
Proof using HL.
  apply list_eq. intros i. rewrite lookup_map.
  destruct (ns !! i) as [node|] eqn:E; cbn.
  - destruct (logs_ids _ _ _ _ _ _ HL i node E) as [-> _].
    rewrite lookup_seq_lt; [reflexivity|].
    rewrite <- (logs_length _ _ _ _ _ _ HL). apply lookup_lt_is_Some. eauto.
  - rewrite lookup_seq_ge; [reflexivity|].
    rewrite <- (logs_length _ _ _ _ _ _ HL). now apply lookup_ge_None.
Qed.

Lemma held_honest j rp q :
  fl j = false -> held fl sv (j :: rp) q = held fl sv rp j.
Proof using Type. intros H. cbn [held]. unfold transmit. now rewrite H. Qed.

(** A value relayed last by an honest node is what the majority over its
    relays gives back: the honest relays repeat it, and they outnumber
    the faulty ones. *)
Lemma resolve_honest m :
  forall p j q node,
    ns !! q = Some node ->
    valid n sid q p ->
    length p + m = f + 1 ->
    hd_error (rev p) = Some j ->
    fl j = false ->
    resolve (seq 0 n) q (message_log node) p m
    = Some (held fl sv (rev p) q).
Proof using enough_nodes few_faulty HL.
  induction m as [|m IH]; intros p j q node Hq Hv Hlen Hlast Hj.
  - cbn [resolve]. apply (logs_complete _ _ _ _ _ _ HL); [assumption..|lia].
  - cbn [resolve].
    rewrite (logs_complete _ _ _ _ _ _ HL q node p Hq Hv) by lia.
    f_equal.
    assert (Hchild : forall k, In k (seq 0 n) -> eligible q p k = true ->
              valid n sid q (p ++ [k])).
    { intros k Hk He. apply in_seq in Hk.
      apply eligible_spec in He as [Hne Hnot].
      destruct Hv as [(Hnd & Hown & Hhd) Hall].
      apply valid_snoc; try assumption; try lia.
      now repeat split. }
    assert (Hmem : forall k, In k (seq 0 n) -> eligible q p k = true ->
              log_mem (message_log node) (p ++ [k]) = true).
    { intros k Hk He. unfold log_mem, dict_mem.
      change (dict_get (message_log node) (join_ids (p ++ [k])))
        with (log_get (message_log node) (p ++ [k])).
      rewrite (logs_complete _ _ _ _ _ _ HL q node (p ++ [k]) Hq);
        [reflexivity|now apply Hchild|].
      rewrite length_app. cbn. lia. }
    apply (get_majority_few_bad _ _ (eligible q p) fl).
    + intros k Hk He Hfk. rewrite He, (Hmem k Hk He). cbn [andb].
      rewrite (IH (p ++ [k]) k q node); try assumption.
      * rewrite rev_unit, held_honest by exact Hfk.
        destruct (rev p) as [|j' rp]; [discriminate|].
        injection Hlast as ->. now rewrite !held_honest.
      * now apply Hchild.
      * rewrite length_app. cbn. lia.
      * now rewrite rev_unit.
    + intros k Hk He. rewrite He, (Hmem k Hk He). cbn [andb]. eauto.
    + intros k Hk He. now rewrite He.
    + pose proof (eligible_count n q p). lia.
Qed.
End Decisions.

(** ** The logs along a run *)

Section Run.
Variables (n : nat) (fl : nat -> bool).

Lemma round_Logs s :
  Logs n (sender_id s) (sender_value s) fl (current_round s) (nodes s) ->
  current_round s <= max_faulty s ->
  sender_id s < n ->
  exists msgs,
    round_messages s = Some msgs
    /\ Logs n (sender_id s) (sender_value s) fl (current_round s + 1)
         (round_nodes s msgs).
Proof.
  intros HL Hr Hsid. unfold round_messages, round_nodes. cbv zeta.
  assert (Hdecide : forall msgs,
             Logs n (sender_id s) (sender_value s) fl (current_round s + 1)
               (deliver msgs (nodes s)) ->
             Logs n (sender_id s) (sender_value s) fl (current_round s + 1)
               (if max_faulty s <? current_round s + 1
                then map (decide_one (max_faulty s) (sender_id s)
                            (deliver msgs (nodes s)))
                       (deliver msgs (nodes s))
                else deliver msgs (nodes s))).
  { intros msgs H. destruct (max_faulty s <? current_round s + 1);
      [now apply Logs_decide|exact H]. }
  destruct (Nat.eqb_spec (current_round s + 1) 1) as [E|E].
  - destruct (lookup_lt_is_Some_2 (nodes s) (sender_id s)) as [sender Hs].
    { now rewrite (logs_length _ _ _ _ _ _ HL). }
    rewrite Hs. eexists. split; [reflexivity|]. apply Hdecide.
    assert (E0 : current_round s = 0) by lia. rewrite E0 in *.
    now apply Logs_round1.
  - destruct (Nat.leb_spec (current_round s + 1) (max_faulty s + 1)); [|lia].
    eexists. split; [reflexivity|]. apply Hdecide.
    apply Logs_relay; [exact HL|lia].
Qed.

Lemma advance_Logs k :
  forall s,
    (1 <= k -> simulation_state s = ready \/ simulation_state s = running) ->
    Logs n (sender_id s) (sender_value s) fl (current_round s) (nodes s) ->
    sender_id s < n ->
    current_round s + k <= max_faulty s + 1 ->
    exists s',
      advance k s = Some s'
      /\ Logs n (sender_id s) (sender_value s) fl (current_round s + k)
           (nodes s')
      /\ max_faulty s' = max_faulty s
      /\ sender_id s' = sender_id s
      /\ sender_value s' = sender_value s
      /\ current_round s' = current_round s + k
      /\ (1 <= k ->
          current_round s + k = max_faulty s + 1 ->
          simulation_state s' = finished
          /\ forall node,
               In node (nodes s') ->
               is_faulty node = false ->
               final_decision node
               = resolve_decision (nodes s') node [sender_id s]
                   (max_faulty s)).
Proof.
  induction k as [|k IH]; intros s Hph HL Hsid Hk.
  - exists s. rewrite Nat.add_0_r.
    repeat (split; [assumption || reflexivity|]). intros H. lia.
  - destruct (round_Logs s HL ltac:(lia) Hsid) as (msgs & Hmsgs & HL1).
    destruct (run_next_round_fields s msgs (logs_canon _ _ _ _ _ _ HL)
                (Hph ltac:(lia)) Hmsgs)
      as (s1 & E1 & Hn1 & Hp1 & _ & Hr1 & Hf1 & Hs1 & Hv1 & _).
    destruct (IH s1) as (s' & E & HL' & Hf' & Hs' & Hv' & Hr' & Hdec).
    + intros Hk'. right. rewrite Hp1. unfold round_phase.
      destruct (Nat.ltb_spec (max_faulty s) (current_round s + 1));
        [lia|reflexivity].
    + now rewrite Hn1, Hs1, Hv1, Hr1.
    + now rewrite Hs1.
    + lia.
    + clear IH. exists s'. cbn [advance]. rewrite E1.
      rewrite Hs1, Hv1, Hr1, Hf1 in *.
      replace (current_round s + S k) with (current_round s + 1 + k) by lia.
      repeat (split; [assumption || congruence|]).
      intros _ Hlast.
      destruct (Nat.eq_dec k 0) as [->|Hk0]; [|apply Hdec; lia].
      cbn in E. injection E as <-. split.
      * rewrite Hp1. unfold round_phase.
        destruct (Nat.ltb_spec (max_faulty s) (current_round s + 1));
          [reflexivity|lia].
      * rewrite Hn1. intros node Hin Hfaulty.
        apply round_nodes_decisions; [lia|assumption|assumption].
Qed.
End Run.

Lemma faulty_at_count ns :
  length (List.filter (faulty_at ns) (seq 0 (length ns)))
  = length (List.filter is_faulty ns).
Proof.
  induction ns as [|node ns IH] using rev_ind; [reflexivity|].
  rewrite length_app. cbn [length]. rewrite Nat.add_1_r, seq_S.
  rewrite !List.filter_app, !length_app, <- IH. cbn [Nat.add List.filter].
  f_equal.
  - f_equal. apply List.filter_ext_in. intros i Hi. apply in_seq in Hi.
    unfold faulty_at. rewrite lookup_app_l by lia. reflexivity.
  - unfold faulty_at at 1. rewrite list_lookup_middle by reflexivity.
    now destruct (is_faulty node).
Qed.

Lemma Logs_fresh ns sid sv :
  (forall i node, ns !! i = Some node -> id node = i /\ message_log node = []) ->
  Logs (length ns) sid sv (faulty_at ns) 0 ns.
Proof.
  intros Hfresh. split.
  - reflexivity.
  - intros i node H. split; [now apply Hfresh|].
    unfold faulty_at. now rewrite H.
  - intros i node H. destruct (Hfresh i node H) as [_ ->]. constructor.
  - intros i node p v H Hin. destruct (Hfresh i node H) as [_ E].
    rewrite E in Hin. destruct Hin.
  - intros i node p H [(_ & _ & Hhd) _] Hlen.
    destruct p; [discriminate|cbn in Hlen; lia].
  - intros i node H. destruct (Hfresh i node H) as [_ E].
    rewrite E. intros path_str v [].
Qed.

(** The order of an honest sender reaches every honest lieutenant: from a
    ready state whose nodes are numbered by position with empty logs, with
    at least 3F+1 nodes, at most F of them faulty and the sender not
    faulty, the F+1 presses of "Next Round" end in the phase [finished],
    and every node that is not faulty, other than the sender, has the
    sender's value as its [final_decision]. *)
Theorem lieutenants_decide_sender_value s :
  simulation_state s = ready ->
  current_round s = 0 ->
  (forall i node,
      nodes s !! i = Some node -> id node = i /\ message_log node = []) ->
  (exists sender,
      nodes s !! sender_id s = Some sender /\ is_faulty sender = false) ->
  length (List.filter is_faulty (nodes s)) <= max_faulty s ->
  3 * max_faulty s + 1 <= length (nodes s) ->
  exists sF,
    advance (max_faulty s + 1) s = Some sF
    /\ simulation_state sF = finished
    /\ forall node,
         In node (nodes sF) ->
         is_faulty node = false ->
         id node <> sender_id s ->
         final_decision node = Some (sender_value s).
Proof.
  intros Hph Hr Hfresh (sender & Hsender & Hhonest) Hfew Hn.
  set (n := length (nodes s)) in *.
  set (fl := faulty_at (nodes s)).
  assert (Hsid : sender_id s < n).
  { apply lookup_lt_is_Some. eauto. }
  assert (HL0 : Logs n (sender_id s) (sender_value s) fl (current_round s)
                  (nodes s)).
  { rewrite Hr. now apply Logs_fresh. }
  destruct (advance_Logs n fl (max_faulty s + 1) s)
    as (sF & E & HL & _ & _ & _ & _ & Hdec); [now left|exact HL0|exact Hsid|lia|].
  rewrite Hr in HL, Hdec. cbn [Nat.add] in HL, Hdec.
  destruct Hdec as [HphF Hdec]; [lia|reflexivity|].
  exists sF. split; [exact E|]. split; [exact HphF|].
  intros node Hin Hfaulty Hne.
  rewrite (Hdec node Hin Hfaulty), resolve_decision_resolve.
  rewrite (Logs_ids_seq n (max_faulty s) (sender_id s) (sender_value s) fl
             (nodes sF) HL).
  apply list_elem_of_In, list_elem_of_lookup in Hin as [q Hq].
  destruct (logs_ids _ _ _ _ _ _ HL q node Hq) as [Hid Hflq].
  assert (Hq_lt : q < n).
  { rewrite <- (logs_length _ _ _ _ _ _ HL). apply lookup_lt_is_Some. eauto. }
  assert (Hfl_sender : fl (sender_id s) = false).
  { unfold fl, faulty_at. now rewrite Hsender. }
  rewrite Hid in *.
  rewrite (resolve_honest n (max_faulty s) (sender_id s) (sender_value s) fl
             Hn ltac:(unfold fl, n; now rewrite faulty_at_count)
             (nodes sF) HL (max_faulty s) [sender_id s] (sender_id s) q node);
    try assumption; try reflexivity.
  - cbn [rev app held]. unfold transmit. now rewrite Hfl_sender.
  - split; [|now repeat constructor]. repeat split.
    + constructor; [easy|constructor].
    + intros [H|[]]. now apply Hne.
  - cbn. lia.
Qed.

Lemma lieutenants_decide_sender_value_witness :
  exists sF,
    advance 2 initial = Some sF
    /\ simulation_state sF = finished
    /\ forall node,
         In node (nodes sF) ->
         is_faulty node = false ->
         id node <> 0 ->
         final_decision node = Some Attack.
Proof.
  apply (lieutenants_decide_sender_value initial); try reflexivity.
  - intros [|[|[|[|i]]]] node; cbn; intros [= <-] || discriminate; now split.
  - eexists. split; reflexivity.
  - vm_compute. lia.
Defined.

(** ** Size and quota of the configurations the window accepts *)

Lemma filter_insert_count {A} (P : A -> bool) (l : list A) i x y :
  l !! i = Some x ->
  length (List.filter P (<[i := y]> l)) + (if P x then 1 else 0)
  = length (List.filter P l) + (if P y then 1 else 0).
Proof.
  revert i. induction l as [|z l IH]; intros [|i] H; try discriminate.
  - injection H as ->. cbn. destruct (P x), (P y); cbn; lia.
  - cbn in H. specialize (IH i H). cbn.
    destruct (P z); cbn; [f_equal|]; exact IH.
Qed.

Lemma filter_none {A} (P : A -> bool) (l : list A) :
  (forall x, In x l -> P x = false) -> List.filter P l = [].
Proof.
  intros H. induction l as [|x l IH]; [reflexivity|].
  cbn. rewrite (H x (or_introl eq_refl)). apply IH.
  intros y Hy. apply H. now right.
Qed.

Lemma fresh_nodes_length n sid : length (fresh_nodes n sid) = n.
Proof. unfold fresh_nodes. now rewrite length_insert, length_map, length_seq. Qed.

Lemma fresh_nodes_honest n sid :
  sid < n -> List.filter is_faulty (fresh_nodes n sid) = [].
Proof.
  intros Hsid. apply filter_none. intros node Hin.
  apply list_elem_of_In, list_elem_of_lookup in Hin as [i Hi].
  rewrite lookup_fresh_nodes in Hi by exact Hsid.
  destruct (i <? n); [|discriminate]. now injection Hi as <-.
Qed.

Lemma round_nodes_length s msgs :
  length (round_nodes s msgs) = length (nodes s).
Proof.
  unfold round_nodes. cbv zeta.
  destruct (max_faulty s <? current_round s + 1);
    now rewrite ?length_map, deliver_length.
Qed.

Lemma Quota_update_ui_state s : Quota s -> Quota (update_ui_state s).
Proof.
  unfold update_ui_state. now destruct (is_error (sim_state_label s)).
Qed.

Lemma Quota_setup_simulation s :
  sender_id s = 0 -> Quota (state_of (setup_simulation s)).
Proof.
  intros Hsid.
  destruct (n_var s) as [n_input|] eqn:Hn.
  - destruct (Z.ltb_spec n_input (Z.of_nat (3 * f_var s + 1))) as [Hlt|Hge].
    + rewrite (setup_simulation_too_small s n_input Hn Hlt).
      split; [now left|]. intros _. now left.
    + rewrite (setup_simulation_accepts s n_input Hn Hge) by lia.
      cbn [state_of]. apply Quota_update_ui_state.
      unfold Quota. cbn. rewrite Hsid.
      rewrite fresh_nodes_length, fresh_nodes_honest by lia.
      split; [right; lia|]. intros _. right. cbn. split; [reflexivity|lia].
  - rewrite (setup_simulation_not_a_number s Hn).
    split; [now left|]. intros _. now left.
Qed.

Lemma Quota_on_canvas_click hit s :
  Quota s -> Quota (on_canvas_click hit s).
Proof.
  intros HQ. unfold on_canvas_click.
  destruct (simulation_state s) eqn:Hph; try exact HQ.
  destruct (find _ _) as [[i node]|] eqn:Hfind; [|exact HQ].
  apply find_enumerate in Hfind as [Hnode _].
  destruct (is_sender node); [exact HQ|].
  destruct HQ as [Hsize Hquota].
  assert (Hne : nodes s <> []).
  { intros E. rewrite E in Hnode. discriminate. }
  destruct Hsize as [E|Hsize]; [easy|].
  destruct (Hquota Hph) as [E|[Hc Hle]]; [easy|].
  destruct (is_faulty node) eqn:Hf.
  - apply Quota_update_ui_state. unfold Quota. cbn. rewrite length_insert.
    split; [now right|]. intros _. right.
    pose proof (filter_insert_count is_faulty (nodes s) i node
                  (set_is_faulty false node) Hnode) as Hcount.
    rewrite Hf in Hcount. cbn in Hcount. lia.
  - destruct (Z.ltb_spec (current_faulty s) (Z.of_nat (max_faulty s)))
      as [Hlt|Hge].
    + apply Quota_update_ui_state. unfold Quota. cbn. rewrite length_insert.
      split; [now right|]. intros _. right.
      pose proof (filter_insert_count is_faulty (nodes s) i node
                    (set_is_faulty true node) Hnode) as Hcount.
      rewrite Hf in Hcount. cbn in Hcount. lia.
    + apply Quota_update_ui_state. split; [now right|]. intros _. now right.
Qed.

Lemma Quota_run_next_round s :
  keys_ok_nodes (nodes s) -> Quota s -> Quota (state_of (run_next_round s)).
Proof.
  intros Hk HQ.
  assert (Hcases : simulation_state s = ready \/ simulation_state s = running
                   \/ run_next_round s = Returned s).
  { unfold run_next_round. destruct (simulation_state s); auto. }
  destruct Hcases as [Hph|[Hph| ->]]; [| |exact HQ].
  all: assert (Hrr : simulation_state s = ready \/ simulation_state s = running)
         by auto.
  all: destruct (round_messages s) as [msgs|] eqn:Hmsgs.
  1, 3: destruct (run_next_round_fields s msgs Hk Hrr Hmsgs)
         as (s' & -> & Hn & Hp & _ & _ & Hf & _);
       cbn [state_of]; unfold Quota;
       rewrite Hn, Hp, Hf, round_nodes_length; unfold round_phase;
       (split;
        [destruct HQ as [[E|H] _];
         [left; apply length_zero_iff_nil;
          now rewrite round_nodes_length, E|now right]
        |now destruct (max_faulty s <? current_round s + 1)]).
  all: rewrite (run_next_round_raises s Hk Hrr Hmsgs); cbn [state_of];
    split; [apply HQ|discriminate].
Qed.

Lemma Quota_reachable s : reachable s -> Quota s.
Proof.
  induction 1 as [|s e Hs IH He].
  - unfold initial, on_f_changed. now apply Quota_setup_simulation.
  - apply Inv_reachable in Hs as HI. unfold step.
    destruct e as [f|n|v| | |hit]; cbn [handle].
    + unfold on_f_changed. apply Quota_setup_simulation. apply HI.
    + exact IH.
    + exact IH.
    + apply Quota_setup_simulation. apply HI.
    + apply Quota_run_next_round; [apply HI|exact IH].
    + cbn [state_of]. now apply Quota_on_canvas_click.
Qed.

(** From every ready state the window can reach with its nodes in place,
    the run ends with every honest lieutenant on the sender's value. *)
Theorem reachable_lieutenants_decide_sender_value s :
  reachable s ->
  simulation_state s = ready ->
  nodes s <> [] ->
  exists sF,
    advance (max_faulty s + 1) s = Some sF
    /\ simulation_state sF = finished
    /\ forall node,
         In node (nodes sF) ->
         is_faulty node = false ->
         id node <> sender_id s ->
         final_decision node = Some (sender_value s).
Proof.
  intros Hs Hph Hne.
  apply Inv_reachable in Hs as HI. apply Quota_reachable in Hs as [Hsize Hq].
  destruct (inv_ready s HI Hph) as (Hr & _ & Hfresh).
  destruct Hsize as [E|Hsize]; [easy|].
  destruct (Hq Hph) as [E|[_ Hfew]]; [easy|].
  apply lieutenants_decide_sender_value; try assumption.
  - intros i node H. split; [now apply (inv_ids s HI)|now apply (Hfresh i)].
  - rewrite (inv_sender_id s HI).
    destruct (lookup_lt_is_Some_2 (nodes s) 0) as [sender Hsender]; [lia|].
    exists sender. split; [exact Hsender|].
    now apply (inv_sender_honest s HI).
Qed.

Lemma reachable_lieutenants_decide_sender_value_witness :
  let s := step (step (step initial (SelectF 2)) (ClickCanvas (Nat.eqb 3)))
             (ChooseValue Retreat) in
  exists sF,
    advance 3 s = Some sF
    /\ simulation_state sF = finished
    /\ forall node,
         In node (nodes sF) ->
         is_faulty node = false ->
         id node <> 0 ->
         final_decision node = Some Attack.
Proof.
  cbv zeta.
  apply (reachable_lieutenants_decide_sender_value
           (step (step (step initial (SelectF 2)) (ClickCanvas (Nat.eqb 3)))
              (ChooseValue Retreat))).
  - repeat (apply reachable_step; [|exact I || (right; now left)]).
    apply reachable_initial.
  - reflexivity.
  - discriminate.
Defined.

(** ** The decisions at the end of a run *)

(** C1 at the failing input.  The window as it opens (N = 4, F = 1, sender
    value ['Attack'], no faulty node), after the two presses of "Next
    Round" that finish the run: no node is faulty, the three lieutenants
    decide ['Attack'], and the sender itself holds ['Retreat'] as its
    [final_decision], not the value it sent. *)
Theorem C1_honest_sender_decision_differs :
  let s := presses 2 initial in
  simulation_state s = finished
  /\ sender_value s = Attack
  /\ map is_faulty (nodes s) = [false; false; false; false]
  /\ map is_sender (nodes s) = [true; false; false; false]
  /\ map final_decision (nodes s)
     = [Some Retreat; Some Attack; Some Attack; Some Attack]
  /\ exists node,
       In node (nodes s)
       /\ is_faulty node = false
       /\ final_decision node <> Some (sender_value s).
Proof.
  cbv zeta. repeat (split; [vm_compute; reflexivity|]).
  exists (mkNode 0 true false [] (Some Retreat)).
  split; [vm_compute; now left|].
  split; [reflexivity|vm_compute; discriminate].
Qed.

(** C2 at the failing input.  With F = 2, N = 7, sender value ['Attack']
    and the nodes 2 and 5 made faulty, the three presses of "Next Round"
    finish the run with the honest lieutenants on ['Attack'] and the
    sender, which is not faulty either, on ['Retreat']: two nodes that are
    not faulty end with different decisions. *)
Theorem C2_honest_nodes_disagree :
  let s := presses 3
             (step (step (step initial (SelectF 2)) (ClickCanvas (Nat.eqb 2)))
                (ClickCanvas (Nat.eqb 5))) in
  simulation_state s = finished
  /\ length (nodes s) = 7
  /\ max_faulty s = 2
  /\ faulty_ids s = [2; 5]
  /\ map final_decision (nodes s)
     = [Some Retreat; Some Attack; None; Some Attack; Some Attack; None;
        Some Attack]
  /\ exists node1 node2,
       In node1 (nodes s) /\ In node2 (nodes s)
       /\ is_faulty node1 = false /\ is_faulty node2 = false
       /\ final_decision node1 <> final_decision node2.
Proof.
  cbv zeta. repeat (split; [vm_compute; reflexivity|]).
  vm_compute. eexists _, _. split; [left; reflexivity|].
  split; [right; left; reflexivity|].
  split; [reflexivity|]. split; [reflexivity|discriminate].
Qed.

(** * Further properties *)

(** Projections of updated objects, computed, and whole objects
    normalised to their fields. *)
Ltac simpl_fields :=
  cbn [f_var n_var sender_value_var nodes messages max_faulty total_nodes
       current_faulty sender_id current_round simulation_state sender_value
       sim_state_label with_n_var with_f_var with_sender_value_var with_nodes
       with_messages with_max_faulty with_total_nodes with_current_faulty
       with_current_round with_simulation_state with_sender_value
       with_sim_state_label state_of configured].

Ltac norm_fields :=
  cbv beta iota zeta delta
    [f_var n_var sender_value_var nodes messages max_faulty total_nodes
     current_faulty sender_id current_round simulation_state sender_value
     sim_state_label with_n_var with_f_var with_sender_value_var with_nodes
     with_messages with_max_faulty with_total_nodes with_current_faulty
     with_current_round with_simulation_state with_sender_value
     with_sim_state_label state_of].

(** ** Keys and logs *)

(** X1.  The key of a path that is not empty is read back as that path:
    [list(map(int, key.split('-')))] undoes ['-'.join(map(str, path))].
    The empty path has the empty key, on which [int] raises. *)
Theorem join_ids_round_trip :
  forall p : Path,
    parse_ids (join_ids p) = match p with [] => None | _ :: _ => Some p end.
Proof.
  intros [|i p]; [reflexivity|]. now apply parse_ids_join_ids.
Qed.

(** X2.  Different paths have different keys, so the log keeps them apart: a
    value stored under the key of a path is what a lookup under the key
    of the same path gives, and a lookup under the key of any other path
    gives what it gave before. *)
Theorem message_log_set_get :
  forall (l : Log) (p q : Path) (v : Value),
    (join_ids p = join_ids q <-> p = q)
    /\ dict_get (dict_set l (join_ids p) v) (join_ids q)
       = if bool_decide (p = q) then Some v else dict_get l (join_ids q).
Proof.
  intros l p q v. split.
  - split; [apply join_ids_inj|now intros ->].
  - rewrite dict_get_dict_set, join_ids_eqb. reflexivity.
Qed.

(** ** Clicks on the canvas *)

Lemma update_ui_state_fields s :
  nodes (update_ui_state s) = nodes s
  /\ messages (update_ui_state s) = messages s
  /\ max_faulty (update_ui_state s) = max_faulty s
  /\ total_nodes (update_ui_state s) = total_nodes s
  /\ current_faulty (update_ui_state s) = current_faulty s
  /\ sender_id (update_ui_state s) = sender_id s
  /\ current_round (update_ui_state s) = current_round s
  /\ simulation_state (update_ui_state s) = simulation_state s
  /\ sender_value (update_ui_state s) = sender_value s
  /\ f_var (update_ui_state s) = f_var s
  /\ n_var (update_ui_state s) = n_var s
  /\ sender_value_var (update_ui_state s) = sender_value_var s
  /\ is_error (sim_state_label (update_ui_state s))
     = is_error (sim_state_label s).
Proof.
  unfold update_ui_state.
  destruct (is_error (sim_state_label s)) eqn:E; now repeat split.
Qed.

(** The three ways [on_canvas_click] can end: nothing done, the flag of
    the clicked node set to [b] with the counter moved, or the quota
    reached and only the labels refreshed. *)
Lemma on_canvas_click_cases hit s :
  on_canvas_click hit s = s
  \/ (exists i node,
        simulation_state s = ready
        /\ clicked hit s = Some (i, node)
        /\ is_sender node = false
        /\ is_faulty node = false
        /\ (Z.of_nat (max_faulty s) <= current_faulty s)%Z
        /\ on_canvas_click hit s = update_ui_state s)
  \/ exists i node b,
       simulation_state s = ready
       /\ clicked hit s = Some (i, node)
       /\ nodes s !! i = Some node
       /\ hit (id node) = true
       /\ is_sender node = false
       /\ is_faulty node = negb b
       /\ (b = true -> (current_faulty s < Z.of_nat (max_faulty s))%Z)
       /\ on_canvas_click hit s
          = update_ui_state
              (with_current_faulty
                 (current_faulty s + (if b then 1 else -1))%Z
                 (with_nodes (<[i := set_is_faulty b node]> (nodes s)) s)).
Proof.
  unfold on_canvas_click, clicked.
  destruct (simulation_state s) eqn:Hph; auto.
  destruct (find _ _) as [[i node]|] eqn:Hfind; auto.
  destruct (find_enumerate _ _ _ _ Hfind) as [Hnode Hhit].
  destruct (is_sender node) eqn:Hs; auto.
  destruct (is_faulty node) eqn:Hf.
  - right. right. exists i, node, false. now repeat split.
  - destruct (Z.ltb_spec (current_faulty s) (Z.of_nat (max_faulty s))).
    + right. right. exists i, node, true. now repeat split.
    + right. left. exists i, node. now repeat split.
Qed.

Lemma map_insert_same {B} (g : Node -> B) (ns : list Node) i node node' :
  ns !! i = Some node ->
  g node' = g node ->
  map g (<[i := node']> ns) = map g ns.
Proof.
  intros Hi Hg.
  change (g <$> <[i := node']> ns = g <$> ns).
  rewrite list_fmap_insert, Hg. apply list_insert_id.
  now rewrite list_lookup_fmap, Hi.
Qed.

(** X3.  A click on the canvas changes nothing but one faulty flag and the
    counter.  In any state, after [on_canvas_click] the nodes have the
    ids, sender flags, logs and decisions they had, the messages, the
    round counter, the phase, F and the sender's id and value are
    unchanged, and every node other than the one the click landed on is
    as it was. *)
Theorem on_canvas_click_frame :
  forall hit s,
    let s' := on_canvas_click hit s in
    map id (nodes s') = map id (nodes s)
    /\ map is_sender (nodes s') = map is_sender (nodes s)
    /\ map message_log (nodes s') = map message_log (nodes s)
    /\ map final_decision (nodes s') = map final_decision (nodes s)
    /\ messages s' = messages s
    /\ current_round s' = current_round s
    /\ simulation_state s' = simulation_state s
    /\ max_faulty s' = max_faulty s
    /\ sender_id s' = sender_id s
    /\ sender_value s' = sender_value s
    /\ (forall j,
          match clicked hit s with
          | Some (i, _) => j <> i
          | None => True
          end ->
          nodes s' !! j = nodes s !! j).
Proof.
  intros hit s. cbv zeta.
  destruct (on_canvas_click_cases hit s)
    as [->|[(_ & _ & _ & _ & _ & _ & _ & ->)
            |(i & node & b & Hph & Hc & Hi & _ & _ & _ & _ & ->)]].
  - now repeat split.
  - destruct (update_ui_state_fields s)
      as (-> & -> & -> & _ & _ & -> & -> & -> & -> & _).
    now repeat split.
  - match goal with |- context [update_ui_state ?x] =>
      destruct (update_ui_state_fields x)
        as (-> & -> & -> & _ & _ & -> & -> & -> & -> & _)
    end.
    cbn. rewrite !(map_insert_same _ _ _ _ _ Hi) by reflexivity.
    repeat split. rewrite Hc. intros j Hj. now apply list_lookup_insert_ne.
Qed.

(** The first node of the list that the click hits. *)
Lemma find_hit_combine (hit : nat -> bool) (l : list Node) a i x :
  find (fun '(_, node) => hit (id node)) (combine (seq a (length l)) l)
  = Some (i, x)
  <-> a <= i
      /\ l !! (i - a) = Some x
      /\ hit (id x) = true
      /\ forall j y, j < i - a -> l !! j = Some y -> hit (id y) = false.
Proof.
  revert a. induction l as [|y l IH]; intros a; cbn [length seq combine find].
  - split; [discriminate|]. now intros (_ & H & _).
  - destruct (hit (id y)) eqn:Hy.
    + split.
      * intros [= <- <-]. rewrite Nat.sub_diag. repeat split; try easy; lia.
      * intros (Ha & Hl & Hx & Hfirst).
        destruct (i - a) as [|k] eqn:Hk.
        -- cbn in Hl. injection Hl as <-. f_equal. f_equal. lia.
        -- rewrite (Hfirst 0 y) in Hy; [discriminate|lia|reflexivity].
    + rewrite IH. split.
      * intros (Ha & Hl & Hx & Hfirst).
        replace (i - a) with (S (i - S a)) by lia.
        repeat split; try assumption; [lia|].
        intros [|j] z Hj Hz; cbn in Hz.
        -- now injection Hz as <-.
        -- apply (Hfirst j); [lia|exact Hz].
      * intros (Ha & Hl & Hx & Hfirst).
        destruct (i - a) as [|k] eqn:Hk.
        -- cbn in Hl. injection Hl as <-. congruence.
        -- replace (i - S a) with k by lia. cbn in Hl.
           repeat split; try assumption; [lia|].
           intros j z Hj Hz. apply (Hfirst (S j)); [lia|exact Hz].
Qed.

Lemma clicked_spec hit s i x :
  clicked hit s = Some (i, x)
  <-> nodes s !! i = Some x
      /\ hit (id x) = true
      /\ forall j y, j < i -> nodes s !! j = Some y -> hit (id y) = false.
Proof.
  unfold clicked, enumerate. rewrite find_hit_combine, Nat.sub_0_r.
  split; [now intros (_ & H)|]. intros H. split; [lia|exact H].
Qed.

Lemma clicked_insert hit s s' i node node' :
  clicked hit s = Some (i, node) ->
  nodes s' = <[i := node']> (nodes s) ->
  id node' = id node ->
  clicked hit s' = Some (i, node').
Proof.
  intros Hc Hn Hid. apply clicked_spec in Hc as (Hi & Hhit & Hfirst).
  apply clicked_spec. rewrite Hn, Hid. split; [|split].
  - rewrite list_lookup_insert. rewrite decide_True; [reflexivity|].
    split; [reflexivity|]. apply lookup_lt_is_Some. eauto.
  - exact Hhit.
  - intros j y Hj. rewrite list_lookup_insert_ne by lia. now apply Hfirst.
Qed.

Lemma set_is_faulty_back b node :
  is_faulty node = negb b ->
  set_is_faulty (negb b) (set_is_faulty b node) = node.
Proof. destruct node. cbn. now intros ->. Qed.

(** [on_canvas_click] at a node whose flag it may set to [b]. *)
Lemma on_canvas_click_sets hit s i node b :
  simulation_state s = ready ->
  clicked hit s = Some (i, node) ->
  is_sender node = false ->
  is_faulty node = negb b ->
  (b = true -> (current_faulty s < Z.of_nat (max_faulty s))%Z) ->
  on_canvas_click hit s
  = update_ui_state
      (with_current_faulty (current_faulty s + (if b then 1 else -1))%Z
         (with_nodes (<[i := set_is_faulty b node]> (nodes s)) s)).
Proof.
  intros Hph Hc Hs Hf Hq. unfold on_canvas_click.
  unfold clicked in Hc. rewrite Hph, Hc, Hs, Hf.
  destruct b; cbn [negb].
  - destruct (Z.ltb_spec (current_faulty s) (Z.of_nat (max_faulty s)));
      [reflexivity|]. specialize (Hq eq_refl). lia.
  - reflexivity.
Qed.

Lemma on_canvas_click_full hit s i node :
  simulation_state s = ready ->
  clicked hit s = Some (i, node) ->
  is_sender node = false ->
  is_faulty node = false ->
  (Z.of_nat (max_faulty s) <= current_faulty s)%Z ->
  on_canvas_click hit s = update_ui_state s.
Proof.
  intros Hph Hc Hs Hf Hq. unfold on_canvas_click.
  unfold clicked in Hc. rewrite Hph, Hc, Hs, Hf.
  destruct (Z.ltb_spec (current_faulty s) (Z.of_nat (max_faulty s)));
    [lia|reflexivity].
Qed.

(** X4.  A second click at the same place takes back the first: in every
    state the window can reach, two clicks with the same hits leave the
    list of nodes and the counter of faulty nodes as they were. *)
Theorem on_canvas_click_twice :
  forall hit s,
    reachable s ->
    nodes (on_canvas_click hit (on_canvas_click hit s)) = nodes s
    /\ current_faulty (on_canvas_click hit (on_canvas_click hit s))
       = current_faulty s.
Proof.
  intros hit s Hs.
  destruct (on_canvas_click_cases hit s)
    as [E|[E|(i & node & b & Hph & Hc & Hi & Hhit & Hsnd & Hf & Hq & E)]].
  - now rewrite !E.
  - destruct E as (i & node & Hph & Hc & Hsnd & Hf & Hfull & E).
    destruct (update_ui_state_fields s)
      as (En & _ & Ef & _ & Ec & _ & _ & Ep & _).
    rewrite E, (on_canvas_click_full hit (update_ui_state s) i node);
      try assumption.
    + destruct (update_ui_state_fields (update_ui_state s))
        as (-> & _ & _ & _ & -> & _).
      now split.
    + now rewrite Ep.
    + unfold clicked in *. now rewrite En.
    + now rewrite Ef, Ec.
  - apply Quota_reachable in Hs as [_ Hquota].
    destruct (Hquota Hph) as [Hnil|[Hcount Hle]].
    { rewrite Hnil in Hi. discriminate. }
    set (s1 := with_current_faulty
                 (current_faulty s + (if b then 1 else -1))%Z
                 (with_nodes (<[i := set_is_faulty b node]> (nodes s)) s))
      in E.
    destruct (update_ui_state_fields s1)
      as (En1 & _ & Ef1 & _ & Ec1 & _ & _ & Ep1 & _).
    rewrite E.
    rewrite (on_canvas_click_sets hit (update_ui_state s1) i
               (set_is_faulty b node) (negb b)).
    + match goal with |- context [update_ui_state ?x] =>
        destruct (update_ui_state_fields x) as (-> & _ & _ & _ & -> & _)
      end.
      cbn [nodes current_faulty with_nodes with_current_faulty].
      rewrite En1, Ec1. unfold s1. cbn.
      rewrite list_insert_insert_eq, set_is_faulty_back by exact Hf.
      rewrite list_insert_id by exact Hi.
      split; [reflexivity|]. destruct b; cbn; lia.
    + now rewrite Ep1.
    + apply (clicked_insert hit s _ i node); [exact Hc| |reflexivity].
      now rewrite En1.
    + exact Hsnd.
    + cbn. now rewrite negb_involutive.
    + rewrite Ec1, Ef1. unfold s1. cbn. intros Hb.
      destruct b; [discriminate|]. lia.
Qed.

Lemma on_canvas_click_twice_witness :
  nodes (on_canvas_click (Nat.eqb 2) initial) <> nodes initial
  /\ nodes (on_canvas_click (Nat.eqb 2)
              (on_canvas_click (Nat.eqb 2) initial))
     = nodes initial.
Proof.
  split; [vm_compute; discriminate|].
  apply (on_canvas_click_twice (Nat.eqb 2) initial).
  apply reachable_initial.
Defined.

(** ** A press of "Next Round" in any state *)

(** Whatever the logs hold, a press in the phases [ready] and [running]
    ends in one of two ways: an exception leaves the object with the new
    round number and the messages made so far, or the messages made are
    handed to the delivery. *)
Lemma run_next_round_shape s :
  simulation_state s = ready \/ simulation_state s = running ->
  exists msgs,
    let s0 := with_messages msgs
                (with_current_round (current_round s + 1)
                   (with_simulation_state running s)) in
    run_next_round s = Raised s0 \/ run_next_round s = finish_round s0.
Proof.
  intros Hph.
  assert (E : run_next_round s = run_round (with_simulation_state running s)).
  { unfold run_next_round. destruct Hph as [-> | Hr]; [reflexivity|].
    rewrite Hr. f_equal. destruct s. cbn in Hr. now subst. }
  rewrite E. unfold run_round.
  cbn [with_messages with_current_round with_simulation_state current_round
       nodes sender_id max_faulty].
  destruct (current_round s + 1 =? 1).
  - destruct (nodes s !! sender_id s) as [sender|].
    + eexists. right. reflexivity.
    + exists []. left. reflexivity.
  - destruct (current_round s + 1 <=? max_faulty s + 1).
    + destruct (relay_messages _) as [msgs [|]].
      * exists msgs. right. reflexivity.
      * exists msgs. left. reflexivity.
    + exists []. right. reflexivity.
Qed.

Lemma deliver_field {B} (g : Node -> B) msgs ns :
  (forall node l, g (set_message_log l node) = g node) ->
  map g (deliver msgs ns) = map g ns.
Proof.
  intros Hg. unfold deliver. revert ns.
  induction msgs as [|m msgs IH]; intros ns; cbn [fold_left]; [reflexivity|].
  rewrite IH. apply list_eq. intros i.
  rewrite !lookup_map, deliver_to_lookup.
  destruct (decide (to_node m = i)); [|reflexivity].
  destruct (ns !! i); cbn; [|reflexivity]. now rewrite Hg.
Qed.

Lemma decide_field {B} (g : Node -> B) F sid ns l :
  (forall node d, g (set_final_decision d node) = g node) ->
  map g (map (decide_one F sid ns) l) = map g l.
Proof.
  intros Hg. rewrite map_map. apply map_ext. intros node.
  unfold decide_one, run_decision. destruct (is_faulty node); [reflexivity|].
  apply Hg.
Qed.

Lemma dict_mem_dict_set d k v key :
  dict_mem d key = true -> dict_mem (dict_set d k v) key = true.
Proof.
  unfold dict_mem. rewrite dict_get_dict_set.
  now destruct (String.eqb k key).
Qed.

Lemma deliver_dict_mem msgs ns i node key :
  ns !! i = Some node ->
  dict_mem (message_log node) key = true ->
  exists node',
    deliver msgs ns !! i = Some node'
    /\ dict_mem (message_log node') key = true.
Proof.
  unfold deliver. revert ns node.
  induction msgs as [|m msgs IH]; intros ns node Hi Hmem; cbn [fold_left].
  - eauto.
  - assert (H : exists node1,
               deliver_to ns m !! i = Some node1
               /\ dict_mem (message_log node1) key = true).
    { rewrite deliver_to_lookup, Hi.
      destruct (decide (to_node m = i)); [|eauto].
      eexists. split; [reflexivity|]. cbn. unfold log_set.
      now apply dict_mem_dict_set. }
    destruct H as (node1 & H1 & Hmem1). now apply (IH _ node1).
Qed.

(** What a press of "Next Round" does to the nodes, in any state. *)
Lemma run_next_round_nodes s :
  nodes (state_of (run_next_round s)) = nodes s
  \/ exists msgs,
       let ns := deliver msgs (nodes s) in
       nodes (state_of (run_next_round s)) = ns
       \/ nodes (state_of (run_next_round s))
          = map (decide_one (max_faulty s) (sender_id s) ns) ns.
Proof.
  assert (Hcases : simulation_state s = ready \/ simulation_state s = running
                   \/ run_next_round s = Returned s).
  { unfold run_next_round. destruct (simulation_state s); auto. }
  assert (Hgo : simulation_state s = ready \/ simulation_state s = running ->
                nodes (state_of (run_next_round s)) = nodes s
                \/ exists msgs,
                     let ns := deliver msgs (nodes s) in
                     nodes (state_of (run_next_round s)) = ns
                     \/ nodes (state_of (run_next_round s))
                        = map (decide_one (max_faulty s) (sender_id s) ns) ns).
  { intros Hph. destruct (run_next_round_shape s Hph) as (msgs & [E|E]);
      cbv zeta in E; rewrite E.
    - left. reflexivity.
    - right. exists msgs.
      match goal with |- context [finish_round ?x] =>
        destruct (finish_round_fields x) as (s' & -> & Hn & _)
      end.
      cbn [nodes messages max_faulty current_round sender_id with_messages
           with_current_round with_simulation_state] in Hn.
      cbn [state_of]. rewrite Hn. cbv zeta.
      destruct (max_faulty s <? current_round s + 1);
        [right|left]; reflexivity. }
  destruct Hcases as [H|[H|E]]; [apply Hgo; auto..|].
  left. now rewrite E.
Qed.

Lemma run_next_round_keeps_nodes s :
  map id (nodes (state_of (run_next_round s))) = map id (nodes s)
  /\ map is_sender (nodes (state_of (run_next_round s)))
     = map is_sender (nodes s)
  /\ map is_faulty (nodes (state_of (run_next_round s)))
     = map is_faulty (nodes s)
  /\ (forall i node key,
        nodes s !! i = Some node ->
        dict_mem (message_log node) key = true ->
        exists node',
          nodes (state_of (run_next_round s)) !! i = Some node'
          /\ dict_mem (message_log node') key = true).
Proof.
  destruct (run_next_round_nodes s) as [->|(msgs & [->| ->])].
  - repeat split. eauto.
  - rewrite !deliver_field by reflexivity. repeat split.
    intros i node key. apply deliver_dict_mem.
  - rewrite !decide_field, !deliver_field by reflexivity. repeat split.
    intros i node key Hi Hmem.
    destruct (deliver_dict_mem msgs _ _ _ _ Hi Hmem) as (node1 & H1 & Hm1).
    exists (decide_one (max_faulty s) (sender_id s)
              (deliver msgs (nodes s)) node1).
    rewrite lookup_map, H1, decide_one_message_log. now split.
Qed.

Lemma run_next_round_keeps_fields s :
  max_faulty (state_of (run_next_round s)) = max_faulty s
  /\ sender_id (state_of (run_next_round s)) = sender_id s
  /\ sender_value (state_of (run_next_round s)) = sender_value s
  /\ current_faulty (state_of (run_next_round s)) = current_faulty s
  /\ total_nodes (state_of (run_next_round s)) = total_nodes s
  /\ f_var (state_of (run_next_round s)) = f_var s
  /\ n_var (state_of (run_next_round s)) = n_var s
  /\ sender_value_var (state_of (run_next_round s)) = sender_value_var s
  /\ is_error (sim_state_label (state_of (run_next_round s)))
     = is_error (sim_state_label s).
Proof.
  assert (Hcases : simulation_state s = ready \/ simulation_state s = running
                   \/ run_next_round s = Returned s).
  { unfold run_next_round. destruct (simulation_state s); auto. }
  destruct Hcases as [H|[H|E]]; [| |rewrite E; now repeat split].
  all: assert (Hph : simulation_state s = ready \/ simulation_state s = running)
         by auto.
  all: destruct (run_next_round_shape s Hph) as (msgs & [E|E]);
    cbv zeta in E; rewrite E; [now repeat split|].
  all: match goal with |- context [finish_round ?x] =>
         destruct (finish_round_fields x)
           as (s' & -> & _ & _ & _ & _ & H1 & H2 & H3 & H4 & H5 & H6 & H7
               & H8 & H9)
       end.
  all: cbn in *; now repeat split.
Qed.

(** X5.  A press of "Next Round" never touches the configuration: the number
    of nodes, their ids, which one is the sender and which ones are
    faulty, F, the sender's id and value, the counter of faulty nodes and
    the widget variables are after it what they were before, in every
    state and also when the press raises.  The logs only grow: a key
    that was in a node's log is still in it. *)
Theorem run_next_round_frame :
  forall s,
    let s' := state_of (run_next_round s) in
    map id (nodes s') = map id (nodes s)
    /\ map is_sender (nodes s') = map is_sender (nodes s)
    /\ map is_faulty (nodes s') = map is_faulty (nodes s)
    /\ max_faulty s' = max_faulty s
    /\ sender_id s' = sender_id s
    /\ sender_value s' = sender_value s
    /\ current_faulty s' = current_faulty s
    /\ total_nodes s' = total_nodes s
    /\ f_var s' = f_var s
    /\ n_var s' = n_var s
    /\ sender_value_var s' = sender_value_var s
    /\ (forall i node key,
          nodes s !! i = Some node ->
          dict_mem (message_log node) key = true ->
          exists node',
            nodes s' !! i = Some node'
            /\ dict_mem (message_log node') key = true).
Proof.
  intros s. cbv zeta.
  destruct (run_next_round_keeps_nodes s) as (H1 & H2 & H3 & H4).
  destruct (run_next_round_keeps_fields s)
    as (H5 & H6 & H7 & H8 & H9 & H10 & H11 & H12 & _).
  repeat split; assumption.
Qed.

(** X6.  The error text stays.  [update_ui_state] does not overwrite a label
    that contains "Error", and nothing else writes the label but the two
    error branches of [setup_simulation]: once the label shows an error
    it shows one after every further event, an accepted "Setup / Reset"
    included. *)
Theorem error_label_stays :
  forall s e,
    is_error (sim_state_label s) = true ->
    is_error (sim_state_label (step s e)) = true.
Proof.
  assert (Hsetup : forall s,
            is_error (sim_state_label s) = true ->
            is_error (sim_state_label (state_of (setup_simulation s))) = true).
  { intros s He. unfold setup_simulation.
    cbn [with_max_faulty n_var max_faulty].
    destruct (n_var s) as [n_input|]; [|reflexivity].
    destruct (n_input <? _)%Z; [reflexivity|].
    cbv zeta.
    match goal with |- context [match ?l !! ?i with _ => _ end] =>
      destruct (l !! i)
    end; cbn [state_of]; [|exact He].
    match goal with |- context [update_ui_state ?x] =>
      destruct (update_ui_state_fields x)
        as (_ & _ & _ & _ & _ & _ & _ & _ & _ & _ & _ & _ & ->)
    end.
    exact He. }
  intros s e He. unfold step.
  destruct e as [f|n|v| | |hit]; cbn [handle state_of]; try assumption.
  - unfold on_f_changed. now apply Hsetup.
  - now apply Hsetup.
  - destruct (run_next_round_keeps_fields s)
      as (_ & _ & _ & _ & _ & _ & _ & _ & ->).
    exact He.
  - destruct (on_canvas_click_cases hit s)
      as [->|[(_ & _ & _ & _ & _ & _ & _ & ->)
              |(i & node & b & _ & _ & _ & _ & _ & _ & _ & ->)]];
      [exact He| |].
    + now destruct (update_ui_state_fields s)
        as (_ & _ & _ & _ & _ & _ & _ & _ & _ & _ & _ & _ & ->).
    + match goal with |- context [update_ui_state ?x] =>
        destruct (update_ui_state_fields x)
          as (_ & _ & _ & _ & _ & _ & _ & _ & _ & _ & _ & _ & ->)
      end.
      exact He.
Qed.

Lemma error_label_stays_witness :
  let s := step (step initial (TypeN None)) ClickSetup in
  is_error (sim_state_label s) = true
  /\ simulation_state (step (step s (TypeN (Some 4%Z))) ClickSetup) = ready
  /\ length (nodes (step (step s (TypeN (Some 4%Z))) ClickSetup)) = 4
  /\ is_error (sim_state_label (step (step s (TypeN (Some 4%Z))) ClickSetup))
     = true.
Proof.
  cbv zeta. split; [vm_compute; reflexivity|].
  split; [vm_compute; reflexivity|]. split; [vm_compute; reflexivity|].
  apply (error_label_stays
           (step (step (step initial (TypeN None)) ClickSetup)
              (TypeN (Some 4%Z))) ClickSetup).
  apply (error_label_stays (step (step initial (TypeN None)) ClickSetup)
           (TypeN (Some 4%Z))).
  vm_compute. reflexivity.
Defined.

(** ** What the window keeps *)

(** The two ways [setup_simulation] ends when the sender is node 0. *)
Lemma setup_simulation_outcome s :
  sender_id s = 0 ->
  (nodes (state_of (setup_simulation s)) = []
   /\ simulation_state (state_of (setup_simulation s)) = simulation_state s
   /\ current_round (state_of (setup_simulation s)) = current_round s
   /\ max_faulty (state_of (setup_simulation s)) = f_var s
   /\ (n_var s = None
       \/ exists n_input,
            n_var s = Some n_input
            /\ (n_input < Z.of_nat (3 * f_var s + 1))%Z))
  \/ (exists n_input,
        n_var s = Some n_input
        /\ (Z.of_nat (3 * f_var s + 1) <= n_input)%Z
        /\ nodes (state_of (setup_simulation s))
           = fresh_nodes (Z.to_nat n_input) 0
        /\ simulation_state (state_of (setup_simulation s)) = ready
        /\ current_round (state_of (setup_simulation s)) = 0
        /\ max_faulty (state_of (setup_simulation s)) = f_var s).
Proof.
  intros Hsid.
  destruct (n_var s) as [n_input|] eqn:Hn.
  - destruct (Z.ltb_spec n_input (Z.of_nat (3 * f_var s + 1))) as [Hlt|Hge].
    + rewrite (setup_simulation_too_small s n_input Hn Hlt). left.
      repeat split. right. now exists n_input.
    + rewrite (setup_simulation_accepts s n_input Hn Hge) by lia.
      right. exists n_input. cbn [state_of].
      match goal with |- context [update_ui_state ?x] =>
        destruct (update_ui_state_fields x)
          as (-> & _ & -> & _ & _ & _ & -> & -> & _)
      end.
      cbn. rewrite Hsid. now repeat split.
  - rewrite (setup_simulation_not_a_number s Hn). left. repeat split.
    now left.
Qed.

Lemma on_canvas_click_keeps hit s :
  simulation_state (on_canvas_click hit s) = simulation_state s
  /\ current_round (on_canvas_click hit s) = current_round s
  /\ max_faulty (on_canvas_click hit s) = max_faulty s
  /\ map final_decision (nodes (on_canvas_click hit s))
     = map final_decision (nodes s)
  /\ (simulation_state s <> ready -> on_canvas_click hit s = s).
Proof.
  destruct (on_canvas_click_cases hit s)
    as [->|[(_ & _ & Hph & _ & _ & _ & _ & ->)
            |(i & node & b & Hph & Hc & Hi & _ & _ & _ & _ & ->)]].
  - now repeat split.
  - destruct (update_ui_state_fields s)
      as (-> & _ & -> & _ & _ & _ & -> & -> & _).
    now repeat split.
  - match goal with |- context [update_ui_state ?x] =>
      destruct (update_ui_state_fields x)
        as (-> & _ & -> & _ & _ & _ & -> & -> & _)
    end.
    cbn. rewrite (map_insert_same _ _ _ _ _ Hi) by reflexivity.
    now repeat split.
Qed.

Lemma phase_round_reachable s :
  reachable s ->
  match simulation_state s with
  | setup => False
  | ready => current_round s = 0
  | running => 1 <= current_round s <= max_faulty s
  | finished => current_round s = max_faulty s + 1
  end.
Proof.
  induction 1 as [|s e Hs IH He]; [vm_compute; reflexivity|].
  apply Inv_reachable in Hs as HI.
  assert (Hsetup : forall s0,
            sender_id s0 = 0 ->
            simulation_state s0 = simulation_state s ->
            current_round s0 = current_round s ->
            (f_var s0 = max_faulty s
             \/ exists n_input,
                  n_var s0 = Some n_input
                  /\ (Z.of_nat (3 * f_var s0 + 1) <= n_input)%Z) ->
            match simulation_state (state_of (setup_simulation s0)) with
            | setup => False
            | ready => current_round (state_of (setup_simulation s0)) = 0
            | running =>
                1 <= current_round (state_of (setup_simulation s0))
                <= max_faulty (state_of (setup_simulation s0))
            | finished =>
                current_round (state_of (setup_simulation s0))
                = max_faulty (state_of (setup_simulation s0)) + 1
            end).
  { intros s0 Hsid Hp Hr Hor.
    destruct (setup_simulation_outcome s0 Hsid)
      as [(_ & -> & -> & -> & Hrej)|(n_input & _ & _ & _ & -> & -> & _)];
      [|reflexivity].
    rewrite Hp, Hr.
    destruct Hor as [-> |(n_input & Hn' & Hge)]; [exact IH|].
    exfalso. destruct Hrej as [Hnone|(n_input' & Hn'' & Hlt)]; [congruence|].
    rewrite Hn' in Hn''. injection Hn'' as <-. lia. }
  destruct (inv_max_faulty s HI) as [Hmf Hf].
  unfold step. destruct e as [f|n|v| | |hit]; cbn [handle state_of].
  - unfold on_f_changed. apply Hsetup; try reflexivity; [apply HI|].
    right. eexists. split; [reflexivity|]. cbn. lia.
  - exact IH.
  - exact IH.
  - apply Hsetup; try reflexivity; [apply HI|now left].
  - assert (HF : 1 <= max_faulty s).
    { rewrite Hmf. destruct Hf as [<-|[<-|[]]]; lia. }
    assert (Hcases : simulation_state s = ready \/ simulation_state s = running
                     \/ run_next_round s = Returned s).
    { unfold run_next_round. destruct (simulation_state s); auto. }
    destruct Hcases as [Hph|[Hph|E]]; [| |now rewrite E].
    all: assert (Hrr : simulation_state s = ready
                       \/ simulation_state s = running) by auto.
    all: rewrite Hph in IH.
    all: destruct (round_messages s) as [msgs|] eqn:Hmsgs.
    1, 3: destruct (run_next_round_fields s msgs (inv_keys s HI) Hrr Hmsgs)
           as (s' & E' & _ & Hp' & _ & Hr' & Hf' & _);
         rewrite E'; cbn [state_of]; rewrite Hp', Hr', Hf';
         unfold round_phase;
         destruct (Nat.ltb_spec (max_faulty s) (current_round s + 1)); lia.
    all: rewrite (run_next_round_raises s (inv_keys s HI) Hrr Hmsgs);
      cbn [state_of with_messages with_current_round with_simulation_state
           simulation_state current_round max_faulty].
    all: unfold round_messages in Hmsgs.
    all: destruct (Nat.eqb_spec (current_round s + 1) 1);
      [lia|destruct (current_round s + 1 <=? max_faulty s + 1); discriminate].
  - destruct (on_canvas_click_keeps hit s) as (-> & -> & -> & _). exact IH.
Qed.

(** X7.  Phase and round counter go together.  In every state the window can
    reach the phase is one of [ready], [running], [finished], never
    [setup] again: the round counter is 0 in [ready], between 1 and F in
    [running], and F+1 in [finished]. *)
Theorem phase_and_round :
  forall s,
    reachable s ->
    simulation_state s <> setup
    /\ (simulation_state s = ready <-> current_round s = 0)
    /\ (simulation_state s = running <-> 1 <= current_round s <= max_faulty s)
    /\ (simulation_state s = finished
        <-> current_round s = max_faulty s + 1).
Proof.
  intros s Hs. pose proof (phase_round_reachable s Hs) as H.
  destruct (simulation_state s); [destruct H|..];
    (split; [discriminate|]); repeat split; intros; try discriminate;
    try reflexivity; lia.
Qed.

Lemma phase_and_round_witness :
  simulation_state (step (step initial (SelectF 2)) ClickNext) = running
  /\ 1 <= current_round (step (step initial (SelectF 2)) ClickNext) <= 2.
Proof.
  split; [vm_compute; reflexivity|].
  apply (phase_and_round (step (step initial (SelectF 2)) ClickNext)).
  - repeat (apply reachable_step; [|exact I || (right; now left)]).
    apply reachable_initial.
  - vm_compute. reflexivity.
Defined.

Lemma filter_length_map {A} (g : A -> bool) (l1 l2 : list A) :
  map g l1 = map g l2 ->
  length (List.filter g l1) = length (List.filter g l2).
Proof.
  revert l2. induction l1 as [|x l1 IH]; intros [|y l2] E; try discriminate.
  - reflexivity.
  - cbn in E. injection E as Exy E. cbn. rewrite Exy.
    destruct (g y); cbn; now rewrite (IH l2 E).
Qed.

Lemma faulty_count_reachable s :
  reachable s ->
  length (List.filter is_faulty (nodes s)) <= max_faulty s.
Proof.
  induction 1 as [|s e Hs IH He]; [vm_compute; lia|].
  apply Inv_reachable in Hs as HI. apply Quota_reachable in Hs as HQ.
  assert (Hsetup : forall s0,
            sender_id s0 = 0 ->
            length (List.filter is_faulty
                      (nodes (state_of (setup_simulation s0))))
            <= max_faulty (state_of (setup_simulation s0))).
  { intros s0 Hsid.
    destruct (setup_simulation_outcome s0 Hsid)
      as [(-> & _)|(n_input & _ & Hge & -> & _)]; [cbn; lia|].
    rewrite fresh_nodes_honest by lia. cbn. lia. }
  unfold step. destruct e as [f|n|v| | |hit]; cbn [handle state_of];
    try exact IH.
  - unfold on_f_changed. apply Hsetup. apply HI.
  - apply Hsetup. apply HI.
  - destruct (run_next_round_keeps_nodes s) as (_ & _ & E & _).
    destruct (run_next_round_keeps_fields s) as (-> & _).
    now rewrite (filter_length_map _ _ _ E).
  - destruct (on_canvas_click_keeps hit s) as (Hp & _ & Hf & _ & Hsame).
    destruct (simulation_state s) eqn:Hph;
      try (rewrite Hsame by discriminate; exact IH).
    destruct (Quota_on_canvas_click hit s HQ) as [_ Hq].
    destruct (Hq Hp) as [-> |[_ Hle]]; [cbn; lia|exact Hle].
Qed.

(** X8.  The quota holds in every phase.  In every state the window can reach
    at most F nodes are faulty, the sender is not one of them, and the
    list of nodes is empty (after a rejected setup) or has at least 3F+1
    nodes. *)
Theorem faulty_nodes_bounded :
  forall s,
    reachable s ->
    length (List.filter is_faulty (nodes s)) <= max_faulty s
    /\ (nodes s = [] \/ 3 * max_faulty s + 1 <= length (nodes s))
    /\ (forall node,
          In node (nodes s) -> is_sender node = true -> is_faulty node = false).
Proof.
  intros s Hs. split; [now apply faulty_count_reachable|].
  split; [now apply Quota_reachable|].
  apply Inv_reachable in Hs as HI.
  intros node Hin Hsender.
  apply list_elem_of_In, list_elem_of_lookup in Hin as [i Hi].
  rewrite (inv_is_sender s HI i node Hi) in Hsender.
  apply Nat.eqb_eq in Hsender. subst i.
  now apply (inv_sender_honest s HI).
Qed.

Lemma faulty_nodes_bounded_witness :
  length (List.filter is_faulty
            (nodes (step (step (step initial (ClickCanvas (Nat.eqb 1)))
                            (ClickCanvas (Nat.eqb 2))) ClickNext))) = 1
  /\ length (List.filter is_faulty
               (nodes (step (step (step initial (ClickCanvas (Nat.eqb 1)))
                               (ClickCanvas (Nat.eqb 2))) ClickNext)))
     <= 1.
Proof.
  split; [vm_compute; reflexivity|].
  apply (faulty_nodes_bounded
           (step (step (step initial (ClickCanvas (Nat.eqb 1)))
                    (ClickCanvas (Nat.eqb 2))) ClickNext)).
  repeat (apply reachable_step; [|exact I]). apply reachable_initial.
Defined.

(** ** Decisions *)

Lemma fresh_nodes_undecided n node :
  In node (fresh_nodes n 0) -> final_decision node = None.
Proof.
  intros Hin. apply list_elem_of_In, list_elem_of_lookup in Hin as [i Hi].
  destruct (Nat.eq_dec n 0) as [->|Hn]; [destruct i; discriminate|].
  rewrite lookup_fresh_nodes in Hi by lia.
  destruct (i <? n); [|discriminate]. now injection Hi as <-.
Qed.

Lemma undecided_reachable s :
  reachable s ->
  forall node,
    In node (nodes s) ->
    simulation_state s <> finished \/ is_faulty node = true ->
    final_decision node = None.
Proof.
  induction 1 as [|s e Hs IH He].
  - intros node Hin _. vm_compute in Hin.
    destruct Hin as [<-|[<-|[<-|[<-|[]]]]]; reflexivity.
  - apply Inv_reachable in Hs as HI.
    assert (Hsetup : forall s0 node,
              sender_id s0 = 0 ->
              In node (nodes (state_of (setup_simulation s0))) ->
              final_decision node = None).
    { intros s0 node Hsid.
      destruct (setup_simulation_outcome s0 Hsid)
        as [(-> & _)|(n_input & _ & _ & -> & _)]; [intros []|].
      apply fresh_nodes_undecided. }
    unfold step. destruct e as [f|n|v| | |hit]; cbn [handle state_of];
      try exact IH.
    + intros node Hin _. unfold on_f_changed in Hin.
      apply Hsetup in Hin; [exact Hin|apply HI].
    + intros node Hin _. apply Hsetup in Hin; [exact Hin|apply HI].
    + assert (Hcases : simulation_state s = ready
                       \/ simulation_state s = running
                       \/ run_next_round s = Returned s).
      { unfold run_next_round. destruct (simulation_state s); auto. }
      destruct Hcases as [Hph|[Hph|E]]; [| |now rewrite E].
      all: assert (Hrr : simulation_state s = ready
                         \/ simulation_state s = running) by auto.
      all: assert (Hnf : simulation_state s <> finished)
             by (rewrite Hph; discriminate).
      all: destruct (round_messages s) as [msgs|] eqn:Hmsgs.
      2, 4: rewrite (run_next_round_raises s (inv_keys s HI) Hrr Hmsgs);
        intros node Hin _; apply IH; [exact Hin|now left].
      all: destruct (run_next_round_fields s msgs (inv_keys s HI) Hrr Hmsgs)
             as (s' & E' & Hn' & Hp' & _).
      all: rewrite E'; cbn [state_of]; rewrite Hn', Hp'.
      all: unfold round_nodes, round_phase; cbv zeta.
      all: assert (Hdel : forall node,
                     In node (deliver msgs (nodes s)) ->
                     final_decision node = None)
             by (intros node Hin;
                 apply list_elem_of_In, list_elem_of_lookup in Hin as [i Hi];
                 apply deliver_lookup in Hi
                   as (node0 & Hi0 & _ & _ & _ & -> & _);
                 apply IH; [|now left];
                 apply list_elem_of_In, list_elem_of_lookup; eauto).
      all: destruct (max_faulty s <? current_round s + 1);
        [|intros node Hin _; now apply Hdel].
      all: intros node Hin [Hfin|Hfaulty]; [now contradiction Hfin|].
      all: apply in_map_iff in Hin as (node1 & <- & Hin1).
      all: rewrite decide_one_is_faulty in Hfaulty.
      all: unfold decide_one; rewrite Hfaulty; now apply Hdel.
    + destruct (on_canvas_click_keeps hit s) as (Hp & _ & _ & Hd & Hsame).
      assert (Hph : simulation_state s = ready \/ simulation_state s <> ready)
        by (destruct (simulation_state s); auto; right; discriminate).
      destruct Hph as [Hph|Hph]; [|now rewrite Hsame].
      intros node Hin _.
      assert (Hin' : In (final_decision node)
                       (map final_decision (nodes (on_canvas_click hit s))))
        by now apply in_map.
      rewrite Hd in Hin'. apply in_map_iff in Hin' as (node0 & <- & Hin0).
      apply IH; [exact Hin0|left; rewrite Hph; discriminate].
Qed.

(** X9.  A decision is drawn under a node exactly when the run has finished
    and the node is not faulty: in every state the window can reach, a
    node has a [final_decision] if and only if the phase is [finished] and
    the node is not faulty. *)
Theorem decisions_only_when_finished :
  forall s node,
    reachable s ->
    In node (nodes s) ->
    (final_decision node <> None
     <-> simulation_state s = finished /\ is_faulty node = false).
Proof.
  intros s node Hs Hin. split.
  - intros Hd.
    destruct (simulation_state s) eqn:Hph, (is_faulty node) eqn:Hf;
      try (now split); exfalso; apply Hd;
      apply (undecided_reachable s Hs node Hin);
      rewrite ?Hph; (now right) || (left; discriminate).
  - intros [Hph Hf]. apply Inv_reachable in Hs as HI.
    rewrite (inv_finished s HI Hph node Hin Hf).
    destruct (inv_max_faulty s HI) as [-> Hfv].
    destruct Hfv as [<-|[<-|[]]]; discriminate.
Qed.

Lemma decisions_only_when_finished_witness :
  let s := step (step (step initial (ClickCanvas (Nat.eqb 2))) ClickNext)
             ClickNext in
  map final_decision (nodes s)
  = [Some Retreat; Some Attack; None; Some Attack]
  /\ forall node,
       In node (nodes s) ->
       (final_decision node <> None
        <-> simulation_state s = finished /\ is_faulty node = false).
Proof.
  cbv zeta. split; [vm_compute; reflexivity|].
  intros node.
  apply (decisions_only_when_finished
           (step (step (step initial (ClickCanvas (Nat.eqb 2))) ClickNext)
              ClickNext) node).
  repeat (apply reachable_step; [|exact I]). apply reachable_initial.
Defined.

(** ** The colours of the discs *)

(** X10.  The canvas shows the roles.  In every state the window can reach, the
    disc of a node is light green exactly for the sender (node 0), light
    red exactly for the faulty nodes, and light blue exactly for the
    others: the green of the sender never hides a fault. *)
Theorem draw_fill_shows_roles :
  forall s node,
    reachable s ->
    In node (nodes s) ->
    (draw_fill node = LightGreen <-> id node = sender_id s)
    /\ (draw_fill node = LightRed <-> is_faulty node = true)
    /\ (draw_fill node = LightBlue
        <-> id node <> sender_id s /\ is_faulty node = false).
Proof.
  intros s node Hs Hin. apply Inv_reachable in Hs as HI.
  apply list_elem_of_In, list_elem_of_lookup in Hin as [i Hi].
  pose proof (inv_ids s HI i node Hi) as Hid.
  pose proof (inv_is_sender s HI i node Hi) as Hsender.
  rewrite (inv_sender_id s HI), Hid. unfold draw_fill. rewrite Hsender.
  destruct (Nat.eqb_spec i 0) as [->|Hne].
  - rewrite (inv_sender_honest s HI node Hi).
    repeat split; intros; try discriminate; try reflexivity; tauto.
  - destruct (is_faulty node); repeat split; intros; try discriminate;
      try reflexivity; try tauto; now destruct H.
Qed.

Lemma draw_fill_shows_roles_witness :
  map draw_fill (nodes (step initial (ClickCanvas (Nat.eqb 2))))
  = [LightGreen; LightBlue; LightRed; LightBlue]
  /\ forall node,
       In node (nodes (step initial (ClickCanvas (Nat.eqb 2)))) ->
       (draw_fill node = LightRed <-> is_faulty node = true).
Proof.
  split; [vm_compute; reflexivity|]. intros node Hin.
  apply (draw_fill_shows_roles (step initial (ClickCanvas (Nat.eqb 2))) node);
    [|exact Hin].
  apply reachable_step; [apply reachable_initial|exact I].
Defined.

(** ** Exceptions *)

Lemma reachable_press_returns s :
  reachable s ->
  nodes s <> [] ->
  exists s',
    run_next_round s = Returned s'
    /\ (simulation_state s = ready \/ simulation_state s = running ->
        current_round s' = current_round s + 1)
    /\ (simulation_state s = finished -> s' = s).
Proof.
  intros Hs Hne. apply Inv_reachable in Hs as HI.
  assert (Hcases : simulation_state s = ready \/ simulation_state s = running
                   \/ (simulation_state s <> ready
                       /\ simulation_state s <> running
                       /\ run_next_round s = Returned s)).
  { unfold run_next_round. destruct (simulation_state s); auto;
      right; right; repeat split; discriminate. }
  destruct Hcases as [Hph|[Hph|(Hn1 & Hn2 & E)]].
  3: { exists s. split; [exact E|]. split; [|reflexivity].
       intros [H|H]; contradiction. }
  all: assert (Hrr : simulation_state s = ready \/ simulation_state s = running)
         by auto.
  all: destruct (round_messages_some s) as [msgs Hmsgs];
    [intros _; rewrite (inv_sender_id s HI);
     destruct (nodes s); [contradiction|cbn; eauto]|].
  all: destruct (run_next_round_fields s msgs (inv_keys s HI) Hrr Hmsgs)
         as (s' & E' & _ & _ & _ & Hr & _).
  all: exists s'; split; [exact E'|]; split; [now intros _|].
  all: rewrite Hph; discriminate.
Qed.

(** X11.  With nodes on the canvas a press of "Next Round" returns: in
    every state the window can reach whose list of nodes is not empty,
    the handler neither fails to find the sender ([IndexError]) nor meets
    a key it cannot read back ([ValueError]).  In the phases [ready] and
    [running] the round counter is one higher when it returns; in the
    phase [finished] nothing has changed. *)
Theorem run_next_round_returns :
  forall s,
    reachable s ->
    nodes s <> [] ->
    exists s',
      run_next_round s = Returned s'
      /\ (simulation_state s = ready \/ simulation_state s = running ->
          current_round s' = current_round s + 1)
      /\ (simulation_state s = finished -> s' = s).
Proof.
  intros s Hs Hne.
  destruct (reachable_press_returns s Hs Hne) as (s' & E & Hr & Hf).
  exists s'. split; [exact E|]. split; [exact Hr|exact Hf].
Qed.

Lemma run_next_round_returns_witness :
  exists s',
    run_next_round (step initial ClickNext) = Returned s'
    /\ current_round s' = 2.
Proof.
  destruct (run_next_round_returns (step initial ClickNext))
    as (s' & E & Hr & _).
  - apply reachable_step; [apply reachable_initial|exact I].
  - vm_compute. discriminate.
  - exists s'. split; [exact E|]. apply Hr. right. vm_compute. reflexivity.
Defined.

(** X12.  Without the sender's node the first press raises.  When the list of
    nodes has no entry at [sender_id] (it is empty after a rejected
    setup) and the round counter is 0, "Next Round" in the phase [ready]
    stops at [self.nodes[self.sender_id]]: the phase is [running] and the
    round counter 1 by then, nothing else has changed. *)
Theorem run_next_round_without_sender :
  forall s,
    simulation_state s = ready ->
    current_round s = 0 ->
    nodes s !! sender_id s = None ->
    run_next_round s
    = Raised (with_messages []
                (with_current_round 1 (with_simulation_state running s))).
Proof.
  intros s Hph Hr Hnone. unfold run_next_round, run_round. rewrite Hph.
  cbn [with_messages with_current_round with_simulation_state current_round
       nodes sender_id max_faulty].
  rewrite Hr. cbn [Nat.add Nat.eqb]. now rewrite Hnone.
Qed.

Lemma run_next_round_without_sender_witness :
  reachable (step (step initial (TypeN (Some 3%Z))) ClickSetup)
  /\ exists s',
       run_next_round (step (step initial (TypeN (Some 3%Z))) ClickSetup)
       = Raised s'
       /\ simulation_state s' = running
       /\ current_round s' = 1.
Proof.
  split.
  - repeat (apply reachable_step; [|exact I]). apply reachable_initial.
  - eexists. split.
    + apply (run_next_round_without_sender
               (step (step initial (TypeN (Some 3%Z))) ClickSetup));
        vm_compute; reflexivity.
    + split; reflexivity.
Defined.

(** ** Setup *)

(** X13.  "Setup / Reset" twice is "Setup / Reset" once, whatever the state and
    the input, also when the input is rejected. *)
Theorem setup_simulation_idempotent :
  forall s,
    setup_simulation (state_of (setup_simulation s)) = setup_simulation s.
Proof.
  intros s. destruct s as [f n sv ns ms mf tn cf sid cr ph v lbl].
  unfold setup_simulation. norm_fields.
  destruct n as [n_input|]; [|reflexivity].
  destruct (n_input <? Z.of_nat (3 * f + 1))%Z eqn:Hlt; norm_fields;
    rewrite ?Hlt; [reflexivity|].
  destruct (map new_Node (seq 0 (Z.to_nat n_input)) !! sid) eqn:Hsid;
    norm_fields; [|rewrite Hlt; norm_fields; now rewrite Hsid].
  unfold update_ui_state. norm_fields.
  destruct (is_error lbl) eqn:He; norm_fields; rewrite Hlt; norm_fields;
    rewrite Hsid; norm_fields; cbn [is_error]; rewrite ?He; reflexivity.
Qed.

(** X14.  A choice of F always gives a run to start: [on_f_changed] writes
    3F+1 into the N entry, so the setup it calls accepts, whatever N
    and the state were, and leaves the phase [ready] with 3F+1 fresh
    nodes, the sender marked, nobody faulty. *)
Theorem on_f_changed_accepts :
  forall s f,
    sender_id s < 3 * f + 1 ->
    exists s',
      on_f_changed (with_f_var f s) = Returned s'
      /\ simulation_state s' = ready
      /\ n_var s' = Some (Z.of_nat (3 * f + 1))
      /\ max_faulty s' = f
      /\ current_round s' = 0
      /\ current_faulty s' = 0%Z
      /\ sender_value s' = sender_value_var s
      /\ messages s' = []
      /\ length (nodes s') = 3 * f + 1
      /\ forall i node,
           nodes s' !! i = Some node ->
           node = mkNode i (i =? sender_id s) false [] None.
Proof.
  intros s f Hsid. unfold on_f_changed.
  rewrite (setup_simulation_accepts _ (Z.of_nat (3 * f + 1)));
    [|reflexivity|cbn; lia|cbn; lia].
  eexists. split; [reflexivity|].
  match goal with |- context [update_ui_state ?x] =>
    destruct (update_ui_state_fields x)
      as (-> & -> & -> & _ & -> & _ & -> & -> & -> & _ & -> & _)
  end.
  simpl_fields. rewrite Nat2Z.id, fresh_nodes_length.
  repeat split.
  intros i node. rewrite lookup_fresh_nodes by exact Hsid.
  destruct (i <? 3 * f + 1); [|discriminate]. now intros [= <-].
Qed.

Lemma on_f_changed_accepts_witness :
  exists s',
    on_f_changed
      (with_f_var 2 (step (step initial (TypeN None)) ClickSetup))
    = Returned s'
    /\ simulation_state s' = ready
    /\ length (nodes s') = 7.
Proof.
  destruct (on_f_changed_accepts
              (step (step initial (TypeN None)) ClickSetup) 2)
    as (s' & E & Hp & _ & _ & _ & _ & _ & _ & Hlen & _); [vm_compute; lia|].
  exists s'. now repeat split.
Defined.

(** X15.  An accepted setup forgets the run before it: what it leaves of the
    simulation depends on nothing but the three inputs F, N and the
    sender's value, and the sender's id. *)
Theorem setup_simulation_resets :
  forall s1 s2 n_input,
    n_var s1 = Some n_input ->
    n_var s2 = Some n_input ->
    f_var s1 = f_var s2 ->
    sender_value_var s1 = sender_value_var s2 ->
    sender_id s1 = sender_id s2 ->
    (Z.of_nat (3 * f_var s1 + 1) <= n_input)%Z ->
    simulation (state_of (setup_simulation s1))
    = simulation (state_of (setup_simulation s2)).
Proof.
  intros s1 s2 n_input H1 H2 Hf Hv Hsid Hge.
  unfold setup_simulation. simpl_fields. rewrite H1, H2, <- Hf, <- Hsid, <- Hv.
  destruct (Z.ltb_spec n_input (Z.of_nat (3 * f_var s1 + 1))); [lia|].
  destruct (map new_Node (seq 0 (Z.to_nat n_input)) !! sender_id s1);
    simpl_fields; rewrite ?update_ui_state_simulation;
    unfold simulation; simpl_fields.
  all: now rewrite Hsid.
Qed.

Lemma setup_simulation_resets_witness :
  simulation
    (state_of (setup_simulation
                 (step (step (step initial (ClickCanvas (Nat.eqb 1)))
                          ClickNext) ClickNext)))
  = simulation (state_of (setup_simulation initial)).
Proof.
  apply (setup_simulation_resets
           (step (step (step initial (ClickCanvas (Nat.eqb 1))) ClickNext)
              ClickNext)
           initial 4%Z); vm_compute; congruence.
Defined.

(** ** Reading the log *)

(** X16.  [resolve_decision] on a log without entries: the lookups miss, the
    list of values is [[None]], and the majority of it is the default;
    at depth 0 the result is the missing value itself. *)
Theorem resolve_decision_empty_log :
  forall global_nodes self path f,
    message_log self = [] ->
    resolve_decision global_nodes self path f
    = match f with 0 => None | S _ => Some Retreat end.
Proof.
  intros global_nodes self path f Hlog.
  rewrite resolve_decision_resolve, Hlog.
  destruct f; [reflexivity|apply resolve_empty_log].
Qed.

Lemma resolve_decision_empty_log_witness :
  resolve_decision (nodes initial) (new_Node 3) [0] 2 = Some Retreat.
Proof.
  apply (resolve_decision_empty_log (nodes initial) (new_Node 3) [0] 2).
  reflexivity.
Defined.

(** X17.  [deliver_messages] stores what it is given: a message of the list,
    addressed to a node of the list, is found afterwards in that node's
    log under the key of its path, with its value when no other message
    of the list for the same node and path carries another one. *)
Theorem deliver_messages_stores :
  forall s m,
    In m (messages s) ->
    to_node m < length (nodes s) ->
    (forall m', In m' (messages s) ->
                to_node m' = to_node m -> path m' = path m ->
                value m' = value m) ->
    exists node',
      nodes (deliver_messages s) !! to_node m = Some node'
      /\ dict_get (message_log node') (join_ids (path m)) = Some (value m).
Proof.
  intros s m Hin Hlt Hsame. rewrite deliver_messages_nodes.
  cbn [nodes with_nodes].
  destruct (lookup_lt_is_Some_2 (nodes s) (to_node m) Hlt) as [node Hnode].
  destruct (lookup_lt_is_Some_2 (deliver (messages s) (nodes s)) (to_node m))
    as [node' Hnode']; [now rewrite deliver_length|].
  exists node'. split; [exact Hnode'|].
  change (log_get (message_log node') (path m) = Some (value m)).
  rewrite (deliver_log_get (messages s) (nodes s) (to_node m) node node'
             (path m) (value m) Hnode Hnode').
  - assert (E : existsb (addressed (to_node m) (path m)) (messages s) = true).
    { apply existsb_exists. exists m. split; [exact Hin|].
      now apply addressed_spec. }
    now rewrite E.
  - intros m' Hin' Ha. apply addressed_spec in Ha as [Hto Hp].
    now apply Hsame.
Qed.

Lemma deliver_messages_stores_witness :
  exists node',
    nodes (deliver_messages
             (with_messages [mkMessage 0 2 Retreat [0; 1]] initial)) !! 2
    = Some node'
    /\ dict_get (message_log node') "0-1" = Some Retreat.
Proof.
  apply (deliver_messages_stores
           (with_messages [mkMessage 0 2 Retreat [0; 1]] initial)
           (mkMessage 0 2 Retreat [0; 1])).
  - now left.
  - vm_compute. lia.
  - intros m' [<-|[]] _ _. reflexivity.
Defined.

(** ** The first round *)

Lemma round1_msgs_rest sender sv (l : list Node) a :
  id sender = 0 ->
  is_faulty sender = false ->
  1 <= a ->
  (forall j node, l !! j = Some node -> id node = a + j) ->
  flat_map
    (fun '(i, node) =>
       if id node =? id sender then []
       else [mkMessage 0 i (get_faulty_value sender sv (id node)) [id sender]])
    (combine (seq a (length l)) l)
  = map (fun i => mkMessage 0 i sv [0]) (seq a (length l)).
Proof.
  intros Hid Hf. revert a.
  induction l as [|x l IH]; intros a Ha Hids; [reflexivity|].
  cbn [length seq combine flat_map map app].
  rewrite (Hids 0 x eq_refl), Nat.add_0_r.
  destruct (Nat.eqb_spec a (id sender)) as [E|_]; [lia|].
  unfold get_faulty_value at 1. rewrite Hf. cbn [negb app]. f_equal.
  - now rewrite Hid.
  - apply IH; [lia|]. intros j node Hj. rewrite (Hids (S j) node Hj). lia.
Qed.

Lemma deliver_sender_value sv ts ns i :
  List.NoDup ts ->
  deliver (map (fun j => mkMessage 0 j sv [0]) ts) ns !! i
  = if existsb (Nat.eqb i) ts
    then (fun node => set_message_log (log_set (message_log node) [0] sv) node)
           <$> ns !! i
    else ns !! i.
Proof.
  unfold deliver. intros Hnd. revert ns.
  induction ts as [|t ts IH]; intros ns; cbn [map fold_left existsb];
    [reflexivity|].
  apply List.NoDup_cons_iff in Hnd as [Hnot Hnd].
  rewrite (IH Hnd), deliver_to_lookup. cbn [to_node path value].
  destruct (Nat.eqb_spec i t) as [->|Hne].
  - rewrite decide_True by reflexivity. cbn [orb].
    destruct (existsb (Nat.eqb t) ts) eqn:E; [|reflexivity].
    apply existsb_eqb_In in E. contradiction.
  - rewrite decide_False by congruence. reflexivity.
Qed.

(** X18.  Round 1 as the user sees it.  From a ready state the window can
    reach, with its nodes in place, the first press of "Next Round" makes
    one message for every node but the sender, in the order of the ids,
    each from node 0 with the sender's value and the path [[0]]; after
    it the log of every such node is the single entry ["0"] with that
    value, and the sender's log is empty. *)
Theorem first_round_sends_sender_value :
  forall s,
    reachable s ->
    simulation_state s = ready ->
    nodes s <> [] ->
    messages (step s ClickNext)
    = map (fun i => mkMessage 0 i (sender_value s) [0])
        (seq 1 (length (nodes s) - 1))
    /\ length (nodes (step s ClickNext)) = length (nodes s)
    /\ forall i node',
         nodes (step s ClickNext) !! i = Some node' ->
         message_log node'
         = if i =? 0 then [] else [("0"%string, sender_value s)].
Proof.
  intros s Hs Hph Hne. apply Inv_reachable in Hs as HI.
  destruct (inv_ready s HI Hph) as (Hr & _ & _).
  destruct (inv_max_faulty s HI) as [Hmf Hfv].
  pose proof (inv_sender_id s HI) as Hsid.
  destruct (nodes s) as [|sender rest] eqn:Hns; [contradiction|].
  assert (Hsender : nodes s !! 0 = Some sender) by now rewrite Hns.
  pose proof (ready_node s 0 sender HI Hph Hsender) as Esender.
  pose proof (inv_sender_honest s HI sender Hsender) as Hhonest.
  assert (Hmsgs : round_messages s
                  = Some (map (fun i => mkMessage 0 i (sender_value s) [0])
                            (seq 1 (length rest)))).
  { unfold round_messages. rewrite Hr, Hsid, Hsender. cbn [Nat.add Nat.eqb].
    f_equal. unfold round1_msgs, enumerate. rewrite Hns.
    cbn [length seq combine flat_map]. rewrite Nat.eqb_refl. cbn [app].
    apply round1_msgs_rest; [now rewrite Esender|exact Hhonest|lia|].
    intros j node Hj. apply (inv_ids s HI (S j)). now rewrite Hns. }
  destruct (run_next_round_fields s _ (inv_keys s HI) (or_introl Hph) Hmsgs)
    as (s' & E' & Hn' & _ & Hm' & _).
  unfold step. cbn [handle]. rewrite E'. cbn [state_of].
  cbn [length]. rewrite Nat.sub_succ, Nat.sub_0_r.
  split; [exact Hm'|]. rewrite Hn'. unfold round_nodes. cbv zeta.
  assert (Hnf : (max_faulty s <? current_round s + 1) = false).
  { apply Nat.ltb_ge. rewrite Hr, Hmf. destruct Hfv as [<-|[<-|[]]]; lia. }
  rewrite Hnf, deliver_length, Hns. split; [reflexivity|].
  intros i node'. rewrite <- Hns.
  rewrite deliver_sender_value by apply List.seq_NoDup.
  destruct (nodes s !! i) as [node|] eqn:Hi;
    [|destruct (existsb _ _); discriminate].
  pose proof (ready_node s i node HI Hph Hi) as Enode.
  destruct (Nat.eqb_spec i 0) as [->|Hi0].
  - destruct (existsb (Nat.eqb 0) (seq 1 (length rest))) eqn:E.
    + apply existsb_eqb_In, in_seq in E. lia.
    + intros [= <-]. now rewrite Enode.
  - destruct (existsb (Nat.eqb i) (seq 1 (length rest))) eqn:E.
    + cbn. intros [= <-]. cbn. now rewrite Enode.
    + exfalso.
      assert (existsb (Nat.eqb i) (seq 1 (length rest)) = true);
        [|congruence].
      apply existsb_eqb_In, in_seq.
      apply lookup_lt_Some in Hi. rewrite Hns in Hi. cbn in Hi. lia.
Qed.

Lemma first_round_sends_sender_value_witness :
  let s := step (step initial (ChooseValue Retreat)) ClickSetup in
  messages (step s ClickNext)
  = [mkMessage 0 1 Retreat [0]; mkMessage 0 2 Retreat [0];
     mkMessage 0 3 Retreat [0]]
  /\ map message_log (nodes (step s ClickNext))
     = [[]; [("0"%string, Retreat)]; [("0"%string, Retreat)];
        [("0"%string, Retreat)]].
Proof.
  cbv zeta. split; [|vm_compute; reflexivity].
  apply (first_round_sends_sender_value
           (step (step initial (ChooseValue Retreat)) ClickSetup)).
  - repeat (apply reachable_step; [|exact I]). apply reachable_initial.
  - vm_compute. reflexivity.
  - vm_compute. discriminate.
Defined.

(** ** The logs after the rounds *)

Lemma held_all_honest fl sv rp q :
  Forall (fun j => fl j = false) rp -> held fl sv rp q = sv.
Proof.
  revert q. induction rp as [|j rp IH]; intros q H; [reflexivity|].
  inversion H as [|? ? Hj Hrp]; subst.
  cbn [held]. unfold transmit. rewrite Hj. now apply IH.
Qed.

Lemma reachable_ready_Logs s :
  reachable s ->
  simulation_state s = ready ->
  nodes s <> [] ->
  Logs (length (nodes s)) (sender_id s) (sender_value s)
    (faulty_at (nodes s)) (current_round s) (nodes s)
  /\ current_round s = 0
  /\ sender_id s < length (nodes s).
Proof.
  intros Hs Hph Hne. apply Inv_reachable in Hs as HI.
  destruct (inv_ready s HI Hph) as (Hr & _ & Hfresh).
  rewrite Hr. split; [|split; [reflexivity|]].
  - apply Logs_fresh. intros i node Hi.
    split; [now apply (inv_ids s HI)|now apply (Hfresh i)].
  - rewrite (inv_sender_id s HI). destruct (nodes s); [contradiction|cbn; lia].
Qed.

(** X19.  What the logs hold.  From a ready state the window can reach, with
    its nodes in place, [k <= F+1] presses of "Next Round" return, and
    every entry of every log then has as its key the joined form of a
    path of at most [k] ids, and as its value what the nodes on the path
    handed on, one to the next, starting from the sender's value: a
    faulty node hands on the value chosen for the receiver, the others
    what they got.  So an entry whose path names no faulty node holds
    the sender's value. *)
Theorem log_values_after_rounds :
  forall s k,
    reachable s ->
    simulation_state s = ready ->
    nodes s <> [] ->
    k <= max_faulty s + 1 ->
    exists s',
      advance k s = Some s'
      /\ forall q node' key v,
           nodes s' !! q = Some node' ->
           In (key, v) (message_log node') ->
           exists p,
             key = join_ids p
             /\ 1 <= length p <= k
             /\ v = held (faulty_at (nodes s)) (sender_value s) (rev p) q
             /\ (Forall (fun j => faulty_at (nodes s) j = false) p ->
                 v = sender_value s).
Proof.
  intros s k Hs Hph Hne Hk.
  destruct (reachable_ready_Logs s Hs Hph Hne) as (HL0 & Hr & Hsid).
  destruct (advance_Logs (length (nodes s)) (faulty_at (nodes s)) k s)
    as (s' & E & HL & _); [now left|exact HL0|exact Hsid|lia|].
  rewrite Hr in HL. cbn [Nat.add] in HL.
  exists s'. split; [exact E|].
  intros q node' key v Hq Hin.
  destruct (keys_ok_parse _ key v (logs_canon _ _ _ _ _ _ HL q node' Hq) Hin)
    as (p & Hp & -> & Hparse).
  assert (Hentry : In (p, v) (entries (message_log node'))).
  { apply in_entries. now exists (join_ids p). }
  destruct (logs_sound _ _ _ _ _ _ HL q node' p v Hq Hentry) as [Hv Hlen].
  pose proof (logs_complete _ _ _ _ _ _ HL q node' p Hq Hv Hlen) as Hget.
  rewrite (In_log_get _ p v) in Hget;
    [|now apply (logs_canon _ _ _ _ _ _ HL q)
     |now apply (logs_keys _ _ _ _ _ _ HL q)
     |exact Hentry].
  injection Hget as ->.
  exists p. split; [reflexivity|]. split; [|split; [reflexivity|]].
  - split; [|exact Hlen]. destruct p; [contradiction|cbn; lia].
  - intros Hall. apply held_all_honest. now apply List.Forall_rev.
Qed.

Lemma log_values_after_rounds_witness :
  let s := step initial (ClickCanvas (Nat.eqb 2)) in
  exists s',
    advance 2 s = Some s'
    /\ forall q node' key v,
         nodes s' !! q = Some node' ->
         In (key, v) (message_log node') ->
         exists p,
           key = join_ids p
           /\ 1 <= length p <= 2
           /\ v = held (faulty_at (nodes s)) Attack (rev p) q
           /\ (Forall (fun j => faulty_at (nodes s) j = false) p ->
               v = Attack).
Proof.
  cbv zeta.
  apply (log_values_after_rounds (step initial (ClickCanvas (Nat.eqb 2))) 2).
  - apply reachable_step; [apply reachable_initial|exact I].
  - vm_compute. reflexivity.
  - vm_compute. discriminate.
  - vm_compute. lia.
Defined.

(** X20.  Every path is logged.  After [k <= F+1] presses from such a state,
    the log of the node [q] has an entry for every path of at most [k]
    different ids that starts with the sender and does not name [q]. *)
Theorem log_paths_after_rounds :
  forall s k,
    reachable s ->
    simulation_state s = ready ->
    nodes s <> [] ->
    k <= max_faulty s + 1 ->
    exists s',
      advance k s = Some s'
      /\ length (nodes s') = length (nodes s)
      /\ forall q node' p,
           nodes s' !! q = Some node' ->
           hd_error p = Some (sender_id s) ->
           List.NoDup p ->
           ~ In q p ->
           Forall (fun j => j < length (nodes s)) p ->
           length p <= k ->
           dict_get (message_log node') (join_ids p)
           = Some (held (faulty_at (nodes s)) (sender_value s) (rev p) q).
Proof.
  intros s k Hs Hph Hne Hk.
  destruct (reachable_ready_Logs s Hs Hph Hne) as (HL0 & Hr & Hsid).
  destruct (advance_Logs (length (nodes s)) (faulty_at (nodes s)) k s)
    as (s' & E & HL & _); [now left|exact HL0|exact Hsid|lia|].
  rewrite Hr in HL. cbn [Nat.add] in HL.
  exists s'. split; [exact E|]. split; [apply HL|].
  intros q node' p Hq Hhd Hnd Hnot Hall Hlen.
  apply (logs_complete _ _ _ _ _ _ HL q node' p Hq); [|exact Hlen].
  now repeat split.
Qed.

Lemma log_paths_after_rounds_witness :
  exists s',
    advance 2 initial = Some s'
    /\ length (nodes s') = 4
    /\ forall node',
         nodes s' !! 3 = Some node' ->
         dict_get (message_log node') "0-2" = Some Attack.
Proof.
  destruct (log_paths_after_rounds initial 2) as (s' & E & Hlen & H);
    [apply reachable_initial|vm_compute; reflexivity|vm_compute; discriminate
    |vm_compute; lia|].
  exists s'. split; [exact E|]. split; [exact Hlen|].
  intros node' Hq.
  apply (H 3 node' [0; 2] Hq).
  - vm_compute. reflexivity.
  - repeat constructor; cbn; intuition lia.
  - cbn. intuition lia.
  - vm_compute. repeat constructor.
  - cbn. lia.
Defined.

(** ** The majority and the closing loop *)

Lemma occurrences_Permutation x (l l' : list (option Value)) :
  Permutation l l' -> occurrences x l = occurrences x l'.
Proof.
  unfold occurrences. induction 1 as [|v l l' _ IH|v w l|l l' l'' _ IH1 _ IH2].
  - reflexivity.
  - cbn. destruct v as [y|]; [destruct (Value_eqb x y)|]; cbn; now rewrite IH.
  - cbn. destruct v as [y|], w as [z|];
      try destruct (Value_eqb x y); try destruct (Value_eqb x z); reflexivity.
  - now rewrite IH1.
Qed.

(** X21.  The majority does not depend on the order of the values: whichever
    way [app.nodes] is run through, the same values give the same
    result. *)
Theorem get_majority_order :
  forall values values',
    Permutation values values' ->
    get_majority values = get_majority values'.
Proof.
  intros values values' Hp. unfold get_majority.
  rewrite !count_votes_occurrences. cbn [fst].
  now rewrite (Permutation_length Hp), (occurrences_Permutation _ _ _ Hp).
Qed.

Lemma get_majority_order_witness :
  get_majority [Some Attack; None; Some Retreat; Some Attack]
  = get_majority [None; Some Retreat; Some Attack; Some Attack].
Proof.
  apply (get_majority_order
           [Some Attack; None; Some Retreat; Some Attack]
           [None; Some Retreat; Some Attack; Some Attack]).
  apply perm_trans with [None; Some Attack; Some Retreat; Some Attack].
  - apply perm_swap.
  - apply perm_skip. apply perm_swap.
Defined.

(** X22.  The closing loop decides for all at once.  The loop writes each
    decision into the node before the next node decides, but a decision
    never reads the decisions of others: after the loop every node that
    is not faulty holds what [resolve_decision] gives on the nodes as they
    were before the loop, and the faulty nodes are as they were. *)
Theorem decide_all_simultaneous :
  forall s,
    nodes (decide_all s)
    = map (fun node =>
             if is_faulty node then node
             else set_final_decision
                    (resolve_decision (nodes s) node [sender_id s]
                       (max_faulty s))
                    node)
        (nodes s)
    /\ simulation_state (decide_all s) = simulation_state s
    /\ messages (decide_all s) = messages s
    /\ current_round (decide_all s) = current_round s.
Proof.
  intros s. rewrite decide_all_nodes, decide_nodes_map. now repeat split.
Qed.

(** ** The node a click lands on *)

(** X23.  The loop of [on_canvas_click] stops at the first node hit.  In the
    phase [ready], when the node at position [i] is the first of the list
    whose disc contains the point, is not the sender, and is faulty or
    the quota is not used up, the click flips the faulty flag of that
    node alone and moves the counter by one. *)
Theorem on_canvas_click_first_hit :
  forall hit s i node,
    simulation_state s = ready ->
    nodes s !! i = Some node ->
    hit (id node) = true ->
    (forall j other, j < i -> nodes s !! j = Some other ->
                     hit (id other) = false) ->
    is_sender node = false ->
    (is_faulty node = false ->
     (current_faulty s < Z.of_nat (max_faulty s))%Z) ->
    nodes (on_canvas_click hit s)
    = <[i := set_is_faulty (negb (is_faulty node)) node]> (nodes s)
    /\ current_faulty (on_canvas_click hit s)
       = (if is_faulty node then current_faulty s - 1
          else current_faulty s + 1)%Z.
Proof.
  intros hit s i node Hph Hi Hhit Hfirst Hsnd Hq.
  assert (Hc : clicked hit s = Some (i, node)) by now apply clicked_spec.
  rewrite (on_canvas_click_sets hit s i node (negb (is_faulty node)));
    try assumption.
  - match goal with |- context [update_ui_state ?x] =>
      destruct (update_ui_state_fields x) as (-> & _ & _ & _ & -> & _)
    end.
    cbn [nodes current_faulty with_nodes with_current_faulty].
    split; [reflexivity|]. now destruct (is_faulty node).
  - now rewrite negb_involutive.
  - intros Hb. apply Hq. now destruct (is_faulty node).
Qed.

Lemma on_canvas_click_first_hit_witness :
  nodes (on_canvas_click (fun i => 2 <=? i) initial)
  = <[2 := mkNode 2 false true [] None]> (nodes initial)
  /\ current_faulty (on_canvas_click (fun i => 2 <=? i) initial) = 1%Z.
Proof.
  apply (on_canvas_click_first_hit (fun i => 2 <=? i) initial 2
           (mkNode 2 false false [] None)); try (vm_compute; reflexivity).
  intros [|[|j]] other Hj; [intros [= <-]; reflexivity..|lia].
Defined.

Lemma on_canvas_click_simulation hit s1 s2 :
  simulation s1 = simulation s2 ->
  simulation (on_canvas_click hit s1) = simulation (on_canvas_click hit s2).
Proof.
  intros E. pose proof E as E0. unfold simulation in E0.
  injection E0 as En Em Ef Et Ec Es Er Ep Ev.
  unfold on_canvas_click. rewrite <- Ep, <- En, <- Ec, <- Ef.
  destruct (simulation_state s1) eqn:Hp1; try exact E.
  destruct (find _ _) as [[i node]|]; [|exact E].
  destruct (is_sender node); [exact E|].
  destruct (is_faulty node);
    [|destruct (current_faulty s1 <? Z.of_nat (max_faulty s1))%Z];
    rewrite !update_ui_state_simulation; try exact E;
    unfold simulation;
    cbn [nodes messages max_faulty total_nodes current_faulty sender_id
         current_round simulation_state sender_value with_nodes
         with_current_faulty].
  all: congruence.
Qed.

(** ** Inputs during a run *)

(** X24.  What is typed or chosen waits for "Setup / Reset".  In every state
    the window can reach, a press of "Next Round" or a click on the
    canvas does to the simulation what it would do had the N entry and
    the radio buttons not been touched: neither handler reads them. *)
Theorem inputs_wait_for_setup :
  forall s n v e,
    reachable s ->
    match e with ClickNext | ClickCanvas _ => True | _ => False end ->
    simulation (step (with_sender_value_var v (with_n_var n s)) e)
    = simulation (step s e).
Proof.
  intros s n v e Hs He. apply Inv_reachable in Hs as HI.
  destruct e as [| | | | |hit]; try contradiction; unfold step;
    cbn [handle state_of].
  - set (s2 := with_sender_value_var v (with_n_var n s)).
    assert (Ha : agree s s2) by now repeat split.
    destruct (agree_run_next_round s s2 (inv_keys s HI) Ha)
      as (En & Em & Ef & Es & Ev & Er & Ep).
    destruct (run_next_round_keeps_fields s) as (_ & _ & _ & Hc1 & Ht1 & _).
    destruct (run_next_round_keeps_fields s2) as (_ & _ & _ & Hc2 & Ht2 & _).
    unfold simulation.
    rewrite <- En, <- Em, <- Ef, <- Es, <- Ev, <- Er, <- Ep, Hc1, Hc2, Ht1, Ht2.
    reflexivity.
  - now apply on_canvas_click_simulation.
Qed.

Lemma inputs_wait_for_setup_witness :
  simulation
    (step (with_sender_value_var Retreat
             (with_n_var (Some 9%Z) (step initial ClickNext))) ClickNext)
  = simulation (step (step initial ClickNext) ClickNext).
Proof.
  apply (inputs_wait_for_setup (step initial ClickNext) (Some 9%Z) Retreat
           ClickNext).
  - apply reachable_step; [apply reachable_initial|exact I].
  - exact I.
Defined.

(** ** The decisions of the lieutenants in every finished run *)

Lemma advance_reachable k :
  forall s s', reachable s -> advance k s = Some s' -> reachable s'.
Proof.
  induction k as [|k IH]; intros s s' Hs E; cbn [advance] in E.
  - now injection E as <-.
  - destruct (run_next_round s) as [s1|s1] eqn:E1; [|discriminate].
    apply (IH s1 s'); [|exact E].
    replace s1 with (step s ClickNext)
      by (unfold step; cbn [handle]; now rewrite E1).
    now apply reachable_step.
Qed.

Lemma advance_keeps k :
  forall s s',
    advance k s = Some s' ->
    max_faulty s' = max_faulty s
    /\ sender_value s' = sender_value s
    /\ map id (nodes s') = map id (nodes s).
Proof.
  induction k as [|k IH]; intros s s' E; cbn [advance] in E.
  - now injection E as <-.
  - destruct (run_next_round s) as [s1|s1] eqn:E1; [|discriminate].
    destruct (IH s1 s' E) as (-> & -> & ->).
    destruct (run_next_round_keeps_nodes s) as (Hid & _).
    destruct (run_next_round_keeps_fields s) as (Hf & _ & Hv & _).
    rewrite E1 in Hid, Hf, Hv. cbn [state_of] in Hid, Hf, Hv.
    now repeat split.
Qed.

(** Every state the window can reach with nodes on the canvas is, as far
    as the simulation goes, what presses of "Next Round" make of a ready
    state the window can reach, as many as the round counter says. *)
Lemma reachable_origin s :
  reachable s ->
  nodes s = []
  \/ exists s0 s',
       reachable s0
       /\ simulation_state s0 = ready
       /\ advance (current_round s) s0 = Some s'
       /\ agree s' s.
Proof.
  induction 1 as [|s e Hs IH He].
  - right. exists initial, initial.
    split; [apply reachable_initial|].
    split; [vm_compute; reflexivity|].
    split; [vm_compute; reflexivity|now repeat split].
  - assert (Ht : reachable (step s e)) by now apply reachable_step.
    apply Inv_reachable in Hs as HI. apply Inv_reachable in Ht as HIt.
    assert (Hph : simulation_state (step s e) = ready
                  \/ simulation_state (step s e) <> ready)
      by (destruct (simulation_state (step s e)); auto; right; discriminate).
    destruct Hph as [Hready|Hnot].
    { right. exists (step s e), (step s e).
      destruct (inv_ready _ HIt Hready) as (-> & _).
      split; [exact Ht|]. now repeat split. }
    revert Hnot. unfold step.
    destruct e as [f|n|v| | |hit]; cbn [handle state_of]; intros Hnot.
    + unfold on_f_changed in *.
      match goal with |- context [setup_simulation ?x] =>
        destruct (setup_simulation_outcome x (inv_sender_id s HI))
          as [(Hn & _)|(n_input & _ & _ & _ & Hp & _)]
      end; [now left|contradiction].
    + destruct IH as [Hn|(s0 & s' & H0 & Hp0 & Hadv & Ha)]; [now left|].
      right. exists s0, s'.
      split; [exact H0|]. split; [exact Hp0|]. split; [exact Hadv|exact Ha].
    + destruct IH as [Hn|(s0 & s' & H0 & Hp0 & Hadv & Ha)]; [now left|].
      right. exists s0, s'.
      split; [exact H0|]. split; [exact Hp0|]. split; [exact Hadv|exact Ha].
    + destruct (setup_simulation_outcome s (inv_sender_id s HI))
        as [(Hn & _)|(n_input & _ & _ & _ & Hp & _)]; [now left|contradiction].
    + destruct (run_next_round_keeps_nodes s) as (Hids & _).
      destruct IH as [Hn|(s0 & s' & H0 & Hp0 & Hadv & Ha)].
      { left. rewrite Hn in Hids. now apply map_eq_nil in Hids. }
      destruct (nodes s) as [|node0 rest] eqn:Hns.
      { left. now apply map_eq_nil in Hids. }
      assert (Hcases : simulation_state s = ready
                       \/ simulation_state s = running
                       \/ run_next_round s = Returned s).
      { unfold run_next_round. destruct (simulation_state s); auto. }
      assert (Hgo : simulation_state s = ready
                    \/ simulation_state s = running ->
                exists s0 s',
                  reachable s0
                  /\ simulation_state s0 = ready
                  /\ advance (current_round (state_of (run_next_round s))) s0
                     = Some s'
                  /\ agree s' (state_of (run_next_round s))).
      { intros Hrr.
        pose proof (advance_reachable _ s0 s' H0 Hadv) as Hs'.
        apply Inv_reachable in Hs' as HI'.
        pose proof Ha as (En & _).
        destruct (reachable_press_returns s' Hs') as (t' & Et' & _).
        { rewrite En, Hns. discriminate. }
        destruct (round_messages_some s) as [msgs Hmsgs].
        { intros _. rewrite (inv_sender_id s HI), Hns. cbn. eauto. }
        destruct (run_next_round_fields s msgs (inv_keys s HI) Hrr Hmsgs)
          as (t & Et & _ & _ & _ & Hr & _).
        pose proof (agree_run_next_round s' s (inv_keys s' HI') Ha) as Ha'.
        rewrite Et', Et in Ha'. cbn [state_of] in Ha'.
        exists s0, t'. rewrite Et. cbn [state_of]. rewrite Hr.
        split; [exact H0|]. split; [exact Hp0|]. split; [|exact Ha'].
        rewrite advance_add, Hadv. cbn [advance]. now rewrite Et'. }
      destruct Hcases as [Hc|[Hc|E]]; [right; apply Hgo; auto..|].
      right. rewrite E. cbn [state_of]. exists s0, s'.
      split; [exact H0|]. split; [exact Hp0|]. split; [exact Hadv|exact Ha].
    + destruct (on_canvas_click_keeps hit s) as (Hp & _ & _ & _ & Hsame).
      rewrite Hp in Hnot. rewrite (Hsame Hnot). exact IH.
Qed.

(** X25.  The order of the sender reaches the lieutenants, in every run.  In
    every finished state the window can reach, whatever was clicked,
    typed and pressed on the way, every node that is neither faulty nor
    the sender holds the sender's value as its [final_decision]; any two
    such nodes therefore hold the same decision. *)
Theorem finished_lieutenants_hold_sender_value :
  forall s,
    reachable s ->
    simulation_state s = finished ->
    (forall node,
        In node (nodes s) ->
        is_faulty node = false ->
        is_sender node = false ->
        final_decision node = Some (sender_value s))
    /\ (forall node1 node2,
          In node1 (nodes s) -> In node2 (nodes s) ->
          is_faulty node1 = false -> is_faulty node2 = false ->
          is_sender node1 = false -> is_sender node2 = false ->
          final_decision node1 = final_decision node2).
Proof.
  intros s Hs Hph.
  assert (H : forall node,
             In node (nodes s) ->
             is_faulty node = false ->
             is_sender node = false ->
             final_decision node = Some (sender_value s)).
  { intros node Hin Hf Hsnd. apply Inv_reachable in Hs as HI.
    pose proof (phase_round_reachable s Hs) as Hr. rewrite Hph in Hr.
    destruct (reachable_origin s Hs) as [Hn|(s0 & s' & H0 & Hp0 & Hadv & Ha)].
    { rewrite Hn in Hin. destruct Hin. }
    destruct Ha as (En & _ & Ef & _ & Ev & _).
    destruct (advance_keeps _ _ _ Hadv) as (Hf0 & Hv0 & Hid0).
    destruct (reachable_lieutenants_decide_sender_value s0 H0 Hp0)
      as (sF & EF & _ & Hdec).
    { intros E0. rewrite E0, En in Hid0.
      destruct (nodes s); [destruct Hin|discriminate]. }
    rewrite Hr, <- Ef, Hf0, EF in Hadv. injection Hadv as ->.
    rewrite <- Ev, Hv0. apply Hdec; [now rewrite En|exact Hf|].
    apply Inv_reachable in H0 as HI0. rewrite (inv_sender_id s0 HI0).
    apply list_elem_of_In, list_elem_of_lookup in Hin as [i Hi].
    rewrite (inv_is_sender s HI i node Hi) in Hsnd.
    rewrite (inv_ids s HI i node Hi). now apply Nat.eqb_neq. }
  split; [exact H|].
  intros node1 node2 Hin1 Hin2 Hf1 Hf2 Hs1 Hs2.
  now rewrite (H node1), (H node2).
Qed.

Lemma finished_lieutenants_hold_sender_value_witness :
  let s := step (step (step (step (step (step initial (ChooseValue Retreat))
                                     ClickSetup)
                               (ClickCanvas (Nat.eqb 3)))
                         ClickNext)
                   (ChooseValue Attack))
             ClickNext in
  simulation_state s = finished
  /\ map final_decision (nodes s)
     = [Some Retreat; Some Retreat; Some Retreat; None]
  /\ forall node,
       In node (nodes s) ->
       is_faulty node = false ->
       is_sender node = false ->
       final_decision node = Some Retreat.
Proof.
  cbv zeta. split; [vm_compute; reflexivity|].
  split; [vm_compute; reflexivity|].
  apply (finished_lieutenants_hold_sender_value
           (step (step (step (step (step (step initial (ChooseValue Retreat))
                                      ClickSetup)
                                (ClickCanvas (Nat.eqb 3)))
                          ClickNext)
                    (ChooseValue Attack))
              ClickNext)).
  - repeat (apply reachable_step; [|exact I]). apply reachable_initial.
  - vm_compute. reflexivity.
Defined.

(** * The ready phase after a rejected setup *)

(** What a rejected "Setup / Reset" leaves, in every state the window can
    reach: the error text for the kind of input, no nodes and no
    messages, and the phase and the round counter as they were.  The
    phase is therefore one of [ready], [running] and [finished] after the
    rejection too, and it is [ready] when it was [ready]. *)
Lemma rejected_setup_outcome s :
  reachable s ->
  (n_var s = None
   \/ exists n_input,
        n_var s = Some n_input
        /\ (n_input < Z.of_nat (3 * f_var s + 1))%Z) ->
  exists s',
    setup_simulation s = Returned s'
    /\ sim_state_label s'
       = match n_var s with
         | None => LErrorNumber
         | Some _ => LErrorMin (Z.of_nat (3 * f_var s + 1))
         end
    /\ nodes s' = []
    /\ messages s' = []
    /\ simulation_state s' = simulation_state s
    /\ simulation_state s' <> setup
    /\ current_round s' = current_round s
    /\ max_faulty s' = max_faulty s.
Proof.
  intros Hs Hrej. apply Inv_reachable in Hs as HI.
  pose proof (phase_round_reachable s Hs) as Hph.
  destruct (inv_max_faulty s HI) as [Hmf _].
  assert (Hsetup : simulation_state s <> setup).
  { intros E. now rewrite E in Hph. }
  destruct Hrej as [Hn|(n_input & Hn & Hlt)].
  - rewrite (setup_simulation_not_a_number s Hn), Hn.
    eexists. split; [reflexivity|]. cbn. now repeat split.
  - rewrite (setup_simulation_too_small s n_input Hn Hlt), Hn.
    eexists. split; [reflexivity|]. cbn. now repeat split.
Qed.

(** A ready state without nodes, as a rejected setup leaves it: the first
    press of "Next Round" raises at [self.nodes[self.sender_id]], with
    the phase [running] and the round counter 1 by then, and the F
    presses after it return, the last of them in the phase [finished].
    The run is over after F presses that returned. *)
Lemma ready_without_nodes s :
  reachable s ->
  simulation_state s = ready ->
  nodes s = [] ->
  exists s1 sF,
    run_next_round s = Raised s1
    /\ simulation_state s1 = running
    /\ current_round s1 = 1
    /\ advance (max_faulty s) s1 = Some sF
    /\ simulation_state sF = finished
    /\ current_round sF = max_faulty s + 1
    /\ nodes sF = []
    /\ forall k, advance (S k) s = None.
Proof.
  intros Hs Hph Hnil. apply Inv_reachable in Hs as HI.
  destruct (inv_ready s HI Hph) as (Hr & _).
  destruct (inv_max_faulty s HI) as [Hmf Hfv].
  assert (HF : 1 <= max_faulty s).
  { rewrite Hmf. destruct Hfv as [<-|[<-|[]]]; lia. }
  assert (Hnone : round_messages s = None).
  { unfold round_messages. now rewrite Hr, Hnil. }
  pose proof (run_next_round_raises s (inv_keys s HI) (or_introl Hph) Hnone)
    as Eraise.
  set (s1 := with_messages []
               (with_current_round (current_round s + 1)
                  (with_simulation_state running s))) in *.
  assert (Hk1 : keys_ok_nodes (nodes s1)).
  { unfold s1. cbn. rewrite Hnil. intros i node Hi. discriminate. }
  destruct (advance_running (max_faulty s - 1) s1)
    as (s2 & E2 & Hk2 & Hr2 & Hf2 & Hs2 & H0 & H1);
    [exact Hk1|now right| |unfold s1; cbn; lia|].
  { unfold s1. cbn. lia. }
  assert (Hph2 : simulation_state s2 = ready \/ simulation_state s2 = running).
  { destruct (Nat.eq_dec (max_faulty s - 1) 0) as [E0|E0].
    - rewrite (H0 E0). now right.
    - right. apply H1. lia. }
  assert (Er2 : current_round s2 = max_faulty s).
  { rewrite Hr2. unfold s1. cbn. lia. }
  assert (Ef2 : max_faulty s2 = max_faulty s) by (now rewrite Hf2).
  destruct (round_messages_some s2) as [msgs Hmsgs]; [lia|].
  destruct (run_next_round_fields s2 msgs Hk2 Hph2 Hmsgs)
    as (sF & EF & Hn & Hp & _ & Hr' & _).
  exists s1, sF. split; [exact Eraise|]. split; [reflexivity|].
  split; [unfold s1; cbn; lia|]. split; [|split; [|split; [|split]]].
  - replace (max_faulty s) with (max_faulty s - 1 + 1) at 1 by lia.
    rewrite advance_add, E2. cbn [advance]. now rewrite EF.
  - rewrite Hp. unfold round_phase.
    destruct (Nat.ltb_spec (max_faulty s2) (current_round s2 + 1)); [easy|lia].
  - lia.
  - apply length_zero_iff_nil.
    rewrite Hn, round_nodes_length.
    destruct (advance_keeps _ _ _ E2) as (_ & _ & Hids).
    apply (f_equal length) in Hids. rewrite !length_map in Hids.
    rewrite Hids. unfold s1. cbn. now rewrite Hnil.
  - intros k. cbn [advance]. now rewrite Eraise.
Qed.

(** C4 at the failing input.  The window as it opens (F = 1, N = 4), then
    3 typed into the N entry and "Setup / Reset" pressed: the setup is
    rejected and the phase is still [ready], without nodes.  From this
    ready state the first press of "Next Round" raises and the second
    returns in the phase [finished]: the run is over after one press that
    returned, not after F+1 = 2, and no two presses in a row return. *)
Theorem C4_finished_after_F_successful_presses :
  let s := step (step initial (TypeN (Some 3%Z))) ClickSetup in
  reachable s
  /\ simulation_state s = ready
  /\ max_faulty s = 1
  /\ nodes s = []
  /\ advance (max_faulty s + 1) s = None
  /\ exists s1 sF,
       run_next_round s = Raised s1
       /\ simulation_state s1 = running
       /\ run_next_round s1 = Returned sF
       /\ simulation_state sF = finished
       /\ current_round sF = 2.
Proof.
  cbv zeta. split.
  { repeat (apply reachable_step; [|exact I]). apply reachable_initial. }
  repeat (split; [vm_compute; reflexivity|]).
  eexists _, _. split; [vm_compute; reflexivity|].
  split; [reflexivity|]. split; [vm_compute; reflexivity|].
  split; reflexivity.
Qed.

(** C8 at the failing input.  The window as it opens (F = 1, phase
    [ready], four nodes), with 3 typed into the N entry: "Setup / Reset"
    is rejected with the error text that names the minimum 4, and with
    the other error text for an N that is no number, but after the
    rejection the phase is [ready], with no nodes, and "Next Round" is
    taken and raises. *)
Theorem C8_rejected_setup_stays_ready :
  let s := step initial (TypeN (Some 3%Z)) in
  reachable s
  /\ f_var s = 1
  /\ simulation_state s = ready
  /\ length (nodes s) = 4
  /\ (exists s',
        setup_simulation s = Returned s'
        /\ sim_state_label s' = LErrorMin 4
        /\ nodes s' = []
        /\ simulation_state s' = ready
        /\ exists s'', run_next_round s' = Raised s'')
  /\ (exists s',
        setup_simulation (step initial (TypeN None)) = Returned s'
        /\ sim_state_label s' = LErrorNumber
        /\ nodes s' = []
        /\ simulation_state s' = ready).
Proof.
  cbv zeta. split.
  { apply reachable_step; [apply reachable_initial|exact I]. }
  repeat (split; [vm_compute; reflexivity|]).
  split.
  - eexists. split; [vm_compute; reflexivity|].
    repeat (split; [reflexivity|]).
    eexists. vm_compute. reflexivity.
  - eexists. split; [vm_compute; reflexivity|]. now repeat split.
Qed.
